(** * Activity pipeline: normalisation, grouping, aggregation and acquisition

    A shallow embedding of the TypeScript services of the activity dashboard
    ([callsData.ts], [googlePhotosData.ts], [traktGenreAggregation.ts],
    [TraktHeatmaps.vue]'s [monthsForYear]) and of the Google Photos
    frequency-counter console script, with the properties of the
    specification proved over it.

    JavaScript numbers are IEEE 754 binary64 values: they are modelled by
    [spec_float] at precision 53 and maximal exponent 1024, with the
    operations of [SpecFloat]. *)

From Stdlib Require Import ZArith Lia List Bool String Ascii.
From Stdlib Require Import DecimalString DecimalZ DecimalPos.
From Stdlib Require Import Floats.SpecFloat.
From Stdlib Require Import Sorting.Sorted Sorting.Permutation.
Import ListNotations.

Local Open Scope string_scope.
Local Open Scope Z_scope.

(** ** JavaScript numbers *)

Module JsNumber.

Definition prec : Z := 53.
Definition emax : Z := 1024.

Definition num : Type := spec_float.

Definition NaN : num := S754_nan.
Definition zero : num := S754_zero false.

(** [Number.isFinite(x)] for a value that already is a number. *)
Definition isFinite (x : num) : bool :=
  match x with
  | S754_zero _ | S754_finite _ _ _ => true
  | S754_infinity _ | S754_nan => false
  end.

Definition isNaN (x : num) : bool :=
  match x with S754_nan => true | _ => false end.

(** [x + y], [x - y] and [x / y] on numbers. *)
Definition add (x y : num) : num := SFadd prec emax x y.
Definition sub (x y : num) : num := SFsub prec emax x y.
Definition div (x y : num) : num := SFdiv prec emax x y.

(** [x <= y], [x < y], [x >= y] and [x === y] on numbers. *)
Definition leb (x y : num) : bool := SFleb x y.
Definition ltb (x y : num) : bool := SFltb x y.
Definition geb (x y : num) : bool := SFleb y x.
Definition eqb (x y : num) : bool := SFeqb x y.

(** The number denoted by an integer literal (exact below 2^53). *)
Definition of_Z (z : Z) : num := binary_normalize prec emax z 0 false.

Definition sixty : num := Eval vm_compute in of_Z 60.

(** [Math.round(x)]: the integer nearest to [x], ties towards +infinity;
    an integral, infinite or NaN argument is returned unchanged, and a
    result of magnitude zero keeps the sign of [x]. *)
Definition Math_round (x : num) : num :=
  match x with
  | S754_finite s m e =>
      if 0 <=? e then x
      else
        let n := (cond_Zopp s (Zpos m) + 2 ^ (- e - 1)) / 2 ^ (- e) in
        if n =? 0 then S754_zero s else of_Z n
  | _ => x
  end.

(** The sign a comparator result is read for by [Array.prototype.sort]:
    negative, positive, or neither (zero and NaN count as zero). *)
Definition sign (x : num) : comparison :=
  match x with
  | S754_finite s _ _ | S754_infinity s => if s then Lt else Gt
  | S754_zero _ | S754_nan => Eq
  end.

(** A number is a binary64 value when its mantissa and exponent are the
    canonical ones of the format. *)
Definition binary64 (x : num) : Prop := valid_binary prec emax x = true.

(** An integer that orders the binary64 values as they are ordered as
    numbers: the value scaled by 2^1074, with the infinities beyond every
    finite one.  It serves the proofs only. *)
Definition infinity_rank : Z := 2 ^ 2100.

Definition ord (x : num) : Z :=
  match x with
  | S754_zero _ | S754_nan => 0
  | S754_finite s m e => cond_Zopp s (Zpos m * 2 ^ (e + 1074))
  | S754_infinity s => cond_Zopp s infinity_rank
  end.

End JsNumber.

Import JsNumber.

(** Numbers that are integers or NaN: calendar fields read from a [Date]
    ([getUTCFullYear], [getUTCMonth]) and what is computed from them.  [None]
    is NaN; the integers involved are far below 2^53, so their arithmetic is
    exact. *)

Module JsInt.

Definition intnum : Type := option Z.

Definition isub (a b : intnum) : intnum :=
  match a, b with Some x, Some y => Some (x - y) | _, _ => None end.

Definition iadd (a b : intnum) : intnum :=
  match a, b with Some x, Some y => Some (x + y) | _, _ => None end.

(** [a || b] on numbers: [a] when it is truthy (neither 0 nor NaN). *)
Definition ior (a b : intnum) : intnum :=
  match a with
  | Some x => if x =? 0 then b else a
  | None => b
  end.

(** [a === b] on numbers: NaN is equal to nothing. *)
Definition strict_eqb (a b : intnum) : bool :=
  match a, b with Some x, Some y => x =? y | _, _ => false end.

(** SameValueZero, the equality of [Set] and [Map] keys: NaN equals NaN. *)
Definition same_value_zero (a b : intnum) : bool :=
  match a, b with
  | Some x, Some y => x =? y
  | None, None => true
  | _, _ => false
  end.

Definition isign (a : intnum) : comparison :=
  match a with Some x => x ?= 0 | None => Eq end.

(** [a >= b]. *)
Definition igeb (a b : intnum) : bool :=
  match a, b with Some x, Some y => y <=? x | _, _ => false end.

Definition string_of_Z (z : Z) : string := NilZero.string_of_int (Z.to_int z).

(** [String(a)], also what a template literal inserts. *)
Definition to_string (a : intnum) : string :=
  match a with Some z => string_of_Z z | None => "NaN" end.

End JsInt.

Import JsInt.

(** ** Strings *)

Module JsString.

Definition is_digit (c : ascii) : bool :=
  let n := N_of_ascii c in ((48 <=? n) && (n <=? 57))%N.

Definition digit_value (c : ascii) : Z := Z.of_N (N_of_ascii c) - 48.

Definition is_hyphen (c : ascii) : bool := Ascii.eqb c "-".

(** The test [/^\d{4}-\d{2}-\d{2}$/.test(s)]. *)
Definition day_pattern (s : string) : bool :=
  match list_ascii_of_string s with
  | [y1; y2; y3; y4; h1; m1; m2; h2; d1; d2] =>
      is_digit y1 && is_digit y2 && is_digit y3 && is_digit y4 &&
      is_hyphen h1 && is_digit m1 && is_digit m2 &&
      is_hyphen h2 && is_digit d1 && is_digit d2
  | _ => false
  end.

(** The value of a string of decimal digits, most significant first. *)
Definition digits_value (cs : list ascii) : Z :=
  fold_left (fun acc c => 10 * acc + digit_value c) cs 0.

(** [Number(s)] on the strings a month key is split into: a string of
    decimal digits is its decimal value, the empty string is 0, and
    ["NaN"] (as any other text without a numeric reading) is NaN.  Signs,
    blanks, fractions, exponents and radix prefixes do not occur in those
    strings and are not interpreted. *)
Definition Number_of_digits (s : string) : intnum :=
  let cs := list_ascii_of_string s in
  if forallb is_digit cs then Some (digits_value cs) else None.

(** [s.split(sep)] for a one-character separator. *)
Fixpoint split_aux (sep : ascii) (cur : list ascii) (cs : list ascii)
  : list string :=
  match cs with
  | [] => [string_of_list_ascii (rev cur)]
  | c :: cs' =>
      if Ascii.eqb c sep
      then string_of_list_ascii (rev cur) :: split_aux sep [] cs'
      else split_aux sep (c :: cur) cs'
  end.

Definition split (sep : ascii) (s : string) : list string :=
  split_aux sep [] (list_ascii_of_string s).

(** [s.padStart(2, '0')]. *)
Definition padStart2 (s : string) : string :=
  match String.length s with
  | O => "00"
  | S O => "0" ++ s
  | _ => s
  end.

End JsString.

Import JsString.

(** ** Dates

    A [Date] is observed by this code only through its UTC calendar fields,
    so it is represented by them; [None] is the Invalid Date. *)

Module JsDate.

Record fields : Type := mkFields { f_year : Z; f_month : Z; f_day : Z }.

Definition Date : Type := option fields.

Definition is_leap (y : Z) : bool :=
  ((y mod 4 =? 0) && negb (y mod 100 =? 0)) || (y mod 400 =? 0).

Definition days_in_month (y m : Z) : Z :=
  if m =? 2 then (if is_leap y then 29 else 28)
  else if (m =? 4) || (m =? 6) || (m =? 9) || (m =? 11) then 30
  else 31.

(** [new Date(iso + 'T00:00:00Z')] for a date key: a string of the form
    YYYY-MM-DD naming a day of the calendar is that day at UTC midnight.
    A month or day out of bounds gives the Invalid Date; for a day past
    the end of its month (02-30) that is the reading of the date-time
    format, and an engine may roll the day over into the next month
    instead, so what is stated of such dates is stated of the year and
    month read here.  The other date-time forms of the language (and an
    engine's own fall-backs) lie outside the declared shape
    [date: string // ISO YYYY-MM-DD] and are read as the Invalid Date. *)
Definition of_iso_day (iso : string) : Date :=
  match list_ascii_of_string iso with
  | [y1; y2; y3; y4; h1; m1; m2; h2; d1; d2] =>
      if day_pattern iso then
        let y := digits_value [y1; y2; y3; y4] in
        let m := digits_value [m1; m2] in
        let d := digits_value [d1; d2] in
        if (1 <=? m) && (m <=? 12) && (1 <=? d) && (d <=? days_in_month y m)
        then Some (mkFields y m d)
        else None
      else None
  | _ => None
  end.

Definition msPerDay : Z := 86400000.

(** The civil date of a day number counted from 1970-01-01, in the
    proleptic Gregorian calendar. *)
Definition civil_from_days (z : Z) : fields :=
  let z := z + 719468 in
  let era := z / 146097 in
  let doe := z - era * 146097 in
  let yoe := (doe - doe / 1460 + doe / 36524 - doe / 146096) / 365 in
  let y := yoe + era * 400 in
  let doy := doe - (365 * yoe + yoe / 4 - yoe / 100) in
  let mp := (5 * doy + 2) / 153 in
  let d := doy - (153 * mp + 2) / 5 + 1 in
  let m := if mp <? 10 then mp + 3 else mp - 9 in
  mkFields (if m <=? 2 then y + 1 else y) m d.

(** The day number of a civil date, the inverse of [civil_from_days];
    [Date.UTC(y, m - 1, d)] is [msPerDay] times it. *)
Definition days_from_civil (y m d : Z) : Z :=
  let y := if m <=? 2 then y - 1 else y in
  let era := y / 400 in
  let yoe := y - era * 400 in
  let doy := (153 * (if 2 <? m then m - 3 else m + 9) + 2) / 5 + d - 1 in
  let doe := yoe * 365 + yoe / 4 - yoe / 100 + doy in
  era * 146097 + doe - 719468.

(** [new Date(t)] for an integral number of milliseconds: times beyond
    8.64e15 ms either side of the epoch give the Invalid Date. *)
Definition of_ms (t : Z) : Date :=
  if Z.abs t <=? 8640000000000000
  then Some (civil_from_days (t / msPerDay))
  else None.

Definition getUTCFullYear (d : Date) : intnum := option_map f_year d.
(** Months are numbered from 0. *)
Definition getUTCMonth (d : Date) : intnum :=
  option_map (fun f => f_month f - 1) d.
Definition getUTCDate (d : Date) : intnum := option_map f_day d.

End JsDate.

Import JsDate.

(** ** Maps, sets and sorting *)

Module JsMap.

(** A [Map] with string keys, in insertion order. *)
Definition t (V : Type) : Type := list (string * V).

Definition empty {V} : t V := [].

Fixpoint get {V} (k : string) (m : t V) : option V :=
  match m with
  | [] => None
  | (k', v) :: m' => if String.eqb k k' then Some v else get k m'
  end.

Definition has {V} (k : string) (m : t V) : bool :=
  match get k m with Some _ => true | None => false end.

(** [m.set(k, v)]: the value of a present key is replaced where the key
    stands; a new key goes last. *)
Fixpoint set {V} (k : string) (v : V) (m : t V) : t V :=
  match m with
  | [] => [(k, v)]
  | (k', v') :: m' =>
      if String.eqb k k' then (k', v) :: m' else (k', v') :: set k v m'
  end.

Definition keys {V} (m : t V) : list string := map fst m.

End JsMap.

Module JsSet.

(** A [Set] of numbers, in insertion order. *)
Definition t : Type := list intnum.

Definition has (x : intnum) (s : t) : bool := existsb (same_value_zero x) s.

Definition add (x : intnum) (s : t) : t :=
  if has x s then s else (s ++ [x])%list.

End JsSet.

Module JsArray.

Section Sort.
Context {A : Type}.
(** The sign of [comparefn(a, b)]: [Lt] when negative, [Gt] when
    positive, [Eq] when zero or NaN. *)
Variable cmp : A -> A -> comparison.

Fixpoint insert (x : A) (l : list A) : list A :=
  match l with
  | [] => [x]
  | y :: l' =>
      match cmp x y with
      | Gt => y :: insert x l'
      | _ => x :: y :: l'
      end
  end.

(** [Array.prototype.sort(comparefn)], which is stable: every engine
    returns this list when [comparefn] orders the elements
    consistently.  (For an inconsistent [comparefn] the order is left
    to the engine.) *)
Fixpoint sort (l : list A) : list A :=
  match l with
  | [] => []
  | x :: l' => insert x (sort l')
  end.
End Sort.

(** [l.slice(0, n)]. *)
Definition slice0 {A} (n : Z) (l : list A) : list A := firstn (Z.to_nat n) l.

End JsArray.

(** ** Parsed JSON as the adapters see it

    [String(v)] and [Number(v)] belong to the language, not to this
    repository.  A field value is therefore represented by what the adapters
    can learn of it: whether [??] replaces it, whether the two conversions
    return, and what they return. *)

Module JsValue.

Record jsval : Type := mkJsval {
  nullish : bool;      (* [null] or [undefined] *)
  converts : bool;     (* [String(v)] and [Number(v)] return *)
  asString : string;   (* String(v), when it returns *)
  asNumber : num       (* Number(v), when it returns *)
}.

(** A value the conversions accept: every primitive, and every object and
    array that has a primitive value. *)
Definition mkVal (nullish : bool) (asString : string) (asNumber : num)
  : jsval :=
  mkJsval nullish true asString asNumber.

(** An object without a primitive value, as [JSON.parse] makes it from
    [{"toString": 0}]: its own [toString] is not callable and the inherited
    [valueOf] returns the object, so [String(v)] and [Number(v)] throw a
    TypeError. *)
Definition unconvertible : jsval := mkJsval false false EmptyString NaN.

Definition undefined : jsval := mkVal true "undefined" NaN.
Definition null : jsval := mkVal true "null" zero.
Definition number_zero : jsval := mkVal false "0" zero.

(** The results of the conversions of a value that converts. *)
Definition ToString (v : jsval) : string := asString v.
Definition ToNumber (v : jsval) : num := asNumber v.

(** [String(v)] and [Number(v)] of any value; [None] is the TypeError. *)
Definition StringOf (v : jsval) : option string :=
  if converts v then Some (ToString v) else None.
Definition NumberOf (v : jsval) : option num :=
  if converts v then Some (ToNumber v) else None.

(** [v ?? 0]. *)
Definition or_zero (v : jsval) : jsval := if nullish v then number_zero else v.

(** An element of a parsed array.  Reading a property of [null] throws; a
    falsy primitive ([false], [0], the empty string) has no properties, and
    neither has a truthy primitive, which behaves as an object without
    any of the properties read here. *)
Inductive item : Type :=
| ItemNull
| ItemFalsy
| ItemObject (props : list (string * jsval)).

Definition truthy (d : item) : bool :=
  match d with ItemObject _ => true | _ => false end.

Fixpoint lookup (name : string) (props : list (string * jsval)) : jsval :=
  match props with
  | [] => undefined
  | (k, v) :: props' => if String.eqb name k then v else lookup name props'
  end.

(** [d.name]; [None] is the TypeError of reading a property of [null]. *)
Definition prop (d : item) (name : string) : option jsval :=
  match d with
  | ItemNull => None
  | ItemFalsy => Some undefined
  | ItemObject props => Some (lookup name props)
  end.

(** [d.name] for a [d] known to be truthy. *)
Definition field (d : item) (name : string) : jsval :=
  match prop d name with Some v => v | None => undefined end.

Inductive Exception : Type :=
| Error (message : string)
| TypeError
| SyntaxError.

(** What [await response.json()] ends in: the document it resolves to, or
    the reason it rejects with when the body is no JSON. *)
Inductive Json : Type :=
| JsonArray (items : list item)
| JsonObject (entries : list (string * jsval))  (* as [Object.entries] lists it *)
| JsonOther                                     (* null, a number, a string, a boolean *)
| JsonRejected (reason : Exception).

Record Response : Type := mkResponse {
  ok : bool;
  status : Z;
  statusText : string;
  json : Json
}.

Inductive Completion (A : Type) : Type :=
| Return (a : A)
| Throw (e : Exception).
Arguments Return {A} a.
Arguments Throw {A} e.

(** An async loader from its first line: [await fetch(path, ..)] resolves
    with a response, with which [load] goes on, or it rejects, and the
    loader rejects with the same reason. *)
Definition fetching {A : Type} (load : Response -> Completion A)
           (fetched : Completion Response) : Completion A :=
  match fetched with
  | Return response => load response
  | Throw reason => Throw reason
  end.

End JsValue.

Import JsValue.

(** ** [types/calls.ts] and [services/callsData.ts] *)

Module CallsData.

Record CallSummaryEntryRaw : Type := mkRaw {
  raw_date : string;
  raw_incoming_count : num;
  raw_outgoing_count : num;
  raw_incoming_seconds : num;
  raw_outgoing_seconds : num
}.

Record CallSummaryEntry : Type := mkEntry {
  date : string;
  incoming_count : num;
  outgoing_count : num;
  incoming_seconds : num;
  outgoing_seconds : num;
  total_count : num;
  total_seconds : num;
  total_minutes : num
}.

Definition finite_or_zero (x : num) : num := if isFinite x then x else zero.

(** [None] is the [null] the function returns for a falsy [d]; the
    conversions of the object literal throw before anything is summed. *)
Definition normalizeCallEntry (d : item)
  : Completion (option CallSummaryEntry) :=
  if negb (truthy d) then Return None
  else
    match StringOf (field d "date"),
          NumberOf (or_zero (field d "incoming_count")),
          NumberOf (or_zero (field d "outgoing_count")),
          NumberOf (or_zero (field d "incoming_seconds")),
          NumberOf (or_zero (field d "outgoing_seconds")) with
    | Some date, Some incoming_count, Some outgoing_count,
      Some incoming_seconds, Some outgoing_seconds =>
        let raw := {|
          raw_date := date;
          raw_incoming_count := incoming_count;
          raw_outgoing_count := outgoing_count;
          raw_incoming_seconds := incoming_seconds;
          raw_outgoing_seconds := outgoing_seconds
        |} in
        let total_count :=
          add (finite_or_zero (raw_incoming_count raw))
              (finite_or_zero (raw_outgoing_count raw)) in
        let total_seconds :=
          add (finite_or_zero (raw_incoming_seconds raw))
              (finite_or_zero (raw_outgoing_seconds raw)) in
        let total_minutes := Math_round (div total_seconds sixty) in
        Return (Some {|
          date := raw_date raw;
          incoming_count := raw_incoming_count raw;
          outgoing_count := raw_outgoing_count raw;
          incoming_seconds := raw_incoming_seconds raw;
          outgoing_seconds := raw_outgoing_seconds raw;
          total_count := total_count;
          total_seconds := total_seconds;
          total_minutes := total_minutes
        |})
    | _, _, _, _, _ => Throw TypeError
    end.

(** The predicate of the [filter] of [loadCallsSummary]. *)
Definition keep (d : option CallSummaryEntry) : bool :=
  match d with
  | None => false
  | Some e =>
      isFinite (total_seconds e) && isFinite (total_count e) &&
      day_pattern (date e)
  end.

Fixpoint somes {A} (l : list (option A)) : list A :=
  match l with
  | [] => []
  | Some a :: l' => a :: somes l'
  | None :: l' => somes l'
  end.

(** [json.map((d) => normalizeCallEntry(d))]: a call that throws ends the
    map and the load. *)
Fixpoint map_normalized (items : list item)
  : Completion (list (option CallSummaryEntry)) :=
  match items with
  | [] => Return []
  | d :: items' =>
      match normalizeCallEntry d with
      | Return r =>
          match map_normalized items' with
          | Return rs => Return (r :: rs)
          | Throw e => Throw e
          end
      | Throw e => Throw e
      end
  end.

Definition loadCallsSummary (response : Response)
  : Completion (list CallSummaryEntry) :=
  if negb (ok response) then
    Throw (Error ("Failed to load Calls summary: "
                  ++ string_of_Z (status response) ++ " "
                  ++ statusText response))
  else
    match json response with
    | JsonArray items =>
        match map_normalized items with
        | Return normalized => Return (somes (filter keep normalized))
        | Throw e => Throw e
        end
    | JsonRejected reason => Throw reason
    | _ => Throw (Error "Invalid Calls summary shape: expected an array")
    end.

Definition getYearFromISO (isoDate : string) : intnum :=
  getUTCFullYear (of_iso_day isoDate).

Definition groupYears (entries : list CallSummaryEntry) : list intnum :=
  let years :=
    fold_left (fun years e => JsSet.add (getYearFromISO (date e)) years)
              entries [] in
  JsArray.sort (fun a b => isign (isub a b)) years.

End CallsData.

(** ** [services/googlePhotosData.ts] *)

Module GooglePhotosData.

Record GooglePhotosSummaryEntry : Type := mkEntry {
  date : string;
  count : num
}.

Definition keep (d : GooglePhotosSummaryEntry) : bool :=
  isFinite (count d) && day_pattern (date d).

(** [json.map((d) => ({ date: String(d.date), count: Number(d.count) }))]:
    a [null] element makes the callback throw, and so does a date or a
    count that does not convert; [None] is the TypeError. *)
Fixpoint map_records (items : list item)
  : option (list GooglePhotosSummaryEntry) :=
  match items with
  | [] => Some []
  | d :: items' =>
      match prop d "date", prop d "count" with
      | Some dt, Some c =>
          match StringOf dt, NumberOf c with
          | Some date, Some count =>
              option_map (cons {| date := date; count := count |})
                         (map_records items')
          | _, _ => None
          end
      | _, _ => None
      end
  end.

(** [Object.entries(json).map(([date, count]) =>
      ({ date: String(date), count: Number(count) }))]; the keys are
    strings. *)
Fixpoint map_pairs (entries : list (string * jsval))
  : option (list GooglePhotosSummaryEntry) :=
  match entries with
  | [] => Some []
  | kv :: entries' =>
      match NumberOf (snd kv) with
      | Some count =>
          option_map (cons {| date := fst kv; count := count |})
                     (map_pairs entries')
      | None => None
      end
  end.

Definition loadPhotosSummary (response : Response)
  : Completion (list GooglePhotosSummaryEntry) :=
  if negb (ok response) then
    Throw (Error ("Failed to load Google Photos summary: "
                  ++ string_of_Z (status response) ++ " "
                  ++ statusText response))
  else
    match json response with
    | JsonArray items =>
        match map_records items with
        | Some records => Return (filter keep records)
        | None => Throw TypeError
        end
    | JsonObject entries =>
        match map_pairs entries with
        | Some records => Return (filter keep records)
        | None => Throw TypeError
        end
    | JsonOther =>
        Throw (Error "Invalid Google Photos summary shape: expected array or date-keyed object")
    | JsonRejected reason => Throw reason
    end.

End GooglePhotosData.

(** ** [types/trakt.ts] *)

Module Trakt.

Record GenreCount : Type := mkGenreCount {
  name : string;
  count : num
}.

(** [genres] and [subgenres] are read as [e.genres ?? []]: [None] is a
    missing list. *)
Record RuntimeSummaryEntry : Type := mkEntry {
  date : string;
  total_runtime : num;
  genres : option (list GenreCount);
  subgenres : option (list GenreCount)
}.

End Trakt.

(** ** [services/traktGenreAggregation.ts] *)

Module TraktGenreAggregation.

Import Trakt.

Record MonthlyGenres : Type := mkMonthly {
  year : intnum;
  month : intnum;                 (* 1-12 *)
  genres : list GenreCount        (* sorted desc by count *)
}.

Definition getYearFromISO (isoDate : string) : intnum :=
  getUTCFullYear (of_iso_day isoDate).

Definition key (y m : intnum) : string := to_string y ++ "-" ++ to_string m.

Definition or_empty (l : option (list GenreCount)) : list GenreCount :=
  match l with Some gs => gs | None => [] end.

(** The inner loop: [genreMap.set(g.name, prev + (finite count or 0))]. *)
Definition add_counts (genreMap : JsMap.t num) (gs : list GenreCount)
  : JsMap.t num :=
  fold_left
    (fun gm g =>
       let prev := match JsMap.get (name g) gm with
                   | Some v => v
                   | None => zero
                   end in
       JsMap.set (name g)
                 (add prev (if isFinite (count g) then count g else zero)) gm)
    gs genreMap.

(** The first loop of both aggregations; [field] selects [e.genres] or
    [e.subgenres].  The inner map is updated in place in the source, which
    leaves its key where it was first set. *)
Definition accumulate (field : RuntimeSummaryEntry -> option (list GenreCount))
           (entries : list RuntimeSummaryEntry) : JsMap.t (JsMap.t num) :=
  fold_left
    (fun map e =>
       let year := getYearFromISO (date e) in
       let month := iadd (getUTCMonth (of_iso_day (date e))) (Some 1) in
       let km := key year month in
       let map := if JsMap.has km map then map
                  else JsMap.set km JsMap.empty map in
       let genreMap := match JsMap.get km map with
                       | Some gm => gm
                       | None => JsMap.empty
                       end in
       JsMap.set km (add_counts genreMap (or_empty (field e))) map)
    entries JsMap.empty.

(** [Number(part)] for a destructured part of the key; an absent part is
    [undefined]. *)
Definition Number_of_part (part : option string) : intnum :=
  match part with Some s => Number_of_digits s | None => None end.

Definition by_count_desc (a b : GenreCount) : comparison :=
  sign (sub (count b) (count a)).

(** The body of the second loop; [cut] is what follows the sort (nothing,
    or the [slice]). *)
Definition materialize (cut : list GenreCount -> list GenreCount)
           (kv : string * JsMap.t num) : MonthlyGenres :=
  let parts := split "-" (fst kv) in
  let year := Number_of_part (nth_error parts 0) in
  let month := Number_of_part (nth_error parts 1) in
  let genres :=
    cut (JsArray.sort by_count_desc
           (map (fun nc => {| name := fst nc; count := snd nc |}) (snd kv))) in
  {| year := year; month := month; genres := genres |}.

(** [(a, b) => (a.year - b.year) || (a.month - b.month)]. *)
Definition by_year_month (a b : MonthlyGenres) : comparison :=
  isign (ior (isub (year a) (year b)) (isub (month a) (month b))).

Definition aggregateGenresByMonth (entries : list RuntimeSummaryEntry)
  : list MonthlyGenres :=
  JsArray.sort by_year_month
    (map (materialize (fun gs => gs)) (accumulate Trakt.genres entries)).

(** [limit] defaults to 5 when the caller passes none. *)
Definition aggregateSubgenresByMonth (entries : list RuntimeSummaryEntry)
           (limit : option Z) : list MonthlyGenres :=
  let limit := match limit with Some k => k | None => 5 end in
  JsArray.sort by_year_month
    (map (materialize (JsArray.slice0 (Z.max 0 limit)))
         (accumulate Trakt.subgenres entries)).

End TraktGenreAggregation.

(** ** [components/TraktHeatmaps.vue] *)

Module TraktHeatmaps.

Import Trakt TraktGenreAggregation.




End TraktHeatmaps.

(** ** The Google Photos frequency counter (console script) *)

Module FrequencyCounter.

(** What the script reads of an item and of a page, for the feed the
    script is written for, whose items carry numbers.  [None] in a field
    is a value that is no number ([null], absent); timestamps and offsets
    are integral numbers of milliseconds.  A timestamp given as text is
    outside this shape. *)
Record Item : Type := mkItem {
  timestamp : option Z;
  timezoneOffset : option Z
}.

Record Page : Type := mkPage {
  items : option (list (option Item));
  nextPageId : option string;
  lastItemTimestamp : option Z
}.

(** [Date.UTC(2020, 0, 1)]. *)
Definition startMs : Z := 1577836800000.

Definition day_key (local : Date) : string :=
  let yyyy := getUTCFullYear local in
  let mm := padStart2 (to_string (iadd (getUTCMonth local) (Some 1))) in
  let dd := padStart2 (to_string (getUTCDate local)) in
  to_string yyyy ++ "-" ++ mm ++ "-" ++ dd.

(** [item?.timestamp >= startMs]. *)
Definition qualifies (item : option Item) : option (Z * Item) :=
  match item with
  | Some it =>
      match timestamp it with
      | Some ts => if startMs <=? ts then Some (ts, it) else None
      | None => None
      end
  | None => None
  end.

Definition key_of (ts : Z) (it : Item) : string :=
  let tz := match timezoneOffset it with Some z => z | None => 0 end in
  day_key (of_ms (ts + tz)).

Record Tally : Type := mkTally {
  counts : JsMap.t Z;
  keptThisPage : Z;
  totalKept : Z
}.

(** The body of [for (const item of items)]. *)
Definition count_item (t : Tally) (item : option Item) : Tally :=
  match qualifies item with
  | Some (ts, it) =>
      let key := key_of ts it in
      let prev := match JsMap.get key (counts t) with
                  | Some n => if n =? 0 then 0 else n
                  | None => 0
                  end in
      {| counts := JsMap.set key (prev + 1) (counts t);
         keptThisPage := keptThisPage t + 1;
         totalKept := totalKept t + 1 |}
  | None => t
  end.

Record State : Type := mkState {
  tally : JsMap.t Z;                  (* counts *)
  cursor : option string;             (* nextPageId *)
  pageCount : Z;
  kept : Z;                           (* totalKept *)
  requested : list (option string)    (* the pageIds asked for, in order *)
}.

Definition init : State :=
  {| tally := JsMap.empty; cursor := None; pageCount := 0; kept := 0;
     requested := [] |}.

(** [typeof lastTs === 'number' && lastTs < startMs]. *)
Definition shouldStop (page : option Page) : bool :=
  match page with
  | Some p =>
      match lastItemTimestamp p with
      | Some lastTs => lastTs <? startMs
      | None => false
      end
  | None => false
  end.

(** The truthiness [while (nextPageId)] tests: [null] and the empty string
    are falsy. *)
Definition truthy_cursor (c : option string) : bool :=
  match c with
  | Some s => negb (String.eqb s EmptyString)
  | None => false
  end.

(** One pass through the body of the loop, up to the [break] test, for
    the page the request returned. *)
Definition after_page (st : State) (page : option Page) : State :=
  let its := match page with
             | Some p => match items p with Some l => l | None => [] end
             | None => []
             end in
  let t := fold_left count_item its
             {| counts := tally st; keptThisPage := 0; totalKept := kept st |} in
  {| tally := counts t;
     cursor := match page with Some p => nextPageId p | None => None end;
     pageCount := pageCount st + 1;
     kept := totalKept t;
     requested := (requested st ++ [cursor st])%list |}.

Inductive Outcome : Type :=
| FETCHING (st : State)        (* the next request is still to be made *)
| DONE_CUTOFF (st : State)     (* left by [break] *)
| DONE_EXHAUSTED (st : State). (* left by the [while] test *)

Section Loop.
(** [gptkApi.getItemsByTakenDate]: what the [n]-th request answers for a
    given page id. *)
Variable api : nat -> option string -> option Page.

(** The [do ... while] loop, run for at most [fuel] requests; [n]
    requests were made before. *)
Fixpoint loop (fuel : nat) (n : nat) (st : State) : Outcome :=
  match fuel with
  | O => FETCHING st
  | S fuel' =>
      let page := api n (cursor st) in
      let st' := after_page st page in
      if shouldStop page then DONE_CUTOFF st'
      else if truthy_cursor (cursor st') then loop fuel' (S n) st'
      else DONE_EXHAUSTED st'
  end.

Definition run (fuel : nat) : Outcome := loop fuel O init.
End Loop.

End FrequencyCounter.

(** ** More of the language: [Math.max], [Math.min], products, code units *)

Module JsMath.

Definition one : num := Eval vm_compute in of_Z 1.
Definition two : num := Eval vm_compute in of_Z 2.

(** [x * y] on numbers. *)
Definition mul (x y : num) : num := SFmul prec emax x y.

(** [x > y]. *)
Definition gtb (x y : num) : bool := SFltb y x.

(** [Math.max(x, y)]: NaN when either argument is; of two zeros the
    positive one; of two equal values the first. *)
Definition Math_max (x y : num) : num :=
  match x, y with
  | S754_nan, _ => NaN
  | _, S754_nan => NaN
  | S754_zero sx, S754_zero sy => S754_zero (sx && sy)
  | _, _ => if ltb x y then y else x
  end.

(** [Math.min(x, y)]: of two zeros the negative one. *)
Definition Math_min (x y : num) : num :=
  match x, y with
  | S754_nan, _ => NaN
  | _, S754_nan => NaN
  | S754_zero sx, S754_zero sy => S754_zero (sx || sy)
  | _, _ => if ltb y x then y else x
  end.

(** [Math.max(...xs)] and [Math.min(...xs)]; without arguments they are
    -Infinity and +Infinity. *)
Definition Math_max_of (xs : list num) : num :=
  fold_left Math_max xs (S754_infinity true).

Definition Math_min_of (xs : list num) : num :=
  fold_left Math_min xs (S754_infinity false).

(** [x >>> 0] for an integral [x]. *)
Definition uint32 (x : Z) : Z := x mod 2 ^ 32.

(** The UTF-16 code units [s.charCodeAt(i)] of a string whose characters
    lie below 256, where code unit and character code agree. *)
Definition code_units (s : string) : list Z :=
  map (fun c => Z.of_N (N_of_ascii c)) (list_ascii_of_string s).

End JsMath.

Import JsMath.

(** ** [services/traktGenreAggregation.ts]: [hashHue] and [computeFontSize] *)

Module TraktGenreDisplay.

(** [hashHue(input)], the input given by its code units.  [h * 31 + c]
    stays below 2^53, so the arithmetic of numbers is that of integers;
    [%] is the remainder that takes the sign of the dividend. *)
Definition hashHue (input : list Z) : Z :=
  let h := fold_left (fun h c => uint32 (h * 31 + c)) input 0 in
  Z.rem h 360.

(** [computeFontSize(count, min, max, minSize = 12, maxSize = 28)];
    [None] is an argument left out. *)
Definition computeFontSize (count min max : num) (minSize maxSize : option num)
  : num :=
  let minSize := match minSize with Some v => v | None => of_Z 12 end in
  let maxSize := match maxSize with Some v => v | None => of_Z 28 end in
  if leb max min then Math_round (div (add minSize maxSize) two)
  else
    let t := div (sub count min) (sub max min) in
    Math_round (add minSize (mul t (sub maxSize minSize))).

End TraktGenreDisplay.

(** ** [components/MonthlyWordcloud.vue] *)

Module MonthlyWordcloud.

Import Trakt TraktGenreDisplay.

Record Stats : Type := mkStats { min : num; max : num }.

(** The computed [stats] of the [genres] handed to the component. *)
Definition stats (genres : list GenreCount) : Stats :=
  let counts := map count genres in
  let min := match counts with [] => zero | _ => Math_min_of counts end in
  let max := match counts with [] => zero | _ => Math_max_of counts end in
  {| min := min; max := max |}.

Definition colorFor (name : string) : string :=
  let h := hashHue (code_units name) in
  "hsl(" ++ string_of_Z h ++ " 60% 50%)".

(** The number put before ['px'] in the style of the word of [g]. *)
Definition fontSize (genres : list GenreCount) (g : GenreCount) : num :=
  computeFontSize (count g) (min (stats genres)) (max (stats genres))
                  (Some (of_Z 8)) (Some (of_Z 24)).

End MonthlyWordcloud.

(** ** [services/traktRuntimeData.ts] *)

Module TraktRuntimeData.

Import Trakt.

Definition getYearFromISO (isoDate : string) : intnum :=
  getUTCFullYear (of_iso_day isoDate).

Definition groupYears (entries : list RuntimeSummaryEntry) : list intnum :=
  let years :=
    fold_left (fun years e => JsSet.add (getYearFromISO (date e)) years)
              entries [] in
  JsArray.sort (fun a b => isign (isub a b)) years.

Definition filterEntriesByYear (entries : list RuntimeSummaryEntry)
           (year : intnum) : list RuntimeSummaryEntry :=
  filter (fun e => strict_eqb (getYearFromISO (date e)) year) entries.

Definition getMaxRuntime (entries : list RuntimeSummaryEntry) : num :=
  fold_left
    (fun max e => if gtb (total_runtime e) max then total_runtime e else max)
    entries zero.

Definition keep (d : RuntimeSummaryEntry) : bool :=
  isFinite (total_runtime d) && day_pattern (date d).

Section Load.
(** What [Array.isArray(v)] answers and, for an array, its elements,
    which the loader hands on unread: [None] is a value that is no
    array. *)
Variable elements : jsval -> option (list GenreCount).

(** [Array.isArray(v) ? v : []]. *)
Definition array_or_empty (v : jsval) : list GenreCount :=
  match elements v with Some l => l | None => [] end.

Fixpoint map_records (items : list item) : option (list RuntimeSummaryEntry) :=
  match items with
  | [] => Some []
  | d :: items' =>
      match prop d "date", prop d "total_runtime", prop d "genres",
            prop d "subgenres" with
      | Some dt, Some r, Some g, Some s =>
          match StringOf dt, NumberOf r with
          | Some date, Some total_runtime =>
              option_map (cons {| date := date;
                                  total_runtime := total_runtime;
                                  genres := Some (array_or_empty g);
                                  subgenres := Some (array_or_empty s) |})
                         (map_records items')
          | _, _ => None
          end
      | _, _, _, _ => None
      end
  end.

End Load.

End TraktRuntimeData.

(** ** [services/ytmusicData.ts] *)

Module YTMusicData.

Record YTMusicSummaryEntry : Type := mkEntry {
  date : string;
  count : num
}.

Definition keep (d : YTMusicSummaryEntry) : bool :=
  isFinite (count d) && day_pattern (date d).

(** [json.map((d) => ({ date: String(d.date), count: Number(d.count) }))]:
    reading a property of a [null] element throws, and so does the
    conversion of a date or a count that does not convert. *)
Fixpoint map_records (items : list item) : option (list YTMusicSummaryEntry) :=
  match items with
  | [] => Some []
  | d :: items' =>
      match prop d "date", prop d "count" with
      | Some dt, Some c =>
          match StringOf dt, NumberOf c with
          | Some date, Some count =>
              option_map (cons {| date := date; count := count |})
                         (map_records items')
          | _, _ => None
          end
      | _, _ => None
      end
  end.

Definition loadSearchSummary (response : Response)
  : Completion (list YTMusicSummaryEntry) :=
  if negb (ok response) then
    Throw (Error ("Failed to load YTMusic summary: "
                  ++ string_of_Z (status response) ++ " "
                  ++ statusText response))
  else
    match json response with
    | JsonArray items =>
        match map_records items with
        | Some records => Return (filter keep records)
        | None => Throw TypeError
        end
    | JsonRejected reason => Throw reason
    | _ => Throw (Error "Invalid YTMusic summary shape: expected an array")
    end.

Definition getYearFromISO (isoDate : string) : intnum :=
  getUTCFullYear (of_iso_day isoDate).

Definition groupYears (entries : list YTMusicSummaryEntry) : list intnum :=
  let years :=
    fold_left (fun years e => JsSet.add (getYearFromISO (date e)) years)
              entries [] in
  JsArray.sort (fun a b => isign (isub a b)) years.

End YTMusicData.

(** ** [services/whatsappData.ts] *)

Module WhatsAppData.

Record WhatsAppSummaryEntry : Type := mkEntry {
  date : string;
  msgs_sent : num
}.

Definition keep (d : WhatsAppSummaryEntry) : bool :=
  isFinite (msgs_sent d) && day_pattern (date d).

(** [json.map((d) => ({ date: String(d.date),
                        msgs_sent: Number(d.msgs_sent ?? 0) }))]. *)
Fixpoint map_records (items : list item) : option (list WhatsAppSummaryEntry) :=
  match items with
  | [] => Some []
  | d :: items' =>
      match prop d "date", prop d "msgs_sent" with
      | Some dt, Some n =>
          match StringOf dt, NumberOf (or_zero n) with
          | Some date, Some msgs_sent =>
              option_map (cons {| date := date; msgs_sent := msgs_sent |})
                         (map_records items')
          | _, _ => None
          end
      | _, _ => None
      end
  end.


End WhatsAppData.

(** ** [types/health.ts] and [services/healthData.ts] *)

Module HealthData.

Record HealthSummaryEntry : Type := mkEntry {
  date : string;
  energy_burned_kcal : num;
  steps : num;
  walk_distance_meters : num
}.

Definition keep (d : HealthSummaryEntry) : bool :=
  isFinite (energy_burned_kcal d) && isFinite (steps d) &&
  isFinite (walk_distance_meters d) && day_pattern (date d).

Fixpoint map_records (items : list item) : option (list HealthSummaryEntry) :=
  match items with
  | [] => Some []
  | d :: items' =>
      match prop d "date", prop d "energy_burned_kcal", prop d "steps",
            prop d "walk_distance_meters" with
      | Some dt, Some k, Some s, Some w =>
          match StringOf dt, NumberOf k, NumberOf s, NumberOf w with
          | Some date, Some energy_burned_kcal, Some steps,
            Some walk_distance_meters =>
              option_map (cons {| date := date;
                                  energy_burned_kcal := energy_burned_kcal;
                                  steps := steps;
                                  walk_distance_meters := walk_distance_meters |})
                         (map_records items')
          | _, _, _, _ => None
          end
      | _, _, _, _ => None
      end
  end.


End HealthData.

(** ** [components/YearHeatmap.vue] *)

Module YearHeatmap.

Section Entries.
(** [DatedEntry]: an entry is read through [String(e.date)] and
    [e[field]] only.  The entries are those a loader has returned: their
    dates are strings and their values numbers, strings and lists, which
    convert. *)
Context {E : Type}.
Variable date_of : E -> string.
Variable value_of : E -> string -> jsval.

Definition yearEntries (entries : list E) (year : intnum) : list E :=
  filter
    (fun e => strict_eqb (getUTCFullYear (of_iso_day (date_of e))) year)
    entries.

(** [yField] defaults to ['total_runtime']. *)
Definition maxValue (entries : list E) (year : intnum)
           (yField : option string) : num :=
  let yField := match yField with Some f => f | None => "total_runtime" end in
  Math_max one
    (fold_left
       (fun max e =>
          let v := ToNumber (or_zero (value_of e yField)) in
          if gtb v max then v else max)
       (yearEntries entries year) zero).
End Entries.

End YearHeatmap.

(** ** The heat-map pages: [TraktHeatmaps.vue], [YouTubeHeatmaps.vue], the
       calls heat map and [loadSelected] of the home page *)

Module Heatmaps.

(** [years.value = groupYears(data).filter((y) => y >= 2019)]. *)
Definition years {E : Type} (groupYears : list E -> list intnum)
           (data : list E) : list intnum :=
  filter (fun y => igeb y (Some 2019)) (groupYears data).

End Heatmaps.

(** ** The subgenre page: the computed [years] beside [monthsForYear] *)

Module TraktGenres.

Import TraktGenreAggregation.

Definition years (monthly : list MonthlyGenres) : list intnum :=
  let set :=
    fold_left
      (fun set m =>
         if igeb (year m) (Some 2019) then JsSet.add (year m) set else set)
      monthly [] in
  JsArray.sort (fun a b => isign (isub a b)) set.

End TraktGenres.
(** * Vocabulary of the specification

    The notions the properties below are stated with: what a record of the
    call log must satisfy to be kept, the months entries are filed under,
    the order in which category names are first met, the pages a feed
    hands to the acquisition loop, and the sample inputs used to exercise
    the statements. *)

Module JsArraySpec.

(** [a] stands before [b] in [l]. *)
Definition precedes {A} (l : list A) (a b : A) : Prop :=
  exists l1 l2 l3, l = (l1 ++ a :: l2 ++ b :: l3)%list.

(** On the elements of [l] the comparator reads as the comparison of an
    integer key. *)
Definition keyed {A} (cmp : A -> A -> comparison) (key : A -> Z)
           (l : list A) : Prop :=
  forall a b, In a l -> In b l -> cmp a b = (key a ?= key b).

Definition le_key {A} (key : A -> Z) (a b : A) : Prop := key a <= key b.

End JsArraySpec.

Import JsArraySpec.

Module DateSpec.

(** [n] consecutive integers from [start]. *)
Fixpoint zrange (n : nat) (start : Z) : list Z :=
  match n with
  | O => []
  | S n' => start :: zrange n' (start + 1)
  end.

(** The month and day of the [doy]-th day of a year that starts on a
    1 March, held against the length the month has in a common year; the
    366th day is a 29 February. *)
Definition month_day_ok (doy : Z) : bool :=
  let mp := (5 * doy + 2) / 153 in
  let d := doy - (153 * mp + 2) / 5 + 1 in
  let m := if mp <? 10 then mp + 3 else mp - 9 in
  (0 <=? mp) && (mp <=? 11) && (1 <=? d) &&
  (if doy =? 365 then (m =? 2) && (d =? 29) else d <=? days_in_month 1 m).

Definition year_days : list Z := zrange (Z.to_nat 366) 0.

(** The text [y-mm-dd] of a civil date. *)
Definition ymd (f : fields) : string :=
  string_of_Z (f_year f) ++ "-" ++ padStart2 (string_of_Z (f_month f))
              ++ "-" ++ padStart2 (string_of_Z (f_day f)).

End DateSpec.

Import DateSpec.

Module CallsSpec.

Import CallsData.

(** [Number(d.name ?? 0)]. *)
Definition numeric (d : item) (name : string) : num :=
  ToNumber (or_zero (field d name)).

Definition required : list string :=
  ["incoming_count"; "outgoing_count"; "incoming_seconds"; "outgoing_seconds"].

(** Every required numeric field coerces to a finite number. *)
Definition required_finite (d : item) : bool :=
  forallb (fun name => isFinite (numeric d name)) required.

(** What decides that a record yields an entry: it is truthy, its date
    has the day pattern, and both totals, summed with every non-finite
    component taken as 0, are finite. *)
Definition accepted (d : item) : bool :=
  truthy d &&
  day_pattern (ToString (field d "date")) &&
  isFinite (add (finite_or_zero (numeric d "incoming_count"))
                (finite_or_zero (numeric d "outgoing_count"))) &&
  isFinite (add (finite_or_zero (numeric d "incoming_seconds"))
                (finite_or_zero (numeric d "outgoing_seconds"))).

(** The numeric fields of the record are binary64 values. *)
Definition binary64_record (d : item) : Prop :=
  forall name, In name required -> binary64 (numeric d name).

(** Every conversion [normalizeCallEntry] makes of the record returns:
    the record is falsy and nothing of it is read, or its date and, where
    [??] does not replace them, its four numeric fields convert. *)
Definition converts_record (d : item) : bool :=
  negb (truthy d) ||
  (converts (field d "date") &&
   forallb (fun name => converts (or_zero (field d name))) required).

(** The entry carries the date and the four numeric fields of the record,
    as [String] and [Number] convert them. *)
Definition carries (d : item) (e : CallSummaryEntry) : Prop :=
  date e = ToString (field d "date") /\
  incoming_count e = numeric d "incoming_count" /\
  outgoing_count e = numeric d "outgoing_count" /\
  incoming_seconds e = numeric d "incoming_seconds" /\
  outgoing_seconds e = numeric d "outgoing_seconds".

(** The totals of the entry are the sums of the converted components of
    the record, and the minutes the rounded sixtieth of the seconds. *)
Definition totals_of (d : item) (e : CallSummaryEntry) : Prop :=
  total_count e
  = add (numeric d "incoming_count") (numeric d "outgoing_count") /\
  total_seconds e
  = add (numeric d "incoming_seconds") (numeric d "outgoing_seconds") /\
  total_minutes e
  = Math_round (div (add (numeric d "incoming_seconds")
                         (numeric d "outgoing_seconds")) sixty).

Definition ok_response (doc : Json) : Response := mkResponse true 200 "OK" doc.

(** [{"date": "2020-01-01", "incoming_count": "n/a", "outgoing_count": 2,
      "incoming_seconds": 90}] *)
Definition nan_record : item :=
  ItemObject [("date", mkVal false "2020-01-01" NaN);
              ("incoming_count", mkVal false "n/a" NaN);
              ("outgoing_count", mkVal false "2" (of_Z 2));
              ("incoming_seconds", mkVal false "90" (of_Z 90))].

(** [{"date": "2021-07-04", "incoming_count": 3, "outgoing_count": 1,
      "incoming_seconds": 125, "outgoing_seconds": 40,
      "total_count": 99}] *)
Definition plain_record : item :=
  ItemObject [("date", mkVal false "2021-07-04" NaN);
              ("incoming_count", mkVal false "3" (of_Z 3));
              ("outgoing_count", mkVal false "1" (of_Z 1));
              ("incoming_seconds", mkVal false "125" (of_Z 125));
              ("outgoing_seconds", mkVal false "40" (of_Z 40));
              ("total_count", mkVal false "99" (of_Z 99))].

Definition plain_entry : CallSummaryEntry :=
  {| date := "2021-07-04";
     incoming_count := of_Z 3; outgoing_count := of_Z 1;
     incoming_seconds := of_Z 125; outgoing_seconds := of_Z 40;
     total_count := of_Z 4; total_seconds := of_Z 165;
     total_minutes := of_Z 3 |}.

Definition sample_items : list item := [nan_record; ItemNull; plain_record].

(** [{"date": {"toString": 0}, "incoming_count": 1}]: the date has no
    primitive value. *)
Definition opaque_record : item :=
  ItemObject [("date", unconvertible);
              ("incoming_count", mkVal false "1" (of_Z 1))].

Definition sample_entries : list CallSummaryEntry :=
  Eval vm_compute in
    match loadCallsSummary (ok_response (JsonArray sample_items)) with
    | Return l => l
    | Throw _ => []
    end.

Definition dated (iso : string) : CallSummaryEntry :=
  {| date := iso;
     incoming_count := zero; outgoing_count := zero;
     incoming_seconds := zero; outgoing_seconds := zero;
     total_count := zero; total_seconds := zero; total_minutes := zero |}.

(** What the claim on the filter says of a record [d] that is the only
    element of the document. *)
Definition kept_iff_all_finite (d : item) : Prop :=
  (exists e, loadCallsSummary (ok_response (JsonArray [d])) = Return [e])
  <-> (day_pattern (ToString (field d "date")) = true /\
       required_finite d = true).

(** Years in strictly ascending order, as numbers compare. *)
Definition ascending_years (l : list intnum) : Prop :=
  exists ys, l = map Some ys /\ StronglySorted Z.lt ys.

Definition year_key (a : intnum) : Z :=
  match a with Some x => x | None => 0 end.

(** Dates that all name a day: 2021 twice, 2020 in between. *)
Definition valid_dates : list CallSummaryEntry :=
  [dated "2021-03-01"; dated "2020-01-01"; dated "2021-01-05"].

(** Both dates pass the day pattern of the loader; the first names no
    day of the calendar. *)
Definition month13_dates : list CallSummaryEntry :=
  [dated "2020-13-01"; dated "2020-01-01"].

End CallsSpec.

Module AggregationSpec.

Import Trakt TraktGenreAggregation.

Definition entry_year (e : RuntimeSummaryEntry) : intnum :=
  getYearFromISO (date e).

Definition entry_month (e : RuntimeSummaryEntry) : intnum :=
  iadd (getUTCMonth (of_iso_day (date e))) (Some 1).

(** The key of the month an entry is filed under. *)
Definition month_key (e : RuntimeSummaryEntry) : string :=
  key (entry_year e) (entry_month e).

(** The entries filed under [km], in input order. *)
Definition contributors (entries : list RuntimeSummaryEntry) (km : string)
  : list RuntimeSummaryEntry :=
  filter (fun e => String.eqb (month_key e) km) entries.

Definition filed (entries : list RuntimeSummaryEntry) (km : string) : bool :=
  existsb (fun e => String.eqb (month_key e) km) entries.

Definition see (seen : list string) (n : string) : list string :=
  if existsb (String.eqb n) seen then seen else (seen ++ [n])%list.

(** The distinct names of a list, each where it first appears. *)
Definition first_seen (names : list string) : list string :=
  fold_left see names [].

Section Field.
Variable field : RuntimeSummaryEntry -> option (list GenreCount).

(** The names the accumulation meets for the month [km], in order. *)
Definition names_met (entries : list RuntimeSummaryEntry) (km : string)
  : list string :=
  flat_map (fun e => map name (or_empty (field e))) (contributors entries km).

(** The categories the entries of the month [km] list, one after the
    other; an entry without a list adds none. *)
Definition occurrences (entries : list RuntimeSummaryEntry) (km : string)
  : list GenreCount :=
  flat_map (fun e => match field e with Some gs => gs | None => [] end)
           (contributors entries km).

(** The counter of the month [km] once every entry is folded in. *)
Definition counter (entries : list RuntimeSummaryEntry) (km : string)
  : JsMap.t num :=
  fold_left (fun gm e => add_counts gm (or_empty (field e)))
            (contributors entries km) JsMap.empty.

Definition pairs (entries : list RuntimeSummaryEntry) (km : string)
  : list GenreCount :=
  map (fun nc => {| name := fst nc; count := snd nc |})
      (counter entries km).

(** The whole category list of a month, sorted, before any cut. *)
Definition ranked (entries : list RuntimeSummaryEntry) (km : string)
  : list GenreCount :=
  JsArray.sort by_count_desc (pairs entries km).

(** Every count of the entries is a binary64 value. *)
Definition binary64_counts (entries : list RuntimeSummaryEntry) : Prop :=
  forall e g, In e entries -> In g (or_empty (field e)) -> binary64 (count g).

(** The body of the first loop of the aggregations. *)
Definition step (map : JsMap.t (JsMap.t num)) (e : RuntimeSummaryEntry)
  : JsMap.t (JsMap.t num) :=
  let km := month_key e in
  let map := if JsMap.has km map then map
             else JsMap.set km JsMap.empty map in
  let genreMap := match JsMap.get km map with
                  | Some gm => gm
                  | None => JsMap.empty
                  end in
  JsMap.set km (add_counts genreMap (or_empty (field e))) map.
End Field.

(** What the counts listed under the name [n] add up to, one after the
    other from [start]; a count that is not finite adds 0. *)
Definition total_from (n : string) (start : num) (occ : list GenreCount)
  : num :=
  fold_left
    (fun acc g =>
       if String.eqb (name g) n
       then add acc (if isFinite (count g) then count g else zero)
       else acc)
    occ start.

Definition total_of (n : string) (occ : list GenreCount) : num :=
  total_from n zero occ.

Definition named (n : string) (g : GenreCount) : bool := String.eqb (name g) n.

(** [count(a) >= count(b)]. *)
Definition count_desc (a b : GenreCount) : Prop :=
  geb (count a) (count b) = true.

Definition key_desc (g : GenreCount) : Z := - ord (count g).

(** A running sum that is a binary64 value and not NaN. *)
Definition sound (c : num) : Prop := binary64 c /\ isNaN c = false.

Definition digit_string (s : string) : bool :=
  forallb is_digit (list_ascii_of_string s).

(** The decimal text of [y] is made of digits and reads back as [y]. *)
Definition prints_back (y : Z) : bool :=
  digit_string (string_of_Z y) &&
  same_value_zero (Number_of_digits (string_of_Z y)) (Some y).

Definition years_0_9999 : list Z := zrange (Z.to_nat 10000) 0.


Definition genre (n : string) (c : Z) : GenreCount := mkGenreCount n (of_Z c).

(** The scenario of the specification: two January days. *)
Definition january_entries : list RuntimeSummaryEntry :=
  [ Trakt.mkEntry "2020-01-01" (of_Z 30) (Some [genre "Drama" 2])
      (Some [genre "Crime" 2; genre "Noir" 1]);
    Trakt.mkEntry "2020-01-15" (of_Z 45)
      (Some [genre "Drama" 1; genre "Comedy" 3])
      (Some [genre "Satire" 3; genre "Crime" 1; genre "Farce" 3]) ].


Definition empty_bucket : MonthlyGenres :=
  {| year := None; month := None; genres := [] |}.

Definition january_bucket : MonthlyGenres :=
  Eval vm_compute in hd empty_bucket (aggregateGenresByMonth january_entries).

Definition january_top2 : MonthlyGenres :=
  Eval vm_compute in
    hd empty_bucket (aggregateSubgenresByMonth january_entries (Some 2)).

End AggregationSpec.

Module FrequencyCounterSpec.

Import FrequencyCounter.

Definition next_cursor (page : option Page) : option string :=
  match page with Some p => nextPageId p | None => None end.

Definition page_items (page : option Page) : list (option Item) :=
  match page with
  | Some p => match items p with Some l => l | None => [] end
  | None => []
  end.

Section Feed.
Variable api : nat -> option string -> option Page.

(** The page id of the [k]-th request and the page it returns, were the
    loop to get that far. *)
Fixpoint cursor_at (k : nat) : option string :=
  match k with
  | O => None
  | S k' => next_cursor (api k' (cursor_at k'))
  end.

Definition page_at (k : nat) : option Page := api k (cursor_at k).

Fixpoint state_after (k : nat) : State :=
  match k with
  | O => init
  | S k' => after_page (state_after k') (page_at k')
  end.

(** The loop is left after the [k]-th page. *)
Definition stops_at (k : nat) : bool :=
  shouldStop (page_at k) || negb (truthy_cursor (next_cursor (page_at k))).
End Feed.

(** (a): the hint of the page is a number below the cutoff. *)
Definition cutoff_seen (page : option Page) : Prop :=
  exists p lastTs,
    page = Some p /\ lastItemTimestamp p = Some lastTs /\ lastTs < startMs.

(** (b): no cursor came back: it is null or absent, or it is the empty
    string, which the [while] test takes for absent as well. *)
Definition cursor_absent (c : option string) : Prop :=
  c = None \/ c = Some EmptyString.

Definition count_of (key : string) (m : JsMap.t Z) : Z :=
  match JsMap.get key m with Some n => n | None => 0 end.

(** The item qualifies and its day key is [key]. *)
Definition has_key (key : string) (item : option Item) : bool :=
  match qualifies item with
  | Some (ts, it) => String.eqb (key_of ts it) key
  | None => false
  end.

Definition is_kept (item : option Item) : bool :=
  match qualifies item with Some _ => true | None => false end.

(** A feed of three pages in descending time; the second carries a hint
    below the cutoff although its first item still qualifies. *)
Definition sample_api (n : nat) (c : option string) : option Page :=
  match c with
  | None =>
      Some (mkPage
              (Some [Some (mkItem (Some 1741936841000) (Some 19800000));
                     Some (mkItem (Some 1741936841000) None);
                     None])
              (Some "p2") (Some 1600000000000))
  | Some "p2" =>
      Some (mkPage
              (Some [Some (mkItem (Some 1577836800000) (Some (-1)));
                     Some (mkItem (Some 1500000000000) None)])
              (Some "p3") (Some 1500000000000))
  | _ => Some (mkPage (Some []) None None)
  end.

Definition old_item : Item := mkItem (Some 1500000000000) (Some 19800000).

Definition empty_tally : Tally :=
  {| counts := JsMap.empty; keptThisPage := 0; totalKept := 0 |}.

End FrequencyCounterSpec.

Module PhotosSpec.

Import GooglePhotosData.

Definition is_null (d : item) : bool :=
  match d with ItemNull => true | _ => false end.

(** The element makes the callback of the [map] throw: it is [null], or
    its date or its count does not convert. *)
Definition unreadable (d : item) : bool :=
  is_null d || negb (converts (field d "date"))
  || negb (converts (field d "count")).

(** [{ date: String(d.date), count: Number(d.count) }] for a [d] that is
    not [null] and whose date and count convert. *)
Definition record_of (d : item) : GooglePhotosSummaryEntry :=
  {| date := ToString (field d "date"); count := ToNumber (field d "count") |}.

(** The entry of a pair of a date-keyed object whose value converts. *)
Definition record_of_entry (kv : string * jsval) : GooglePhotosSummaryEntry :=
  {| date := fst kv; count := ToNumber (snd kv) |}.

Definition transport_message (response : Response) : string :=
  "Failed to load Google Photos summary: "
    ++ string_of_Z (status response) ++ " " ++ statusText response.

Definition shape_message : string :=
  "Invalid Google Photos summary shape: expected array or date-keyed object".

(** The document [[null]], served with status 200. *)
Definition null_document : Response :=
  mkResponse true 200 "OK" (JsonArray [ItemNull]).

(** The date-keyed document [{"2021-06-01": 5, "2021-06-02": "bad"}]. *)
Definition keyed_document : Response :=
  mkResponse true 200 "OK"
    (JsonObject [("2021-06-01", mkVal false "5" (of_Z 5));
                 ("2021-06-02", mkVal false "bad" NaN)]).

End PhotosSpec.

(** * Vocabulary for the word cloud, the loaders and the heat maps *)

Module DisplaySpec.

Import TraktGenreDisplay.

(** Every code unit is one: an integer of 16 bits. *)
Definition code_unit_string (input : list Z) : Prop :=
  Forall (fun c => 0 <= c < 65536) input.

(** The value of [h] when the loop of [hashHue] has run over [input]. *)
Definition hash_after (input : list Z) : Z :=
  fold_left (fun h c => uint32 (h * 31 + c)) input 0.

(** The polynomial [c1 * 31^(n-1) + ... + cn] of the code units. *)
Fixpoint weighted (input : list Z) : Z :=
  match input with
  | [] => 0
  | c :: cs => c * 31 ^ Z.of_nat (List.length cs) + weighted cs
  end.

End DisplaySpec.
Module MaxSpec.

(** The reduction [(max, v) => (v > max ? v : max)] over values. *)
Definition running_max (xs : list num) (start : num) : num :=
  fold_left (fun max v => if gtb v max then v else max) xs start.

(** A value a number comparison can be read on: a binary64 value that is
    not NaN. *)
Definition comparable (x : num) : Prop := binary64 x /\ isNaN x = false.

End MaxSpec.
Module YearsSpec.

(** The entries dated in 2019 or later. *)
Definition since_2019 {E : Type} (year_of : E -> intnum) (data : list E)
  : list E :=
  filter (fun e => igeb (year_of e) (Some 2019)) data.

(** The entries whose date names a day. *)
Definition dated_entries {E : Type} (year_of : E -> intnum) (data : list E)
  : list E :=
  filter (fun e => match year_of e with Some _ => true | None => false end)
         data.

(** The [Set] of years [groupYears] has built when its loop ends. *)
Definition collected {E : Type} (year_of : E -> intnum) (data : list E)
  : list intnum :=
  fold_left (fun years e => JsSet.add (year_of e) years) data [].

End YearsSpec.
Module BucketSpec.

Import TraktGenreAggregation.

(** The month of [a] lies before the month of [b]. *)
Definition earlier_month (a b : MonthlyGenres) : Prop :=
  exists ya ma yb mb,
    year a = Some ya /\ month a = Some ma /\
    year b = Some yb /\ month b = Some mb /\
    (ya < yb \/ (ya = yb /\ ma < mb)).

(** Months counted from the year 0, for months from 1 to 12. *)
Definition month_rank (b : MonthlyGenres) : Z :=
  match year b, month b with
  | Some y, Some m => 13 * y + m
  | _, _ => 0
  end.

(** The bucket carries a year and a month from 1 to 12. *)
Definition calendar_month (b : MonthlyGenres) : Prop :=
  exists y m, year b = Some y /\ month b = Some m /\ 1 <= m <= 12.

End BucketSpec.
Module LoaderSpec.

(** [Failed to load <what>: <status> <statusText>]. *)
Definition transport_error (what : string) (response : Response) : Exception :=
  Error ("Failed to load " ++ what ++ ": "
         ++ string_of_Z (status response) ++ " " ++ statusText response).


Definition is_array (doc : Json) : bool :=
  match doc with JsonArray _ => true | _ => false end.

(** The body was JSON: [response.json()] resolved. *)
Definition parsed (doc : Json) : bool :=
  match doc with JsonRejected _ => false | _ => true end.







(** The element [{ "date": <key>, "count": <value> }] that says what the
    pair [key: value] of a date-keyed object says; [number_of key] is
    what [Number] makes of the key. *)
Definition record_of_pair (number_of : string -> num) (kv : string * jsval)
  : item :=
  ItemObject [("date", mkVal false (fst kv) (number_of (fst kv)));
              ("count", snd kv)].





End LoaderSpec.
Module TallySpec.

Import FrequencyCounter.




(** A four-digit year prints as four digits that read back as the year. *)
Definition four_digits (y : Z) : bool :=
  match list_ascii_of_string (string_of_Z y) with
  | [a; b; c; d] =>
      is_digit a && is_digit b && is_digit c && is_digit d &&
      (digits_value [a; b; c; d] =? y)
  | _ => false
  end.

(** A month or day number, padded, is two digits that read back as it. *)
Definition two_digits (n : Z) : bool :=
  match list_ascii_of_string (padStart2 (string_of_Z n)) with
  | [a; b] => is_digit a && is_digit b && (digits_value [a; b] =? n)
  | _ => false
  end.

Definition years_1000_9999 : list Z := zrange (Z.to_nat 9000) 1000.
Definition days_1_31 : list Z := zrange (Z.to_nat 31) 1.

(** 1000-01-01 and 10000-01-01, in milliseconds from the epoch. *)
Definition ms_year_1000 : Z := -30610224000000.
Definition ms_year_10000 : Z := 253402300800000.

End TallySpec.
(** Sample inputs for the statements on the word cloud, the heat maps and
    the loaders. *)

Module Samples.

Import Trakt AggregationSpec.

(** Two genres of different count, and two of the same. *)
Definition two_genres : list GenreCount := [genre "Drama" 2; genre "Comedy" 3].
Definition even_genres : list GenreCount := [genre "Drama" 2; genre "Crime" 2].

(** Entries as objects, as a loader returns them. *)
Definition object_entries : list (list (string * jsval)) :=
  [ [("date", mkVal false "2020-01-01" NaN); ("count", mkVal false "5" (of_Z 5))];
    [("date", mkVal false "2020-03-09" NaN); ("count", mkVal false "7" (of_Z 7))];
    [("date", mkVal false "2021-03-09" NaN); ("count", mkVal false "9" (of_Z 9))] ].

Definition object_date (e : list (string * jsval)) : string :=
  ToString (lookup "date" e).

Definition object_value (e : list (string * jsval)) (name : string) : jsval :=
  lookup name e.



(** 2025-03-14 in the afternoon, five and a half hours east of UTC. *)
Definition local_afternoon : Z := 1741936841000 + 19800000.

End Samples.
Module RoundingSpec.

(** Rounding to nearest, ties to even: whether the quotient [q] of a
    division by [2^k] that left the remainder [rem] is rounded up. *)
Definition round_up (rem k q : Z) : bool :=
  (2 ^ k <? 2 * rem) || ((2 * rem =? 2 ^ k) && Z.odd q).

(** The exponent, counted from the least subnormal, at which a magnitude
    [n] (in units of 2^-1074) is cut to 53 bits. *)
Definition cut (n : Z) : Z := Z.max (Zdigits2 n - 53) 0.

(** The magnitudes at and beyond which a rounded result is infinite. *)
Definition overflow_rank : Z := 2 ^ 2098.

(** The binary64 value nearest to a magnitude [n], in units of 2^-1074;
    [infinity_rank] stands for Infinity. *)
Definition nearest (n : Z) : Z :=
  let k := cut n in
  let q := n / 2 ^ k in
  let r := (q + (if round_up (n mod 2 ^ k) k q then 1 else 0)) * 2 ^ k in
  if r <? overflow_rank then r else infinity_rank.

(** The same for a signed value. *)
Definition nearest_signed (n : Z) : Z :=
  if n <? 0 then - nearest (- n) else nearest n.

(** The difference of the two sizes, at both uses of [computeFontSize]:
    24 - 8 and 28 - 12. *)
Definition sixteen : num := S754_finite false 4503599627370496 (-48).

End RoundingSpec.
(** * Facts about binary64 arithmetic *)

Module JsNumberFacts.

Lemma digits2_size p : digits2_pos p = Pos.size p.
Proof. induction p; simpl; congruence. Qed.

Lemma digits2_bounds p :
  2 ^ (Zpos (digits2_pos p) - 1) <= Zpos p < 2 ^ Zpos (digits2_pos p).
Proof.
  rewrite digits2_size. split.
  - pose proof (Pos.size_le p) as H.
    assert (H' : 2 ^ Zpos (Pos.size p) <= 2 * Zpos p).
    { change (2 * Zpos p) with (Zpos p~0). rewrite <- Pos2Z.inj_pow. apply Pos2Z.pos_le_pos. exact H. }
    replace (Zpos (Pos.size p)) with (Z.succ (Zpos (Pos.size p) - 1)) in H' by lia.
    rewrite Z.pow_succ_r in H' by lia. lia.
  - pose proof (Pos.size_gt p) as H.
    rewrite <- Pos2Z.inj_pow. apply Pos2Z.pos_lt_pos. exact H.
Qed.

Lemma Zdigits2_nonneg m : 0 <= Zdigits2 m.
Proof. destruct m; simpl; lia. Qed.

Lemma Zdigits2_bounds m :
  0 < m -> 2 ^ (Zdigits2 m - 1) <= m < 2 ^ Zdigits2 m.
Proof. destruct m; try lia. intros _. apply digits2_bounds. Qed.

Lemma Zdigits2_unique m d :
  2 ^ (d - 1) <= m < 2 ^ d -> 0 < m -> Zdigits2 m = d.
Proof.
  intros [Hl Hu] Hm.
  pose proof (Zdigits2_bounds m Hm) as [Hl' Hu'].
  pose proof (Zdigits2_nonneg m) as Hn.
  assert (Hd : 0 <= d).
  { destruct (Z.lt_ge_cases d 0) as [Hneg|]; [|assumption].
    rewrite Z.pow_neg_r in Hu by assumption. lia. }
  destruct (Z.lt_trichotomy (Zdigits2 m) d) as [Hlt|[Heq|Hgt]]; [|assumption|].
  - assert (2 ^ Zdigits2 m <= 2 ^ (d - 1)) by (apply Z.pow_le_mono_r; lia). lia.
  - assert (2 ^ d <= 2 ^ (Zdigits2 m - 1)) by (apply Z.pow_le_mono_r; lia). lia.
Qed.

Lemma shr_1_m mrs : 0 <= shr_m mrs -> shr_m (shr_1 mrs) = shr_m mrs / 2.
Proof.
  destruct mrs as [m r s]; simpl. intros Hm.
  destruct m as [|p|p]; try lia; [reflexivity|].
  destruct p; simpl.
  - rewrite Pos2Z.inj_xI. apply Z.div_unique with (r := 1); lia.
  - rewrite Pos2Z.inj_xO. apply Z.div_unique with (r := 0); lia.
  - reflexivity.
Qed.

Lemma shr_m_iter p : forall mrs,
  0 <= shr_m mrs -> shr_m (iter_pos shr_1 p mrs) = shr_m mrs / 2 ^ Zpos p.
Proof.
  induction p as [p IH|p IH|]; intros mrs Hm; simpl iter_pos.
  - assert (H1 : 0 <= shr_m (shr_1 mrs)) by (rewrite shr_1_m by assumption; apply Z.div_pos; lia).
    assert (H2 : 0 <= shr_m (iter_pos shr_1 p (shr_1 mrs))) by (rewrite IH by assumption; apply Z.div_pos; lia).
    rewrite IH, IH, shr_1_m by assumption.
    rewrite !Z.div_div by lia. f_equal.
    replace (Z.pos p~1) with (Z.pos p + Z.pos p + 1) by lia.
    rewrite !Z.pow_add_r by lia. change (2 ^ 1) with 2. ring.
  - assert (H2 : 0 <= shr_m (iter_pos shr_1 p mrs)) by (rewrite IH by assumption; apply Z.div_pos; lia).
    rewrite IH, IH by assumption.
    rewrite !Z.div_div by lia. f_equal.
    replace (Z.pos p~0) with (Z.pos p + Z.pos p) by lia.
    rewrite !Z.pow_add_r by lia. ring.
  - rewrite shr_1_m by assumption. reflexivity.
Qed.

Lemma shr_spec mrs e n :
  0 <= shr_m mrs ->
  snd (shr mrs e n) = e + Z.max 0 n /\
  shr_m (fst (shr mrs e n)) = shr_m mrs / 2 ^ Z.max 0 n /\
  (n <= 0 -> fst (shr mrs e n) = mrs).
Proof.
  intros Hm. destruct n as [|p|p]; simpl.
  - rewrite Z.div_1_r. repeat split; lia.
  - rewrite shr_m_iter by assumption. repeat split; lia.
  - rewrite Z.div_1_r. repeat split; lia.
Qed.

Lemma round_nearest_even_cases m l :
  round_nearest_even m l = m \/ round_nearest_even m l = m + 1.
Proof.
  destruct l as [|[]]; simpl; auto. destruct (Z.even m); auto.
Qed.

Lemma shr_record_of_loc_m m l : shr_m (shr_record_of_loc m l) = m.
Proof. destruct l as [|[]]; reflexivity. Qed.

Lemma fexp_eq x : fexp prec emax x = Z.max (x - 53) (-1074).
Proof. reflexivity. Qed.

Lemma Zdigits2_le m d : 0 <= d -> 0 <= m < 2 ^ d -> Zdigits2 m <= d.
Proof.
  intros Hd [Hm0 Hm]. destruct (Z.lt_trichotomy m 0) as [H|[H|H]].
  - lia.
  - subst. simpl. lia.
  - pose proof (Zdigits2_bounds m H) as [Hl _].
    destruct (Z.le_gt_cases (Zdigits2 m) d) as [|Hgt]; [assumption|].
    assert (2 ^ d <= 2 ^ (Zdigits2 m - 1)) by (apply Z.pow_le_mono_r; lia). lia.
Qed.

Lemma shr_fexp_spec m e l :
  0 <= m ->
  let e' := Z.max e (fexp prec emax (Zdigits2 m + e)) in
  snd (shr_fexp prec emax m e l) = e' /\
  shr_m (fst (shr_fexp prec emax m e l)) = m / 2 ^ (e' - e) /\
  (fexp prec emax (Zdigits2 m + e) <= e ->
   fst (shr_fexp prec emax m e l) = shr_record_of_loc m l).
Proof.
  intros Hm e'. unfold shr_fexp.
  assert (H0 : 0 <= shr_m (shr_record_of_loc m l)) by (rewrite shr_record_of_loc_m; assumption).
  destruct (shr_spec (shr_record_of_loc m l) e (fexp prec emax (Zdigits2 m + e) - e) H0)
    as (H1 & H2 & H3).
  rewrite shr_record_of_loc_m in H2.
  repeat split.
  - rewrite H1. unfold e'. lia.
  - rewrite H2. f_equal. f_equal. unfold e'. lia.
  - intros Hle. apply H3. lia.
Qed.

Lemma bounded_intro m e :
  fexp prec emax (Zpos (digits2_pos m) + e) = e -> e <= 971 ->
  bounded prec emax m e = true.
Proof.
  intros Hc He. unfold bounded, canonical_mantissa.
  rewrite Hc, Z.eqb_refl. simpl. apply Z.leb_le. exact He.
Qed.

Lemma pow2_split a b : 0 <= a -> 0 <= b -> 2 ^ (a + b) = 2 ^ a * 2 ^ b.
Proof. intros. apply Z.pow_add_r; assumption. Qed.

Lemma binary_round_aux_spec s m e l :
  0 <= m -> e <= fexp prec emax (Zdigits2 m + e) ->
  match binary_round_aux prec emax s m e l with
  | S754_zero s' => s' = s /\ (m = 0 \/ e < -1074)
  | S754_finite s' m' e' => s' = s /\ bounded prec emax m' e' = true
  | S754_infinity s' => s' = s /\ 1024 <= Zdigits2 m + e
  | S754_nan => False
  end.
Proof.
  intros Hm HP. unfold binary_round_aux.
  pose proof (shr_fexp_spec m e l Hm) as (A1 & A2 & _).
  destruct (shr_fexp prec emax m e l) as [mrs1 e1]. simpl in A1, A2.
  rewrite <- A1 in A2.
  set (m1 := shr_m mrs1) in *.
  set (m1r := round_nearest_even m1 (loc_of_shr_record mrs1)).
  assert (Hr : m1r = m1 \/ m1r = m1 + 1) by apply round_nearest_even_cases.
  assert (He1 : e1 = fexp prec emax (Zdigits2 m + e)) by lia.
  assert (Hk : 0 <= e1 - e) by lia.
  assert (Hm1 : 0 <= m1) by (rewrite A2; apply Z.div_pos; [assumption | apply Z.pow_pos_nonneg; lia]).
  assert (Hm1r : 0 <= m1r) by lia.
  pose proof (shr_fexp_spec m1r e1 loc_Exact Hm1r) as (B1 & B2 & B3).
  destruct (shr_fexp prec emax m1r e1 loc_Exact) as [mrs2 e2]. simpl in B1, B2, B3.
  rewrite <- B1 in B2.
  rewrite fexp_eq in *.
  pose proof (Zdigits2_nonneg m) as Hd.
  destruct (Z.le_gt_cases (-1074) (Zdigits2 m + e - 53)) as [Hnorm|Hsub].
  - (* normal range *)
    assert (Hmpos : 0 < m).
    { destruct (Z.eq_dec m 0) as [->|]; [simpl in *; lia | lia]. }
    pose proof (Zdigits2_bounds m Hmpos) as [Hl Hu].
    assert (He1' : e1 = Zdigits2 m + e - 53) by lia.
    assert (Hkk : e1 - e = Zdigits2 m - 53) by lia.
    assert (Hp : 0 < 2 ^ (e1 - e)) by (apply Z.pow_pos_nonneg; lia).
    assert (Hlow : 2 ^ 52 <= m1).
    { rewrite A2. apply Z.div_le_lower_bound; [assumption|].
      rewrite Z.mul_comm, <- pow2_split by lia.
      replace (52 + (e1 - e)) with (Zdigits2 m - 1) by lia. assumption. }
    assert (Hup : m1 < 2 ^ 53).
    { rewrite A2. apply Z.div_lt_upper_bound; [assumption|].
      rewrite Z.mul_comm, <- pow2_split by lia.
      replace (53 + (e1 - e)) with (Zdigits2 m) by lia. assumption. }
    destruct (Z.eq_dec m1r (2 ^ 53)) as [Hcarry|Hnc].
    + assert (Hdr : Zdigits2 m1r = 54).
      { apply Zdigits2_unique; [|lia]. rewrite Hcarry. change (54 - 1) with 53.
        split; [lia|]. apply Z.pow_lt_mono_r; lia. }
      rewrite Hdr in *.
      assert (He2 : e2 = e1 + 1) by lia.
      assert (Hm2 : shr_m mrs2 = 2 ^ 52).
      { rewrite B2, He2, Hcarry. replace (e1 + 1 - e1) with 1 by lia. reflexivity. }
      rewrite Hm2. change (2 ^ 52) with (Zpos (2 ^ 52)).
      destruct (Z.leb_spec e2 (emax - prec)) as [Hle|Hgt].
      * split; [reflexivity|]. apply bounded_intro; [|unfold emax, prec in Hle; lia].
        change (Zpos (digits2_pos (2 ^ 52))) with 53. rewrite fexp_eq. lia.
      * split; [reflexivity|]. unfold emax, prec in Hgt. lia.
    + assert (Hdr : Zdigits2 m1r = 53).
      { apply Zdigits2_unique; [|lia]. change (53 - 1) with 52. lia. }
      rewrite Hdr in *.
      assert (He2 : e2 = e1) by lia.
      assert (Hm2 : shr_m mrs2 = m1r).
      { rewrite B3 by lia. reflexivity. }
      rewrite Hm2. destruct m1r as [|p|p] eqn:Ep; try lia.
      destruct (Z.leb_spec e2 (emax - prec)) as [Hle|Hgt].
      * split; [reflexivity|]. apply bounded_intro; [|unfold emax, prec in Hle; lia].
        simpl in Hdr. rewrite Hdr, fexp_eq. lia.
      * split; [reflexivity|]. unfold emax, prec in Hgt. lia.
  - (* subnormal range *)
    assert (He1' : e1 = -1074) by lia.
    assert (Hp : 0 < 2 ^ (e1 - e)) by (apply Z.pow_pos_nonneg; lia).
    assert (Hup : m1 < 2 ^ 52).
    { rewrite A2. apply Z.div_lt_upper_bound; [assumption|].
      rewrite Z.mul_comm, <- pow2_split by lia.
      destruct (Z.eq_dec m 0) as [->|Hne].
      - apply Z.pow_pos_nonneg; lia.
      - pose proof (Zdigits2_bounds m ltac:(lia)) as [_ Hu].
        eapply Z.lt_le_trans; [exact Hu|]. apply Z.pow_le_mono_r; lia. }
    assert (Hdr : Zdigits2 m1r <= 53).
    { apply Zdigits2_le; [lia|]. split; [lia|].
      assert (2 ^ 52 < 2 ^ 53) by (apply Z.pow_lt_mono_r; lia). lia. }
    pose proof (Zdigits2_nonneg m1r) as Hdr0.
    assert (He2 : e2 = e1) by lia.
    assert (Hm2 : shr_m mrs2 = m1r).
    { rewrite B3 by lia. reflexivity. }
    rewrite Hm2. destruct m1r as [|p|p] eqn:Ep; try lia.
    + split; [reflexivity|].
      destruct (Z.eq_dec m 0) as [|Hne]; [left; assumption|right].
      destruct (Z.lt_ge_cases e (-1074)) as [|Hge]; [assumption|exfalso].
      assert (e1 - e = 0) by lia.
      assert (m1 = m) by (rewrite A2; replace (e1 - e) with 0 by lia; apply Z.div_1_r).
      lia.
    + destruct (Z.leb_spec e2 (emax - prec)) as [Hle|Hgt].
      * split; [reflexivity|]. apply bounded_intro; [|unfold emax, prec in Hle; lia].
        simpl in Hdr, Hdr0. rewrite fexp_eq. lia.
      * unfold emax, prec in Hgt. lia.
Qed.

Lemma iter_xO_pow d : forall m, Zpos (Pos.iter xO m d) = Zpos m * 2 ^ Zpos d.
Proof.
  induction d as [|d IH] using Pos.peano_ind; intros m.
  - simpl. lia.
  - rewrite Pos.iter_succ, Pos2Z.inj_xO, IH, Pos2Z.inj_succ, Z.pow_succ_r by lia. ring.
Qed.

Lemma shl_align_spec mx ex ex' :
  snd (shl_align mx ex ex') = Z.min ex ex' /\
  Zpos (fst (shl_align mx ex ex')) = Zpos mx * 2 ^ (ex - Z.min ex ex').
Proof.
  unfold shl_align. destruct (ex' - ex) as [|d|d] eqn:E; simpl.
  - replace (ex - Z.min ex ex') with 0 by lia. rewrite Z.pow_0_r. split; lia.
  - replace (ex - Z.min ex ex') with 0 by lia. rewrite Z.pow_0_r. split; lia.
  - rewrite iter_xO_pow. replace (ex - Z.min ex ex') with (Zpos d) by lia.
    split; [lia | reflexivity].
Qed.

Lemma digits2_shift m k :
  0 <= k -> Zdigits2 (Zpos m * 2 ^ k) = Zpos (digits2_pos m) + k.
Proof.
  intros Hk. pose proof (digits2_bounds m) as [Hl Hu].
  assert (Hp : 0 < 2 ^ k) by (apply Z.pow_pos_nonneg; lia).
  apply Zdigits2_unique; [|nia].
  replace (Zpos (digits2_pos m) + k - 1) with (Zpos (digits2_pos m) - 1 + k) by lia.
  rewrite !pow2_split by lia. split; nia.
Qed.

Lemma binary_round_spec s mx ex :
  match binary_round prec emax s mx ex with
  | S754_zero s' => s' = s /\ ex < -1074
  | S754_finite s' m' e' => s' = s /\ bounded prec emax m' e' = true
  | S754_infinity s' => s' = s /\ 1024 <= Zpos (digits2_pos mx) + ex
  | S754_nan => False
  end.
Proof.
  unfold binary_round.
  pose proof (shl_align_spec mx ex (fexp prec emax (Zpos (digits2_pos mx) + ex))) as [A1 A2].
  destruct (shl_align mx ex _) as [mz ez]. cbn [fst snd] in A1, A2.
  assert (Hd : Zdigits2 (Zpos mz) + ez = Zpos (digits2_pos mx) + ex).
  { rewrite A2, digits2_shift by lia. lia. }
  assert (HP : ez <= fexp prec emax (Zdigits2 (Zpos mz) + ez)) by (rewrite Hd; lia).
  pose proof (binary_round_aux_spec s (Zpos mz) ez loc_Exact ltac:(lia) HP) as H.
  destruct (binary_round_aux prec emax s (Zpos mz) ez loc_Exact); try assumption.
  - destruct H as [Hs [Hz|Hz]]; [lia|]. split; [assumption|].
    rewrite fexp_eq in A1. lia.
  - rewrite Hd in H. assumption.
Qed.

Lemma binary_normalize_spec m e :
  match binary_normalize prec emax m e false with
  | S754_zero _ => m = 0 \/ e < -1074
  | S754_finite s' m' e' => m <> 0 /\ s' = (m <? 0) /\ bounded prec emax m' e' = true
  | S754_infinity s' => m <> 0 /\ s' = (m <? 0) /\ 1024 <= Zdigits2 m + e
  | S754_nan => False
  end.
Proof.
  destruct m as [|p|p]; simpl.
  - auto.
  - pose proof (binary_round_spec false p e) as H.
    destruct (binary_round prec emax false p e); intuition; discriminate.
  - pose proof (binary_round_spec true p e) as H.
    destruct (binary_round prec emax true p e); intuition; discriminate.
Qed.

Lemma bounded_facts m e :
  bounded prec emax m e = true ->
  -1074 <= e <= 971 /\ Zpos m < 2 ^ 53 /\ (-1074 < e -> 2 ^ 52 <= Zpos m).
Proof.
  unfold bounded, canonical_mantissa. intros H.
  apply andb_true_iff in H as [Hc He].
  apply Z.eqb_eq in Hc. apply Z.leb_le in He. unfold emax, prec in He.
  rewrite fexp_eq in Hc.
  pose proof (digits2_bounds m) as [Hl Hu].
  assert (Hd : Zpos (digits2_pos m) <= 53) by lia.
  repeat split; try lia.
  - eapply Z.lt_le_trans; [exact Hu|]. apply Z.pow_le_mono_r; lia.
  - intros Hn. assert (Zpos (digits2_pos m) = 53) as Hd' by lia.
    rewrite Hd' in Hl. exact Hl.
Qed.

Lemma ord_finite_bound m e :
  bounded prec emax m e = true ->
  0 < Zpos m * 2 ^ (e + 1074) < infinity_rank.
Proof.
  intros H. destruct (bounded_facts m e H) as (He & Hm & _).
  assert (Hp : 0 < 2 ^ (e + 1074)) by (apply Z.pow_pos_nonneg; lia).
  split; [nia|].
  assert (Hq : 2 ^ (e + 1074) <= 2 ^ 2045) by (apply Z.pow_le_mono_r; lia).
  assert (Hr : 2 ^ 53 * 2 ^ 2045 <= infinity_rank).
  { unfold infinity_rank. rewrite <- Z.pow_add_r by lia.
    apply Z.pow_le_mono_r; lia. }
  assert (H1 : Zpos m * 2 ^ (e + 1074) <= Zpos m * 2 ^ 2045)
    by (apply Z.mul_le_mono_nonneg_l; [lia | exact Hq]).
  assert (H2 : Zpos m * 2 ^ 2045 < 2 ^ 53 * 2 ^ 2045)
    by (apply Z.mul_lt_mono_pos_r; [apply Z.pow_pos_nonneg; lia | exact Hm]).
  exact (Z.le_lt_trans _ _ _ H1 (Z.lt_le_trans _ _ _ H2 Hr)).
Qed.

Lemma add_binary64 x y : binary64 x -> binary64 y -> binary64 (add x y).
Proof.
  unfold binary64, add. intros Hx Hy.
  destruct x as [sx|sx| |sx mx ex], y as [sy|sy| |sy my ey];
    unfold SFadd; cbv beta iota zeta;
    try reflexivity; try assumption;
    try (destruct sx, sy; reflexivity || assumption).
  all: match goal with
       | |- context [binary_normalize prec emax ?m ?e false] =>
           pose proof (binary_normalize_spec m e) as H;
           destruct (binary_normalize prec emax m e false); simpl; intuition
       end.
Qed.

Lemma add_not_nan x y :
  isNaN x = false -> isFinite y = true -> isNaN (add x y) = false.
Proof.
  unfold add. intros Hx Hy.
  destruct x as [sx|sx| |sx mx ex], y as [sy|sy| |sy my ey];
    try discriminate; unfold SFadd; cbv beta iota zeta;
    try reflexivity; try (destruct sx, sy; reflexivity).
  all: match goal with
       | |- context [binary_normalize prec emax ?m ?e false] =>
           pose proof (binary_normalize_spec m e) as H;
           destruct (binary_normalize prec emax m e false); simpl; intuition
       end.
Qed.

Lemma sign_sub a b :
  binary64 a -> binary64 b -> isNaN a = false -> isNaN b = false ->
  sign (sub b a) = (ord b ?= ord a).
Proof.
  unfold binary64, sub. intros Ha Hb Na Nb.
  assert (H2100 : 0 < infinity_rank) by (apply Z.pow_pos_nonneg; lia).
  destruct b as [sx|sx| |sx mx ex], a as [sy|sy| |sy my ey];
    try discriminate; unfold SFsub; cbv beta iota zeta.
  1-8: try pose proof (ord_finite_bound _ _ Ha) as Ba;
       try pose proof (ord_finite_bound _ _ Hb) as Bb;
       destruct sx, sy; cbn [sign ord cond_Zopp negb]; symmetry;
       first [ apply Z.compare_eq_iff; lia
             | apply Z.compare_lt_iff; lia
             | apply Z.compare_gt_iff; lia ].
  - (* both finite: the sign of the rounded difference is the sign of the
       exact difference *)
    cbn [valid_binary] in Ha, Hb.
    destruct (bounded_facts _ _ Ha) as (Hey & _ & _).
    destruct (bounded_facts _ _ Hb) as (Hex & _ & _).
    set (ez := Z.min ex ey).
    destruct (shl_align_spec mx ex ez) as [_ Ax].
    destruct (shl_align_spec my ey ez) as [_ Ay].
    replace (Z.min ex ez) with ez in Ax by (unfold ez; lia).
    replace (Z.min ey ez) with ez in Ay by (unfold ez; lia).
    set (mx' := fst (shl_align mx ex ez)) in *.
    set (my' := fst (shl_align my ey ez)) in *.
    set (D := cond_Zopp sx (Zpos mx') - cond_Zopp sy (Zpos my')).
    assert (HD : ord (S754_finite sx mx ex) - ord (S754_finite sy my ey)
                 = D * 2 ^ (ez + 1074)).
    { unfold D, ord. rewrite Ax, Ay.
      replace (ex + 1074) with ((ex - ez) + (ez + 1074)) by lia.
      replace (ey + 1074) with ((ey - ez) + (ez + 1074)) by lia.
      rewrite (pow2_split (ex - ez)), (pow2_split (ey - ez)) by (unfold ez; lia).
      destruct sx, sy; cbn [cond_Zopp]; ring. }
    assert (Hp : 0 < 2 ^ (ez + 1074)) by (apply Z.pow_pos_nonneg; unfold ez; lia).
    pose proof (binary_normalize_spec D ez) as Hn.
    change (binary_normalize prec emax D ez false) with
      (binary_normalize prec emax D ez false) in *.
    fold D.
    destruct (binary_normalize prec emax D ez false) as [s'|s'| |s' m' e'];
      cbn [sign].
    + destruct Hn as [Hn|Hn]; [|unfold ez in Hn; lia].
      symmetry. apply Z.compare_eq_iff. nia.
    + destruct Hn as (Hne & -> & _).
      destruct (Z.ltb_spec D 0); symmetry;
        [apply Z.compare_lt_iff | apply Z.compare_gt_iff]; nia.
    + contradiction.
    + destruct Hn as (Hne & -> & _).
      destruct (Z.ltb_spec D 0); symmetry;
        [apply Z.compare_lt_iff | apply Z.compare_gt_iff]; nia.
Qed.

Lemma canonical_lt m1 e1 m2 e2 :
  bounded prec emax m1 e1 = true -> bounded prec emax m2 e2 = true ->
  e1 < e2 ->
  Zpos m1 * 2 ^ (e1 + 1074) < Zpos m2 * 2 ^ (e2 + 1074).
Proof.
  intros H1 H2 Hlt.
  destruct (bounded_facts _ _ H1) as (He1 & Hm1 & _).
  destruct (bounded_facts _ _ H2) as (He2 & _ & Hm2).
  specialize (Hm2 ltac:(lia)).
  assert (Hp : 0 < 2 ^ (e1 + 1074)) by (apply Z.pow_pos_nonneg; lia).
  assert (Hq : 2 * 2 ^ (e1 + 1074) <= 2 ^ (e2 + 1074)).
  { rewrite <- Z.pow_succ_r by lia. apply Z.pow_le_mono_r; lia. }
  change (2 ^ 53) with (2 * 2 ^ 52) in Hm1.
  assert (0 < 2 ^ 52) by (apply Z.pow_pos_nonneg; lia).
  nia.
Qed.

Lemma magnitude_compare m1 e1 m2 e2 :
  bounded prec emax m1 e1 = true -> bounded prec emax m2 e2 = true ->
  match e1 ?= e2 with
  | Lt => Lt
  | Gt => Gt
  | Eq => Pos.compare_cont Eq m1 m2
  end = (Zpos m1 * 2 ^ (e1 + 1074) ?= Zpos m2 * 2 ^ (e2 + 1074)).
Proof.
  intros H1 H2. destruct (Z.compare_spec e1 e2) as [->|Hlt|Hgt].
  - destruct (bounded_facts _ _ H2) as (He2 & _ & _).
    assert (Hp : 0 < 2 ^ (e2 + 1074)) by (apply Z.pow_pos_nonneg; lia).
    change (Pos.compare_cont Eq m1 m2) with (Zpos m1 ?= Zpos m2).
    destruct (Z.compare_spec (Zpos m1) (Zpos m2)) as [E|L|G]; symmetry.
    + apply Z.compare_eq_iff. rewrite E. reflexivity.
    + apply Z.compare_lt_iff. nia.
    + apply Z.compare_gt_iff. nia.
  - symmetry. apply Z.compare_lt_iff. apply canonical_lt; assumption.
  - symmetry. apply Z.compare_gt_iff. apply canonical_lt; assumption.
Qed.

Lemma SFcompare_ord a b :
  binary64 a -> binary64 b -> isNaN a = false -> isNaN b = false ->
  SFcompare a b = Some (ord a ?= ord b).
Proof.
  unfold binary64. intros Ha Hb Na Nb.
  assert (H2100 : 0 < infinity_rank) by (apply Z.pow_pos_nonneg; lia).
  destruct a as [sx|sx| |sx mx ex], b as [sy|sy| |sy my ey];
    try discriminate.
  1-8: try pose proof (ord_finite_bound _ _ Ha) as Ba;
       try pose proof (ord_finite_bound _ _ Hb) as Bb;
       try destruct sx; try destruct sy; cbn [SFcompare ord cond_Zopp]; f_equal; symmetry;
       first [ apply Z.compare_eq_iff; lia
             | apply Z.compare_lt_iff; lia
             | apply Z.compare_gt_iff; lia ].
  cbn [valid_binary] in Ha, Hb.
  pose proof (ord_finite_bound _ _ Ha) as Ba.
  pose proof (ord_finite_bound _ _ Hb) as Bb.
  pose proof (magnitude_compare mx ex my ey Ha Hb) as Hc.
  destruct sx, sy; cbn [SFcompare ord cond_Zopp]; f_equal.
  - rewrite Z.compare_opp.
    rewrite (Z.compare_antisym (Zpos mx * 2 ^ (ex + 1074)) (Zpos my * 2 ^ (ey + 1074))).
    rewrite <- Hc. destruct (ex ?= ey); reflexivity.
  - symmetry. apply Z.compare_lt_iff. lia.
  - symmetry. apply Z.compare_gt_iff. lia.
  - exact Hc.
Qed.

Lemma sixty_eq : sixty = S754_finite false 8444249301319680 (-47).
Proof. reflexivity. Qed.

Lemma div_sixty_spec sx mx ex :
  bounded prec emax mx ex = true ->
  match div (S754_finite sx mx ex) sixty with
  | S754_zero _ => True
  | S754_finite _ m e => bounded prec emax m e = true
  | _ => False
  end.
Proof.
  intros Hb. destruct (bounded_facts _ _ Hb) as (Hex & Hmx & _).
  unfold div, sixty, SFdiv, SFdiv_core_binary.
  set (m2 := 8444249301319680%positive).
  change (Zdigits2 (Zpos m2)) with 53.
  set (d1 := Zdigits2 (Zpos mx)).
  set (e' := Z.min (fexp prec emax (d1 + ex - (53 + -47))) (ex - -47)).
  set (s := ex - -47 - e').
  pose proof (Zdigits2_bounds (Zpos mx) ltac:(lia)) as [Hl Hu]. fold d1 in Hl, Hu.
  assert (Hd1 : 1 <= d1 <= 53).
  { unfold d1. simpl. split; [lia|].
    change (Zpos (digits2_pos mx)) with (Zdigits2 (Zpos mx)).
    apply Zdigits2_le; lia. }
  assert (Hs : 0 <= s) by (unfold s, e'; lia).
  assert (He' : e' <= 1018) by (unfold e'; lia).
  set (m' := match s with Z.pos _ => Z.shiftl (Zpos mx) s | 0 => Zpos mx | Z.neg _ => 0 end).
  assert (Hm' : m' = Zpos mx * 2 ^ s).
  { unfold m'. destruct s as [|p|p] eqn:Es; [rewrite Z.pow_0_r; lia| |lia].
    apply Z.shiftl_mul_pow2. lia. }
  assert (Hps : 0 < 2 ^ s) by (apply Z.pow_pos_nonneg; lia).
  assert (Hm2 : 2 ^ 52 <= Zpos m2 < 2 ^ 53) by (unfold m2; split; reflexivity || discriminate).
  pose proof (Z.div_eucl_eq m' (Zpos m2) ltac:(lia)) as Hdiv.
  pose proof (Z.mod_pos_bound m' (Zpos m2) ltac:(lia)) as Hmod.
  unfold Z.modulo in Hmod.
  destruct (Z.div_eucl m' (Zpos m2)) as [q r].
  assert (Hq0 : 0 <= q) by nia.
  (* when the quotient is computed above the subnormal range it carries
     at least 53 bits *)
  assert (Hbig : -1074 < e' -> 2 ^ 52 <= q).
  { intros Hn.
    assert (Hs' : 106 - d1 <= s) by (unfold s, e' in *; rewrite fexp_eq in *; lia).
    assert (H105 : 2 ^ 105 <= m').
    { rewrite Hm'.
      assert (2 ^ (106 - d1) <= 2 ^ s) by (apply Z.pow_le_mono_r; lia).
      assert (E : 2 ^ 105 = 2 ^ (d1 - 1) * 2 ^ (106 - d1)).
      { rewrite <- Z.pow_add_r by lia. f_equal. lia. }
      assert (0 <= 2 ^ (d1 - 1)) by (apply Z.pow_nonneg; lia).
      assert (0 <= 2 ^ (106 - d1)) by (apply Z.pow_nonneg; lia).
      rewrite E. apply Z.mul_le_mono_nonneg; lia. }
    assert (E105 : 2 ^ 105 = 2 ^ 53 * 2 ^ 52) by reflexivity.
    destruct (Z.le_gt_cases (2 ^ 52) q) as [|Hlt]; [assumption|exfalso].
    assert (0 < 2 ^ 52) by reflexivity.
    nia. }
  assert (HP : e' <= fexp prec emax (Zdigits2 q + e')).
  { rewrite fexp_eq. destruct (Z.le_gt_cases e' (-1074)) as [|Hn]; [lia|].
    specialize (Hbig Hn).
    assert (53 <= Zdigits2 q).
    { destruct (Z.le_gt_cases 53 (Zdigits2 q)) as [|Hlt]; [assumption|exfalso].
      pose proof (Zdigits2_bounds q ltac:(lia)) as [_ Hqu].
      assert (2 ^ Zdigits2 q <= 2 ^ 52) by (apply Z.pow_le_mono_r; [lia|lia]).
      lia. }
    lia. }
  pose proof (binary_round_aux_spec (xorb sx false) q e' (new_location (Zpos m2) r) Hq0 HP) as Hspec.
  destruct (binary_round_aux prec emax (xorb sx false) q e' (new_location (Zpos m2) r));
    try exact I; try tauto.
  exfalso. destruct Hspec as [_ Hov].
  destruct (Z.eq_dec q 0) as [Hq|Hq]; [subst q; simpl in Hov; lia|].
  assert (H52 : 0 < 2 ^ 52) by reflexivity.
  assert (Hm'u : m' < 2 ^ (d1 + s)).
  { rewrite Hm', pow2_split by lia. nia. }
  assert (Hds : 52 < d1 + s).
  { destruct (Z.lt_ge_cases 52 (d1 + s)) as [|Hle]; [assumption|exfalso].
    assert (2 ^ (d1 + s) <= 2 ^ 52) by (apply Z.pow_le_mono_r; lia). nia. }
  assert (Hdq : Zdigits2 q <= d1 + s - 52).
  { apply Zdigits2_le; [lia|]. split; [assumption|].
    replace (d1 + s) with ((d1 + s - 52) + 52) in Hm'u by lia.
    rewrite pow2_split in Hm'u by lia. nia. }
  unfold s in Hdq. lia.
Qed.

Lemma Zdigits2_abs n : Zdigits2 (Z.abs n) = Zdigits2 n.
Proof. destruct n; reflexivity. Qed.

Lemma of_Z_finite n : Z.abs n < 2 ^ 1023 -> isFinite (of_Z n) = true.
Proof.
  intros Hn. unfold of_Z.
  pose proof (binary_normalize_spec n 0) as H.
  destruct (binary_normalize prec emax n 0 false); try reflexivity; try contradiction.
  exfalso. destruct H as (_ & _ & H).
  rewrite <- Zdigits2_abs in H.
  assert (Zdigits2 (Z.abs n) <= 1023) by (apply Zdigits2_le; lia).
  lia.
Qed.

Lemma Math_round_finite x :
  binary64 x -> isFinite x = true -> isFinite (Math_round x) = true.
Proof.
  unfold binary64. intros Hv Hf.
  destruct x as [s|s| |s m e]; try discriminate; try reflexivity.
  cbn [valid_binary] in Hv.
  destruct (bounded_facts _ _ Hv) as (He & Hm & _).
  unfold Math_round.
  destruct (Z.leb_spec 0 e) as [|Hneg]; [reflexivity|].
  set (k := 2 ^ (- e)). set (h := 2 ^ (- e - 1)).
  assert (Hk : k = 2 * h).
  { unfold k, h. rewrite <- Z.pow_succ_r by lia. f_equal. lia. }
  assert (Hh : 0 < h) by (apply Z.pow_pos_nonneg; lia).
  set (v := cond_Zopp s (Zpos m)).
  assert (Hv' : - Zpos m <= v <= Zpos m) by (unfold v; destruct s; simpl; lia).
  cbv zeta.
  pose proof (Z.div_mod (v + h) k ltac:(lia)) as Hdiv.
  pose proof (Z.mod_pos_bound (v + h) k ltac:(lia)) as Hmod.
  set (n := (v + h) / k) in *.
  destruct (Z.eqb_spec n 0) as [|Hn0]; [reflexivity|].
  apply of_Z_finite.
  assert (Habs : Z.abs n <= Zpos m) by nia.
  assert (2 ^ 53 < 2 ^ 1023) by (apply Z.pow_lt_mono_r; lia).
  lia.
Qed.

Lemma div_sixty_round_finite x :
  binary64 x -> isFinite x = true ->
  isFinite (Math_round (div x sixty)) = true.
Proof.
  intros Hv Hf. apply Math_round_finite.
  - destruct x as [s|s| |s m e]; try discriminate; [reflexivity|].
    pose proof (div_sixty_spec s m e Hv) as H. unfold binary64.
    destruct (div (S754_finite s m e) sixty); try contradiction; [reflexivity|exact H].
  - destruct x as [s|s| |s m e]; try discriminate; [reflexivity|].
    pose proof (div_sixty_spec s m e Hv) as H.
    destruct (div (S754_finite s m e) sixty); try contradiction; reflexivity.
Qed.

End JsNumberFacts.

Import JsNumberFacts.

(** * Facts about sorting, sets and maps *)

Module JsArrayFacts.
Import JsArray.

Section SortFacts.
Context {A : Type}.
Variable cmp : A -> A -> comparison.

Lemma insert_perm x l : Permutation (insert cmp x l) (x :: l).
Proof.
  induction l as [|y l IH]; simpl; [reflexivity|].
  destruct (cmp x y); try reflexivity.
  rewrite IH. apply perm_swap.
Qed.

Lemma sort_perm l : Permutation (sort cmp l) l.
Proof.
  induction l as [|x l IH]; simpl; [reflexivity|].
  rewrite insert_perm. constructor. exact IH.
Qed.

Lemma sort_In a l : In a (sort cmp l) <-> In a l.
Proof.
  split; apply Permutation_in; [|symmetry]; apply sort_perm.
Qed.

Lemma sort_length l : List.length (sort cmp l) = List.length l.
Proof. apply Permutation_length, sort_perm. Qed.

Variable key : A -> Z.

Lemma insert_sorted x l :
  (forall y, In y l -> cmp x y = (key x ?= key y)) ->
  StronglySorted (le_key key) l -> StronglySorted (le_key key) (insert cmp x l).
Proof.
  intros Hx Hs. induction Hs as [|y l Hs IH Hy]; simpl.
  - repeat constructor.
  - assert (Hxy := Hx y (or_introl eq_refl)).
    assert (Hx' : forall z, In z l -> cmp x z = (key x ?= key z))
      by (intros z Hz; apply Hx; right; exact Hz).
    destruct (cmp x y) eqn:E; symmetry in Hxy.
    + apply -> Z.compare_eq_iff in Hxy.
      constructor; [constructor; assumption|].
      constructor; [unfold le_key; lia|].
      eapply Forall_impl; [|exact Hy]. unfold le_key. intros ? ?; lia.
    + apply -> Z.compare_lt_iff in Hxy.
      constructor; [constructor; assumption|].
      constructor; [unfold le_key; lia|].
      eapply Forall_impl; [|exact Hy]. unfold le_key. intros ? ?; lia.
    + apply -> Z.compare_gt_iff in Hxy.
      constructor; [apply IH; exact Hx'|].
      apply Forall_forall. intros z Hz.
      apply (Permutation_in _ (insert_perm x l)) in Hz.
      destruct Hz as [<-|Hz]; [unfold le_key; lia|].
      rewrite Forall_forall in Hy. apply Hy. exact Hz.
Qed.

Lemma keyed_cons x l : keyed cmp key (x :: l) -> keyed cmp key l.
Proof. intros H a b Ha Hb. apply H; right; assumption. Qed.

Lemma sort_sorted l : keyed cmp key l -> StronglySorted (le_key key) (sort cmp l).
Proof.
  induction l as [|x l IH]; intros Hk; simpl; [constructor|].
  apply insert_sorted.
  - intros y Hy. apply Hk; [left; reflexivity|right; apply sort_In; exact Hy].
  - apply IH. eapply keyed_cons; exact Hk.
Qed.

Lemma insert_filter k x l :
  (forall y, In y l -> cmp x y = (key x ?= key y)) ->
  filter (fun a => key a =? k) (insert cmp x l)
  = filter (fun a => key a =? k) (x :: l).
Proof.
  intros Hx. induction l as [|y l IH]; [reflexivity|].
  assert (Hxy := Hx y (or_introl eq_refl)).
  assert (Hx' : forall z, In z l -> cmp x z = (key x ?= key z))
    by (intros z Hz; apply Hx; right; exact Hz).
  specialize (IH Hx'). cbn [insert].
  destruct (cmp x y) eqn:E; try reflexivity.
  symmetry in Hxy. apply -> Z.compare_gt_iff in Hxy.
  cbn [filter] in *. rewrite IH.
  destruct (Z.eqb_spec (key x) k), (Z.eqb_spec (key y) k); try reflexivity. lia.
Qed.

(** Stability: elements of equal key keep their order. *)
Lemma sort_stable k l :
  keyed cmp key l ->
  filter (fun a => key a =? k) (sort cmp l) = filter (fun a => key a =? k) l.
Proof.
  induction l as [|x l IH]; intros Hk; [reflexivity|].
  cbn [sort]. rewrite insert_filter.
  - cbn [filter]. rewrite IH by (eapply keyed_cons; exact Hk). reflexivity.
  - intros y Hy. apply Hk; [left; reflexivity|right; apply sort_In; exact Hy].
Qed.
End SortFacts.

Lemma precedes_filter_inv {A} (p : A -> bool) l a b :
  precedes (filter p l) a b -> precedes l a b.
Proof.
  revert a b. induction l as [|x l IH]; intros a b (l1 & l2 & l3 & E).
  - destruct l1; discriminate.
  - cbn [filter] in E. destruct (p x).
    + destruct l1 as [|c l1]; cbn in E; injection E as <- E.
      * (* [a] is the head: [b] is somewhere in the rest *)
        assert (Hb : In b (filter p l)) by (rewrite E; apply in_or_app; right; left; reflexivity).
        apply filter_In in Hb as [Hb _]. apply in_split in Hb as (r1 & r2 & ->).
        exists [], r1, r2. reflexivity.
      * destruct (IH a b) as (r1 & r2 & r3 & ->); [exists l1, l2, l3; exact E|].
        exists (x :: r1), r2, r3. reflexivity.
    + destruct (IH a b) as (r1 & r2 & r3 & ->); [exists l1, l2, l3; exact E|].
      exists (x :: r1), r2, r3. reflexivity.
Qed.

Lemma precedes_filter {A} (p : A -> bool) l a b :
  p a = true -> p b = true -> precedes l a b -> precedes (filter p l) a b.
Proof.
  intros Ha Hb (l1 & l2 & l3 & ->).
  exists (filter p l1), (filter p l2), (filter p l3).
  rewrite filter_app. cbn [filter]. rewrite Ha, filter_app. cbn [filter].
  rewrite Hb. reflexivity.
Qed.

Lemma precedes_map {A B} (f : A -> B) l a b :
  precedes l a b -> precedes (map f l) (f a) (f b).
Proof.
  intros (l1 & l2 & l3 & ->). exists (map f l1), (map f l2), (map f l3).
  rewrite map_app. cbn [map]. rewrite map_app. reflexivity.
Qed.

Lemma sort_precedes {A} (cmp : A -> A -> comparison) (key : A -> Z) l a b :
  keyed cmp key l -> key a = key b ->
  precedes (sort cmp l) a b -> precedes l a b.
Proof.
  intros Hk Hab Hp.
  apply (precedes_filter_inv (fun c => key c =? key a)).
  rewrite <- (sort_stable cmp key (key a) l Hk).
  apply precedes_filter; [apply Z.eqb_refl | apply Z.eqb_eq; symmetry; exact Hab | exact Hp].
Qed.

Lemma sorted_suffix {A} (R : A -> A -> Prop) l1 l2 :
  StronglySorted R (l1 ++ l2) -> StronglySorted R l2.
Proof.
  induction l1 as [|x l1 IH]; cbn; [trivial|].
  intros H. inversion H; subst. apply IH. assumption.
Qed.

Lemma sorted_precedes {A} (R : A -> A -> Prop) l a b :
  StronglySorted R l -> precedes l a b -> R a b.
Proof.
  intros Hs (l1 & l2 & l3 & ->).
  apply sorted_suffix in Hs.
  inversion Hs as [|? ? _ Hall]; subst.
  rewrite Forall_forall in Hall. apply Hall.
  apply in_or_app. right. left. reflexivity.
Qed.

End JsArrayFacts.

Import JsArrayFacts.

Module JsSetFacts.

Lemma same_value_zero_eq a b : same_value_zero a b = true <-> a = b.
Proof.
  destruct a as [x|], b as [y|]; cbn; split; intros H;
    try discriminate; try reflexivity.
  - apply Z.eqb_eq in H. congruence.
  - injection H as ->. apply Z.eqb_refl.
Qed.

Lemma has_In x s : JsSet.has x s = true <-> In x s.
Proof.
  unfold JsSet.has. rewrite existsb_exists. split.
  - intros (y & Hy & E). apply same_value_zero_eq in E. subst. exact Hy.
  - intros H. exists x. split; [exact H|]. apply same_value_zero_eq. reflexivity.
Qed.

Lemma add_In y x s : In y (JsSet.add x s) <-> y = x \/ In y s.
Proof.
  unfold JsSet.add. destruct (JsSet.has x s) eqn:E.
  - apply has_In in E. split; [auto|]. intros [->|H]; assumption.
  - rewrite in_app_iff. cbn. intuition.
Qed.

Lemma add_NoDup x s : NoDup s -> NoDup (JsSet.add x s).
Proof.
  intros H. unfold JsSet.add. destruct (JsSet.has x s) eqn:E; [exact H|].
  apply NoDup_app; [exact H | repeat constructor; intros [] | ].
  intros a Ha [<-|[]]. apply has_In in Ha. congruence.
Qed.

Lemma fold_add {E} (f : E -> intnum) entries : forall s,
  NoDup s ->
  let r := fold_left (fun years e => JsSet.add (f e) years) entries s in
  NoDup r /\ forall y, In y r <-> In y s \/ exists e, In e entries /\ f e = y.
Proof.
  induction entries as [|e entries IH]; intros s Hs; cbn.
  - split; [exact Hs|]. intros y. split; [auto|]. intros [H|(e & [] & _)]. exact H.
  - destruct (IH (JsSet.add (f e) s) (add_NoDup _ _ Hs)) as [Hn Hi].
    split; [exact Hn|]. intros y. rewrite Hi, add_In. split.
    + intros [[->|H]|(e' & He' & <-)]; eauto.
    + intros [H|(e' & [<-|He'] & <-)]; eauto.
Qed.

End JsSetFacts.

Module JsMapFacts.

Lemma get_set_same {V} k (v : V) m : JsMap.get k (JsMap.set k v m) = Some v.
Proof.
  induction m as [|[k' v'] m IH]; cbn.
  - rewrite String.eqb_refl. reflexivity.
  - destruct (String.eqb_spec k k') as [->|Hne]; cbn.
    + rewrite String.eqb_refl. reflexivity.
    + destruct (String.eqb_spec k k'); [contradiction|exact IH].
Qed.

Lemma get_set_other {V} k k' (v : V) m :
  k <> k' -> JsMap.get k (JsMap.set k' v m) = JsMap.get k m.
Proof.
  intros Hne. induction m as [|[k'' v''] m IH]; cbn.
  - destruct (String.eqb_spec k k'); [contradiction|reflexivity].
  - destruct (String.eqb_spec k' k'') as [->|Hne']; cbn.
    + destruct (String.eqb_spec k k''); [contradiction|reflexivity].
    + destruct (String.eqb_spec k k''); [reflexivity|exact IH].
Qed.

Lemma has_keys {V} k (m : JsMap.t V) :
  JsMap.has k m = existsb (String.eqb k) (JsMap.keys m).
Proof.
  unfold JsMap.has, JsMap.keys. induction m as [|[k' v'] m IH]; cbn; [reflexivity|].
  destruct (String.eqb k k'); [reflexivity|exact IH].
Qed.

Lemma keys_set {V} k (v : V) m :
  JsMap.keys (JsMap.set k v m)
  = if JsMap.has k m then JsMap.keys m else (JsMap.keys m ++ [k])%list.
Proof.
  unfold JsMap.has, JsMap.keys. induction m as [|[k' v'] m IH]; cbn; [reflexivity|].
  destruct (String.eqb k k') eqn:E; cbn; [reflexivity|].
  rewrite IH. destruct (JsMap.get k m); reflexivity.
Qed.

Lemma get_In {V} k (v : V) m : JsMap.get k m = Some v -> In (k, v) m.
Proof.
  induction m as [|[k' v'] m IH]; cbn; [discriminate|].
  destruct (String.eqb_spec k k') as [->|].
  - intros H. injection H as ->. left. reflexivity.
  - intros H. right. apply IH. exact H.
Qed.

Lemma In_get {V} k (v : V) m :
  NoDup (JsMap.keys m) -> In (k, v) m -> JsMap.get k m = Some v.
Proof.
  induction m as [|[k' v'] m IH]; cbn; [contradiction|].
  intros Hn [H|H].
  - injection H as -> ->. rewrite String.eqb_refl. reflexivity.
  - inversion Hn as [|? ? Hk Hn']; subst.
    destruct (String.eqb_spec k k') as [->|].
    + exfalso. apply Hk. change k' with (fst (k', v)). apply in_map. exact H.
    + apply IH; assumption.
Qed.

Lemma In_set {V} k (v : V) k' v' m :
  In (k, v) (JsMap.set k' v' m) -> (k = k' /\ v = v') \/ In (k, v) m.
Proof.
  induction m as [|[k'' v''] m IH]; cbn.
  - intros [H|[]]. injection H as -> ->. auto.
  - destruct (String.eqb_spec k' k'') as [->|]; cbn.
    + intros [H|H]; [injection H as -> ->; auto|auto].
    + intros [H|H]; [auto|]. destruct (IH H); auto.
Qed.

Lemma has_In_keys {V} k (m : JsMap.t V) :
  JsMap.has k m = true <-> In k (JsMap.keys m).
Proof.
  rewrite has_keys, existsb_exists. split.
  - intros (x & Hx & E). apply String.eqb_eq in E. subst. exact Hx.
  - intros H. exists k. split; [exact H|apply String.eqb_refl].
Qed.

Lemma NoDup_keys_set {V} k (v : V) m :
  NoDup (JsMap.keys m) -> NoDup (JsMap.keys (JsMap.set k v m)).
Proof.
  intros Hn. rewrite keys_set. destruct (JsMap.has k m) eqn:E; [exact Hn|].
  apply NoDup_app; [exact Hn | repeat constructor; intros [] |].
  intros a Ha [<-|[]]. apply has_In_keys in Ha. congruence.
Qed.

End JsMapFacts.

Import JsMapFacts.

Module JsIntFacts.





Lemma strict_eqb_eq a y : strict_eqb a (Some y) = true <-> a = Some y.
Proof.
  destruct a as [x|]; cbn; [|split; discriminate].
  rewrite Z.eqb_eq. split; congruence.
Qed.

End JsIntFacts.

(** * The calendar *)

Module DateFacts.

Lemma zrange_In n : forall start z,
  start <= z < start + Z.of_nat n -> In z (zrange n start).
Proof.
  induction n as [|n IH]; intros start z H; [lia|].
  cbn [zrange]. destruct (Z.eq_dec z start) as [->|]; [left; reflexivity|].
  right. apply IH. lia.
Qed.

Lemma year_table : forallb month_day_ok year_days = true.
Proof. vm_cast_no_check (eq_refl true). Qed.

Lemma month_day doy : 0 <= doy <= 365 -> month_day_ok doy = true.
Proof.
  intros H. pose proof year_table as T. rewrite forallb_forall in T. apply T.
  unfold year_days. apply zrange_In. lia.
Qed.

(** The year of the era a day of the era falls in, and the bounds of that
    year. *)
Lemma year_of_era doe :
  0 <= doe <= 146096 ->
  let yoe := (doe - doe / 1460 + doe / 36524 - doe / 146096) / 365 in
  0 <= yoe <= 399 /\
  365 * yoe + yoe / 4 - yoe / 100 <= doe /\
  (doe < 365 * (yoe + 1) + (yoe + 1) / 4 - (yoe + 1) / 100 \/ yoe = 399).
Proof. intros H yoe. subst yoe. Z.div_mod_to_equations. lia. Qed.

Lemma is_leap_era y era : is_leap (y + era * 400) = is_leap y.
Proof.
  unfold is_leap.
  replace (y + era * 400) with (y + (era * 100) * 4) at 1 by ring.
  replace (y + era * 400) with (y + (era * 4) * 100) at 1 by ring.
  rewrite !Z.mod_add by lia. reflexivity.
Qed.

Lemma days_in_month_era y era m :
  days_in_month (y + era * 400) m = days_in_month y m.
Proof. unfold days_in_month. rewrite is_leap_era. reflexivity. Qed.

Lemma is_leap_true y :
  (y mod 4 = 0 /\ y mod 100 <> 0) \/ y mod 400 = 0 -> is_leap y = true.
Proof.
  unfold is_leap. intros [[H4 H100]|H400].
  - apply Z.eqb_eq in H4. apply Z.eqb_neq in H100. rewrite H4, H100. reflexivity.
  - apply Z.eqb_eq in H400. rewrite H400. apply orb_true_r.
Qed.

Lemma common_year_month y m : days_in_month 1 m <= days_in_month y m.
Proof.
  unfold days_in_month. destruct (m =? 2); [|lia].
  change (is_leap 1) with false. destruct (is_leap y); lia.
Qed.

Lemma civil_from_days_correct z :
  let f := civil_from_days z in
  days_from_civil (f_year f) (f_month f) (f_day f) = z /\
  1 <= f_month f <= 12 /\
  1 <= f_day f <= days_in_month (f_year f) (f_month f).
Proof.
  cbv zeta. unfold civil_from_days, days_from_civil. cbv zeta.
  cbn [f_year f_month f_day].
  set (z' := z + 719468). set (era := z' / 146097).
  set (doe := z' - era * 146097).
  assert (Hdoe : 0 <= doe <= 146096).
  { unfold doe, era. pose proof (Z.mod_pos_bound z' 146097 ltac:(lia)) as H.
    rewrite Z.mod_eq in H by lia. lia. }
  destruct (year_of_era doe Hdoe) as (Hyoe & Hlo & Hhi).
  set (yoe := (doe - doe / 1460 + doe / 36524 - doe / 146096) / 365) in *.
  set (doy := doe - (365 * yoe + yoe / 4 - yoe / 100)).
  assert (Hdoy : 0 <= doy <= 365).
  { unfold doy. split; [lia|]. clearbody yoe. clear doy.
    destruct Hhi as [Hhi|Hhi]; Z.div_mod_to_equations; lia. }
  assert (Hleap : doy = 365 -> is_leap (yoe + 1 + era * 400) = true).
  { intros E. rewrite is_leap_era. apply is_leap_true.
    destruct Hhi as [Hhi|Hhi]; [|right; rewrite Hhi; reflexivity].
    left. unfold doy in E. clearbody yoe. clear doy Hdoy.
    Z.div_mod_to_equations. lia. }
  pose proof (month_day doy Hdoy) as Hmd. unfold month_day_ok in Hmd.
  cbv zeta in Hmd.
  set (mp := (5 * doy + 2) / 153) in *.
  set (d := doy - (153 * mp + 2) / 5 + 1) in *.
  apply andb_prop in Hmd as [Hmd Hlast]. apply andb_prop in Hmd as [Hmd Hd1].
  apply andb_prop in Hmd as [Hmp0 Hmp11].
  apply Z.leb_le in Hmp0, Hmp11, Hd1.
  set (m := if mp <? 10 then mp + 3 else mp - 9) in *.
  assert (Hm : 1 <= m <= 12) by (unfold m; destruct (Z.ltb_spec mp 10); lia).
  assert (Hback : (if 2 <? m then m - 3 else m + 9) = mp).
  { unfold m. destruct (Z.ltb_spec mp 10).
    - destruct (Z.ltb_spec 2 (mp + 3)); lia.
    - destruct (Z.ltb_spec 2 (mp - 9)); lia. }
  assert (Hy : (if m <=? 2
                then (if m <=? 2 then yoe + era * 400 + 1 else yoe + era * 400) - 1
                else (if m <=? 2 then yoe + era * 400 + 1 else yoe + era * 400))
               = yoe + era * 400).
  { destruct (m <=? 2); ring. }
  rewrite Hy, Hback.
  assert (Hera : (yoe + era * 400) / 400 = era).
  { rewrite Z.div_add by lia. rewrite Z.div_small by lia. ring. }
  rewrite Hera. replace (yoe + era * 400 - era * 400) with yoe by ring.
  split; [|split; [exact Hm|split; [exact Hd1|]]].
  - unfold d, doy, doe, z'. lia.
  - destruct (Z.eqb_spec doy 365) as [E|NE].
    + apply andb_prop in Hlast as [Hm2 Hd29].
      apply Z.eqb_eq in Hm2, Hd29. rewrite Hm2, Hd29. cbn [Z.leb Z.compare Pos.compare Pos.compare_cont].
      replace (yoe + era * 400 + 1) with (yoe + 1 + era * 400) by ring.
      unfold days_in_month. rewrite (Hleap E). cbn. lia.
    + apply Z.leb_le in Hlast.
      eapply Z.le_trans; [exact Hlast|apply common_year_month].
Qed.
End DateFacts.

Import DateFacts.

(** * The call-log adapter *)

Module CallsFacts.
Import CallsData CallsSpec.

Lemma somes_In {A} (e : A) l : In e (somes l) <-> In (Some e) l.
Proof.
  induction l as [|[a|] l IH]; cbn; [tauto| |].
  - rewrite IH. split; intros [H|H]; auto; left; congruence.
  - rewrite IH. split; [auto|]. intros [H|H]; [discriminate|exact H].
Qed.

Lemma converts_fields d :
  truthy d = true -> converts_record d = true ->
  converts (field d "date") = true /\
  forall name, In name required -> converts (or_zero (field d name)) = true.
Proof.
  unfold converts_record. intros -> H. cbn [negb orb] in H.
  apply andb_true_iff in H as [Hd Hr]. split; [exact Hd|].
  intros name Hn. rewrite forallb_forall in Hr. apply Hr. exact Hn.
Qed.

(** What [normalizeCallEntry] ends in. *)
Lemma normalize_throws d :
  converts_record d = false -> normalizeCallEntry d = Throw TypeError.
Proof.
  unfold converts_record, normalizeCallEntry, StringOf, NumberOf.
  destruct (truthy d); cbn [negb orb forallb required]; [|discriminate].
  destruct (converts (field d "date")); cbn [andb]; [|reflexivity].
  destruct (converts (or_zero (field d "incoming_count"))); cbn [andb];
    [|reflexivity].
  destruct (converts (or_zero (field d "outgoing_count"))); cbn [andb];
    [|reflexivity].
  destruct (converts (or_zero (field d "incoming_seconds"))); cbn [andb];
    [|reflexivity].
  destruct (converts (or_zero (field d "outgoing_seconds"))); cbn [andb];
    [discriminate|reflexivity].
Qed.

Lemma normalize_falsy d :
  truthy d = false -> normalizeCallEntry d = Return None.
Proof. unfold normalizeCallEntry. intros ->. reflexivity. Qed.

Lemma normalize_returns d :
  truthy d = true -> converts_record d = true ->
  exists e,
    normalizeCallEntry d = Return (Some e) /\ carries d e /\
    total_count e = add (finite_or_zero (numeric d "incoming_count"))
                        (finite_or_zero (numeric d "outgoing_count")) /\
    total_seconds e = add (finite_or_zero (numeric d "incoming_seconds"))
                          (finite_or_zero (numeric d "outgoing_seconds")) /\
    total_minutes e = Math_round (div (total_seconds e) sixty).
Proof.
  intros Ht Hc. destruct (converts_fields d Ht Hc) as [Hd Hr].
  unfold normalizeCallEntry, StringOf, NumberOf. rewrite Ht, Hd.
  rewrite !Hr by (cbn; tauto). cbn [negb].
  eexists. split; [reflexivity|]. repeat split.
Qed.

Lemma normalize_inv d e :
  normalizeCallEntry d = Return (Some e) ->
  truthy d = true /\ converts_record d = true.
Proof.
  intros H. destruct (truthy d) eqn:Ht.
  - split; [reflexivity|]. destruct (converts_record d) eqn:Hc; [reflexivity|].
    rewrite (normalize_throws d Hc) in H. discriminate.
  - rewrite (normalize_falsy d Ht) in H. discriminate.
Qed.

Lemma keep_normalize d r :
  normalizeCallEntry d = Return r -> keep r = accepted d.
Proof.
  intros H. unfold accepted. destruct (truthy d) eqn:Ht.
  - destruct (converts_record d) eqn:Hc.
    + destruct (normalize_returns d Ht Hc) as (e & He & Hcar & Htc & Hts & _).
      rewrite He in H. injection H as <-.
      destruct Hcar as (Hdate & _). cbn [keep andb].
      rewrite Htc, Hts, Hdate.
      destruct (isFinite (add _ _)), (isFinite (add _ _)), (day_pattern _);
        reflexivity.
    + rewrite (normalize_throws d Hc) in H. discriminate.
  - rewrite (normalize_falsy d Ht) in H. injection H as <-. reflexivity.
Qed.

Lemma normalize_total d :
  converts_record d = true -> exists r, normalizeCallEntry d = Return r.
Proof.
  intros Hc. destruct (truthy d) eqn:Ht.
  - destruct (normalize_returns d Ht Hc) as (e & He & _). eauto.
  - rewrite (normalize_falsy d Ht). eauto.
Qed.

(** [json.map(normalizeCallEntry)] returns when every call does, with the
    results in the order of the records. *)
Lemma map_normalized_returns items :
  forallb converts_record items = true ->
  exists rs, map_normalized items = Return rs /\
             Forall2 (fun d r => normalizeCallEntry d = Return r) items rs.
Proof.
  induction items as [|d items IH]; cbn [forallb map_normalized]; intros H.
  - exists []. split; [reflexivity|constructor].
  - apply andb_true_iff in H as [Hd Hr].
    destruct (normalize_total d Hd) as (r & Er).
    destruct (IH Hr) as (rs & Ers & Hall).
    exists (r :: rs). rewrite Er, Ers. split; [reflexivity|].
    constructor; assumption.
Qed.

Lemma map_normalized_throws items :
  forallb converts_record items = false ->
  map_normalized items = Throw TypeError.
Proof.
  induction items as [|d items IH]; cbn [forallb map_normalized]; intros H;
    [discriminate|].
  destruct (converts_record d) eqn:Hd; cbn [andb] in H.
  - destruct (normalize_total d Hd) as (r & ->). rewrite (IH H). reflexivity.
  - rewrite (normalize_throws d Hd). reflexivity.
Qed.

Lemma map_normalized_inv items rs :
  map_normalized items = Return rs ->
  forallb converts_record items = true /\
  Forall2 (fun d r => normalizeCallEntry d = Return r) items rs.
Proof.
  intros H. destruct (forallb converts_record items) eqn:E.
  - destruct (map_normalized_returns items E) as (rs' & E' & Hall).
    rewrite E' in H. injection H as <-. auto.
  - rewrite (map_normalized_throws items E) in H. discriminate.
Qed.

(** The entries kept of the results, against the records accepted. *)
Lemma kept_of_accepted items rs :
  Forall2 (fun d r => normalizeCallEntry d = Return r) items rs ->
  Forall2 (fun d e => normalizeCallEntry d = Return (Some e))
          (filter accepted items) (somes (filter keep rs)).
Proof.
  induction 1 as [|d r items rs Hd Hall IH]; cbn [filter somes]; [constructor|].
  rewrite <- (keep_normalize d r Hd).
  destruct (keep r) eqn:Hk; [|exact IH].
  destruct r as [e|]; [|discriminate]. cbn [somes]. constructor; assumption.
Qed.

Lemma Forall2_In_l {A B} (R : A -> B -> Prop) l l' a :
  Forall2 R l l' -> In a l -> exists b, In b l' /\ R a b.
Proof.
  induction 1 as [|x y l l' Hxy Hall IH]; intros Hin; [destruct Hin|].
  destruct Hin as [->|Hin].
  - exists y. split; [left; reflexivity|exact Hxy].
  - destruct (IH Hin) as (b & Hb & HR). exists b. split; [right; exact Hb|exact HR].
Qed.

Lemma Forall2_In_r {A B} (R : A -> B -> Prop) l l' b :
  Forall2 R l l' -> In b l' -> exists a, In a l /\ R a b.
Proof.
  induction 1 as [|x y l l' Hxy Hall IH]; intros Hin; [destruct Hin|].
  destruct Hin as [->|Hin].
  - exists x. split; [left; reflexivity|exact Hxy].
  - destruct (IH Hin) as (a & Ha & HR). exists a. split; [right; exact Ha|exact HR].
Qed.

Lemma loaded response entries :
  loadCallsSummary response = Return entries ->
  exists items,
    ok response = true /\ json response = JsonArray items /\
    forallb converts_record items = true /\
    Forall2 (fun d e => normalizeCallEntry d = Return (Some e))
            (filter accepted items) entries.
Proof.
  unfold loadCallsSummary. destruct (ok response); cbn; [|discriminate].
  destruct (json response) as [items| | |]; try discriminate.
  destruct (map_normalized items) as [rs|] eqn:E; [|discriminate].
  intros H. injection H as <-. exists items.
  destruct (map_normalized_inv items rs E) as [Hc Hall].
  repeat split; try assumption. apply kept_of_accepted. exact Hall.
Qed.

Lemma loaded_entry response entries e :
  loadCallsSummary response = Return entries -> In e entries ->
  exists items d,
    json response = JsonArray items /\ In d items /\
    normalizeCallEntry d = Return (Some e) /\ accepted d = true.
Proof.
  intros H He. destruct (loaded _ _ H) as (items & _ & Hj & _ & Hall).
  destruct (Forall2_In_r _ _ _ e Hall He) as (d & Hd & Hn).
  apply filter_In in Hd as [Hd Ha]. exists items, d. auto.
Qed.

Lemma load_returns response items :
  ok response = true -> json response = JsonArray items ->
  forallb converts_record items = true ->
  exists entries,
    loadCallsSummary response = Return entries /\
    Forall2 (fun d e => normalizeCallEntry d = Return (Some e))
            (filter accepted items) entries.
Proof.
  intros Hok Hj Hc. unfold loadCallsSummary. rewrite Hok, Hj. cbn [negb].
  destruct (map_normalized_returns items Hc) as (rs & -> & Hall).
  eexists. split; [reflexivity|]. apply kept_of_accepted. exact Hall.
Qed.

Lemma load_throws response items :
  ok response = true -> json response = JsonArray items ->
  forallb converts_record items = false ->
  loadCallsSummary response = Throw TypeError.
Proof.
  intros Hok Hj Hc. unfold loadCallsSummary. rewrite Hok, Hj. cbn [negb].
  rewrite (map_normalized_throws items Hc). reflexivity.
Qed.

(** C1 (amended).  For a response that is ok and whose document is an
    array, [loadCallsSummary] returns when the date and the numeric
    fields of every truthy record convert, and then, in input order, one
    entry for each record that is truthy, whose date as a string matches
    [^\d{4}-\d{2}-\d{2}$], and whose two totals (incoming plus outgoing
    count, incoming plus outgoing seconds, every non-finite component
    counted as 0) are finite, and for no other record.  Whether each
    required numeric field is itself finite plays no part: a record with a
    non-finite one is kept.  A record with a field that does not convert
    makes the load throw a TypeError: no entry is returned then. *)
Theorem calls_filter_soundness response items :
  ok response = true -> json response = JsonArray items ->
  (forallb converts_record items = true ->
   exists entries,
     loadCallsSummary response = Return entries /\
     Forall2 (fun d e => normalizeCallEntry d = Return (Some e))
             (filter accepted items) entries /\
     forall d, In d items ->
       ((exists e, normalizeCallEntry d = Return (Some e) /\ In e entries)
        <-> accepted d = true)) /\
  (forallb converts_record items = false ->
   loadCallsSummary response = Throw TypeError).
Proof.
  intros Hok Hj. split; [|apply load_throws; assumption].
  intros Hc. destruct (load_returns response items Hok Hj Hc) as (entries & Hl & Hall).
  exists entries. split; [exact Hl|]. split; [exact Hall|].
  intros d Hd. split.
  - intros (e & He & Hin).
    rewrite <- (keep_normalize d (Some e) He).
    destruct (Forall2_In_r _ _ _ e Hall Hin) as (d' & Hd' & He').
    apply filter_In in Hd' as [_ Ha].
    rewrite (keep_normalize d' (Some e) He'). exact Ha.
  - intros Ha.
    assert (Hf : In d (filter accepted items)) by (apply filter_In; auto).
    destruct (Forall2_In_l _ _ _ d Hall Hf) as (e & He & Hn). eauto.
Qed.

Lemma finite_or_zero_id x : isFinite x = true -> finite_or_zero x = x.
Proof. unfold finite_or_zero. intros ->. reflexivity. Qed.

Lemma required_finite_fields d :
  required_finite d = true ->
  forall name, In name required -> isFinite (numeric d name) = true.
Proof.
  unfold required_finite. rewrite forallb_forall. auto.
Qed.

(** The entry of a record, once [normalizeCallEntry] has returned it. *)
Lemma normalized_entry d e :
  normalizeCallEntry d = Return (Some e) ->
  carries d e /\ (required_finite d = true -> totals_of d e).
Proof.
  intros H. destruct (normalize_inv d e H) as [Ht Hc].
  destruct (normalize_returns d Ht Hc) as (e' & He' & Hcar & Htc & Hts & Htm).
  rewrite He' in H. injection H as <-. split; [exact Hcar|].
  intros Hf. pose proof (required_finite_fields d Hf) as Hfin.
  unfold totals_of. rewrite Htm, Hts, Htc.
  rewrite !finite_or_zero_id by (apply Hfin; cbn; tauto).
  repeat split.
Qed.

(** C5.  When [loadCallsSummary] returns, every record it accepts whose
    four incoming and outgoing fields convert to finite numbers has its
    entry in the result: the entry carries the record's date and its four
    converted fields, and [total_count = incoming_count + outgoing_count],
    [total_seconds = incoming_seconds + outgoing_seconds] and
    [total_minutes = Math.round(total_seconds / 60)] over them.  Every
    entry returned is the entry of an accepted record in this way.  The
    entry a record yields depends on its date and its four incoming and
    outgoing fields only, so a total present in the raw record is never
    taken: [plain_record] says [total_count: 99] and its entry has 4. *)
Theorem calls_derived_fields :
  (forall response entries items,
      loadCallsSummary response = Return entries ->
      json response = JsonArray items ->
      (forall d, In d items -> accepted d = true -> required_finite d = true ->
                 exists e, In e entries /\ carries d e /\ totals_of d e) /\
      (forall e, In e entries ->
                 exists d, In d items /\ accepted d = true /\ carries d e /\
                           (required_finite d = true -> totals_of d e))) /\
  (forall d d',
      truthy d = truthy d' ->
      (forall name, In name ("date" :: required) -> field d name = field d' name) ->
      normalizeCallEntry d = normalizeCallEntry d') /\
  (exists e,
      normalizeCallEntry plain_record = Return (Some e) /\
      ToNumber (field plain_record "total_count") = of_Z 99 /\
      total_count e = of_Z 4).
Proof.
  split; [|split].
  - intros response entries items Hload Hj.
    destruct (loaded _ _ Hload) as (items' & _ & Hj' & _ & Hall).
    rewrite Hj in Hj'. injection Hj' as <-. split.
    + intros d Hd Ha Hf.
      assert (Hin : In d (filter accepted items)) by (apply filter_In; auto).
      destruct (Forall2_In_l _ _ _ d Hall Hin) as (e & He & Hn).
      destruct (normalized_entry d e Hn) as [Hcar Htot].
      exists e. auto.
    + intros e He.
      destruct (Forall2_In_r _ _ _ e Hall He) as (d & Hd & Hn).
      apply filter_In in Hd as [Hd Ha].
      destruct (normalized_entry d e Hn) as [Hcar Htot].
      exists d. auto.
  - intros d d' Ht Hf. unfold normalizeCallEntry. rewrite Ht.
    rewrite !(Hf _) by (cbn; tauto). reflexivity.
  - eexists. split; [vm_compute; reflexivity|]. split; reflexivity.
Qed.

Lemma finite_or_zero_finite x : isFinite (finite_or_zero x) = true.
Proof. unfold finite_or_zero. destruct (isFinite x) eqn:E; [exact E|reflexivity]. Qed.

Lemma finite_or_zero_binary64 x : binary64 x -> binary64 (finite_or_zero x).
Proof. unfold finite_or_zero. destruct (isFinite x); [trivial|reflexivity]. Qed.

(** C10.  Every entry returned by [loadCallsSummary] (the numeric fields of
    the input being binary64 values) has finite [total_count],
    [total_seconds] and [total_minutes], whatever the raw fields coerce
    to; and a returned entry may carry NaN in a raw field:
    [nan_record] is kept with [incoming_count = NaN]. *)
Theorem calls_totals_finite :
  (forall response entries e,
      (forall items d, json response = JsonArray items -> In d items ->
                       binary64_record d) ->
      loadCallsSummary response = Return entries -> In e entries ->
      isFinite (total_count e) = true /\
      isFinite (total_seconds e) = true /\
      isFinite (total_minutes e) = true) /\
  (exists entries e,
      loadCallsSummary (ok_response (JsonArray [nan_record])) = Return entries /\
      In e entries /\ incoming_count e = NaN).
Proof.
  split.
  - intros response entries e Hwf Hload Hin.
    destruct (loaded_entry _ _ _ Hload Hin) as (items & d & Hj & Hd & Hn & Ha).
    specialize (Hwf items d Hj Hd).
    unfold accepted in Ha. repeat (apply andb_true_iff in Ha as [Ha ?]).
    destruct (normalize_inv d e Hn) as [Ht Hc].
    destruct (normalize_returns d Ht Hc) as (e' & He' & _ & Htc & Hts & Htm).
    rewrite He' in Hn. injection Hn as <-.
    rewrite Htm, Hts, Htc. repeat split; try assumption.
    apply div_sixty_round_finite; [|assumption].
    apply add_binary64; apply finite_or_zero_binary64; apply Hwf; cbn; tauto.
  - eexists. eexists. split; [vm_compute; reflexivity|].
    split; [left; reflexivity|reflexivity].
Qed.

(** C1 (counterexample).  The record [nan_record] has a date of the day
    pattern and an [incoming_count] that coerces to NaN; the claim would
    have it dropped, and [loadCallsSummary] returns its entry. *)
Lemma calls_keeps_nonfinite_field : ~ kept_iff_all_finite nan_record.
Proof.
  unfold kept_iff_all_finite. intros [Hkept _].
  assert (Hfin : required_finite nan_record = false) by reflexivity.
  destruct Hkept as [_ H]; [|congruence].
  eexists. vm_compute. reflexivity.
Qed.

End CallsFacts.

Module GroupYearsFacts.
Import CallsData CallsSpec JsSetFacts.

Lemma by_difference_keyed (l : list intnum) :
  (forall a, In a l -> a <> None) ->
  keyed (fun a b => isign (isub a b)) year_key l.
Proof.
  intros Hl a b Ha Hb. apply Hl in Ha, Hb.
  destruct a as [x|], b as [y|]; try congruence.
  cbn. symmetry. apply Z.compare_sub.
Qed.

Lemma strictly_sorted l :
  StronglySorted Z.le l -> NoDup l -> StronglySorted Z.lt l.
Proof.
  induction 1 as [|x l Hs IH Hx]; intros Hn; constructor.
  - apply IH. inversion Hn; assumption.
  - inversion Hn as [|? ? Hnx _]; subst.
    rewrite Forall_forall in *. intros y Hy.
    specialize (Hx y Hy). assert (x <> y) by (intros ->; contradiction). lia.
Qed.

Lemma sorted_map_key l :
  StronglySorted (le_key year_key) l -> StronglySorted Z.le (map year_key l).
Proof.
  induction 1 as [|x l Hs IH Hx]; cbn; constructor; [exact IH|].
  rewrite Forall_forall in *. intros y Hy.
  apply in_map_iff in Hy as (z & <- & Hz). apply Hx. exact Hz.
Qed.

Lemma map_Some_key l :
  (forall a, In a l -> a <> None) -> l = map Some (map year_key l).
Proof.
  induction l as [|a l IH]; intros H; cbn; [reflexivity|].
  rewrite <- IH by (intros b Hb; apply H; right; exact Hb).
  destruct a; [reflexivity|]. exfalso. apply (H None); [left|]; reflexivity.
Qed.

(** C8 (amended).  For entries whose date keys all name a day of the
    calendar, [groupYears] returns every year of a date key and nothing
    else, each once, in strictly ascending order, whatever the order and
    the repetitions of the input. *)
Theorem groupYears_valid_dates (entries : list CallSummaryEntry) :
  (forall e, In e entries -> of_iso_day (date e) <> None) ->
  exists ys,
    groupYears entries = map Some ys /\
    StronglySorted Z.lt ys /\ NoDup ys /\
    forall y, In y ys <->
              exists e, In e entries /\ getYearFromISO (date e) = Some y.
Proof.
  intros Hvalid. unfold groupYears.
  destruct (fold_add (fun e => getYearFromISO (date e)) entries [] (NoDup_nil _))
    as [Hn Hi].
  set (years := fold_left (fun years e => JsSet.add (getYearFromISO (date e)) years) entries []) in *.
  set (cmp := fun a b => isign (isub a b)).
  assert (Hsome : forall a, In a (JsArray.sort cmp years) -> a <> None).
  { intros a Ha. apply sort_In, Hi in Ha. destruct Ha as [[]|(e & He & <-)].
    specialize (Hvalid e He). unfold getYearFromISO.
    destruct (of_iso_day (date e)); [discriminate|congruence]. }
  assert (Hk : keyed cmp year_key years).
  { apply by_difference_keyed. intros a Ha. apply Hsome, sort_In. exact Ha. }
  exists (map year_key (JsArray.sort cmp years)).
  assert (Hnd : NoDup (map year_key (JsArray.sort cmp years))).
  { apply (NoDup_map_inv Some). rewrite <- map_Some_key by exact Hsome.
    eapply Permutation_NoDup; [symmetry; apply sort_perm|exact Hn]. }
  repeat split.
  - apply map_Some_key. exact Hsome.
  - apply strictly_sorted; [|exact Hnd].
    apply sorted_map_key, sort_sorted. exact Hk.
  - exact Hnd.
  - intros Hy. apply (in_map Some) in Hy.
    rewrite <- map_Some_key in Hy by exact Hsome.
    apply sort_In, Hi in Hy. destruct Hy as [[]|Hy]. exact Hy.
  - intros He. assert (Hy : In (Some y) years) by (apply Hi; right; exact He).
    clear He. rename Hy into He.
    apply (sort_In cmp) in He. rewrite (map_Some_key _ Hsome) in He.
    apply in_map_iff in He as (z & E & Hz). injection E as ->. exact Hz.
Qed.

(** C8 (counterexample).  ["2020-13-01"] passes the day pattern of the
    loader and names no day: its year is NaN, and the years returned
    for [month13_dates] are NaN followed by 2020, which is no ascending
    sequence of years. *)
Lemma groupYears_invalid_date : ~ ascending_years (groupYears month13_dates).
Proof.
  intros (ys & E & _). vm_compute in E.
  destruct ys as [|y ys]; discriminate.
Qed.

End GroupYearsFacts.

(** * The acquisition loop *)

Module CountingFacts.
Import FrequencyCounter FrequencyCounterSpec JsMapFacts.

Lemma qualifies_iff item ts it :
  qualifies item = Some (ts, it) <->
  item = Some it /\ timestamp it = Some ts /\ startMs <= ts.
Proof.
  unfold qualifies. split.
  - destruct item as [i|]; [|discriminate].
    destruct (timestamp i) as [t|] eqn:E; [|discriminate].
    destruct (Z.leb_spec startMs t) as [Hle|]; [|discriminate].
    intros H. injection H as <- <-. auto.
  - intros (-> & -> & H). apply Z.leb_le in H. rewrite H. reflexivity.
Qed.

Lemma count_item_counts key t item :
  count_of key (counts (count_item t item))
  = count_of key (counts t) + (if has_key key item then 1 else 0).
Proof.
  unfold count_item, has_key.
  destruct (qualifies item) as [[ts it]|]; [|lia].
  cbn [counts]. unfold count_of.
  destruct (String.eqb_spec (key_of ts it) key) as [<-|Hne].
  - rewrite get_set_same.
    destruct (JsMap.get (key_of ts it) (counts t)) as [n|]; [|reflexivity].
    destruct (Z.eqb_spec n 0); lia.
  - rewrite get_set_other by congruence. lia.
Qed.

Lemma count_item_kept t item :
  totalKept (count_item t item)
  = totalKept t + (if is_kept item then 1 else 0).
Proof.
  unfold count_item, is_kept.
  destruct (qualifies item) as [[ts it]|]; cbn; lia.
Qed.

Lemma fold_count_counts key its : forall t,
  count_of key (counts (fold_left count_item its t))
  = count_of key (counts t)
    + Z.of_nat (List.length (filter (has_key key) its)).
Proof.
  induction its as [|item its IH]; intros t; cbn [fold_left filter].
  - cbn. lia.
  - rewrite IH, count_item_counts.
    destruct (has_key key item); cbn [List.length]; lia.
Qed.

Lemma fold_count_kept its : forall t,
  totalKept (fold_left count_item its t)
  = totalKept t + Z.of_nat (List.length (filter is_kept its)).
Proof.
  induction its as [|item its IH]; intros t; cbn [fold_left filter].
  - cbn. lia.
  - rewrite IH, count_item_kept.
    destruct (is_kept item); cbn [List.length]; lia.
Qed.

Lemma has_key_iff item key :
  has_key key item = true <->
  exists it ts,
    item = Some it /\ timestamp it = Some ts /\ startMs <= ts /\
    key = day_key (of_ms (ts + match timezoneOffset it with
                                | Some tz => tz
                                | None => 0
                                end)).
Proof.
  unfold has_key. split.
  - destruct (qualifies item) as [[ts it]|] eqn:E; [|discriminate].
    intros H. apply String.eqb_eq in H. apply qualifies_iff in E as (-> & Hts & Hle).
    exists it, ts. repeat split; try assumption. symmetry. exact H.
  - intros (it & ts & -> & Hts & Hle & ->).
    rewrite (proj2 (qualifies_iff (Some it) ts it)) by auto.
    apply String.eqb_refl.
Qed.

Lemma is_kept_iff item :
  is_kept item = true <->
  exists it ts, item = Some it /\ timestamp it = Some ts /\ startMs <= ts.
Proof.
  unfold is_kept. split.
  - destruct (qualifies item) as [[ts it]|] eqn:E; [|discriminate].
    intros _. apply qualifies_iff in E. eauto.
  - intros (it & ts & H). apply qualifies_iff in H. rewrite H. reflexivity.
Qed.

(** C6.  Over the items of a page, the count of each day key grows by the
    number of the items that qualify and have that key, and [totalKept] by
    the number of the items that qualify.  An item qualifies when its
    timestamp is at or after the cutoff; its key is the day key of the
    date at timestamp plus its own [timezoneOffset] (0 when absent).  An
    item with a timestamp before the cutoff changes nothing.  For a time
    within the range of [Date], that day key is the text [y-mm-dd] of the
    UTC calendar day the time falls in. *)
Theorem per_item_counting (its : list (option Item)) (t : Tally) :
  (forall key,
      count_of key (counts (fold_left count_item its t))
      = count_of key (counts t)
        + Z.of_nat (List.length (filter (has_key key) its))) /\
  totalKept (fold_left count_item its t)
  = totalKept t + Z.of_nat (List.length (filter is_kept its)) /\
  (forall item key,
      has_key key item = true <->
      exists it ts,
        item = Some it /\ timestamp it = Some ts /\ startMs <= ts /\
        key = day_key (of_ms (ts + match timezoneOffset it with
                                    | Some tz => tz
                                    | None => 0
                                    end))) /\
  (forall it ts,
      timestamp it = Some ts -> ts < startMs -> count_item t (Some it) = t) /\
  (forall ms,
      Z.abs ms <= 8640000000000000 ->
      exists f,
        of_ms ms = Some f /\ day_key (of_ms ms) = ymd f /\
        days_from_civil (f_year f) (f_month f) (f_day f) = ms / msPerDay /\
        1 <= f_month f <= 12 /\
        1 <= f_day f <= days_in_month (f_year f) (f_month f)).
Proof.
  split; [|split; [|split; [|split]]].
  - intros key. revert t. induction its as [|item its IH]; intros t; cbn [fold_left filter].
    + cbn. lia.
    + rewrite IH, count_item_counts.
      destruct (has_key key item); cbn [List.length]; lia.
  - revert t. induction its as [|item its IH]; intros t; cbn [fold_left filter].
    + cbn. lia.
    + rewrite IH, count_item_kept.
      destruct (is_kept item); cbn [List.length]; lia.
  - intros item key. unfold has_key. split.
    + destruct (qualifies item) as [[ts it]|] eqn:E; [|discriminate].
      intros H. apply String.eqb_eq in H. apply qualifies_iff in E as (-> & Hts & Hle).
      exists it, ts. repeat split; try assumption. symmetry. exact H.
    + intros (it & ts & -> & Hts & Hle & ->).
      rewrite (proj2 (qualifies_iff (Some it) ts it)) by auto.
      apply String.eqb_refl.
  - intros it ts Hts Hlt. unfold count_item, qualifies. rewrite Hts.
    destruct (Z.leb_spec startMs ts); [lia|reflexivity].
  - intros ms Hms. unfold of_ms. apply Z.leb_le in Hms. rewrite Hms.
    exists (civil_from_days (ms / msPerDay)).
    destruct (civil_from_days_correct (ms / msPerDay)) as (H1 & H2 & H3).
    repeat split; try assumption; try lia.
    unfold day_key, ymd, getUTCFullYear, getUTCMonth, getUTCDate.
    cbn [option_map iadd to_string].
    replace (f_month (civil_from_days (ms / msPerDay)) - 1 + 1)
      with (f_month (civil_from_days (ms / msPerDay))) by lia.
    reflexivity.
Qed.
End CountingFacts.

Module FrequencyCounterFacts.
Import FrequencyCounter FrequencyCounterSpec CountingFacts.

Lemma shouldStop_iff page : shouldStop page = true <-> cutoff_seen page.
Proof.
  unfold shouldStop, cutoff_seen. split.
  - destruct page as [p|]; [|discriminate].
    destruct (lastItemTimestamp p) as [t|] eqn:E; [|discriminate].
    intros H. apply Z.ltb_lt in H. eauto.
  - intros (p & t & -> & -> & H). apply Z.ltb_lt. exact H.
Qed.

Lemma truthy_cursor_false c : truthy_cursor c = false <-> cursor_absent c.
Proof.
  unfold truthy_cursor, cursor_absent. destruct c as [s|].
  - destruct (String.eqb_spec s EmptyString); cbn; split; intros H; auto; try discriminate.
    + right. congruence.
    + destruct H as [H|H]; [discriminate|congruence].
  - split; auto.
Qed.

Section Feed.
Variable api : nat -> option string -> option Page.

Lemma cursor_state_after k : cursor (state_after api k) = cursor_at api k.
Proof. destruct k; reflexivity. Qed.

Lemma loop_from fuel : forall n,
  match loop api fuel n (state_after api n) with
  | FETCHING st =>
      st = state_after api (n + fuel) /\
      forall k, (n <= k < n + fuel)%nat -> stops_at api k = false
  | DONE_CUTOFF st =>
      exists k, (n <= k < n + fuel)%nat /\ st = state_after api (S k) /\
                (forall j, (n <= j < k)%nat -> stops_at api j = false) /\
                shouldStop (page_at api k) = true
  | DONE_EXHAUSTED st =>
      exists k, (n <= k < n + fuel)%nat /\ st = state_after api (S k) /\
                (forall j, (n <= j < k)%nat -> stops_at api j = false) /\
                shouldStop (page_at api k) = false /\
                truthy_cursor (next_cursor (page_at api k)) = false
  end.
Proof.
  induction fuel as [|fuel IH]; intros n; cbn [loop].
  - split; [f_equal; lia | intros k Hk; lia].
  - rewrite cursor_state_after. fold (page_at api n).
    change (after_page (state_after api n) (page_at api n))
      with (state_after api (S n)).
    destruct (shouldStop (page_at api n)) eqn:Hs.
    + exists n; repeat split; try lia; try assumption; intros j Hj; lia.
    + rewrite cursor_state_after. cbn [cursor_at]. fold (page_at api n).
      destruct (truthy_cursor (next_cursor (page_at api n))) eqn:Ht.
      * assert (Hn : stops_at api n = false)
          by (unfold stops_at; rewrite Hs, Ht; reflexivity).
        assert (Hall : forall j, (n <= j < S n)%nat -> stops_at api j = false)
          by (intros j Hj; replace j with n by lia; exact Hn).
        specialize (IH (S n)).
        destruct (loop api fuel (S n) (state_after api (S n))) as [st|st|st].
        -- destruct IH as [-> IH]. split; [f_equal; lia|].
           intros k Hk. destruct (Nat.eq_dec k n) as [->|]; [exact Hn|].
           apply IH. lia.
        -- destruct IH as (k & Hk & -> & Hj & Hc).
           exists k. repeat split; try lia; try assumption.
           intros j Hjn. destruct (Nat.eq_dec j n) as [->|]; [exact Hn|].
           apply Hj. lia.
        -- destruct IH as (k & Hk & -> & Hj & Hc & Hcur).
           exists k. repeat split; try lia; try assumption.
           intros j Hjn. destruct (Nat.eq_dec j n) as [->|]; [exact Hn|].
           apply Hj. lia.
      * exists n; repeat split; try lia; try assumption; intros j Hj; lia.
Qed.

Lemma requested_state_after k :
  requested (state_after api k) = map (cursor_at api) (seq 0 k).
Proof.
  induction k as [|k IH]; [reflexivity|].
  rewrite seq_S, map_app. cbn [state_after after_page requested].
  rewrite IH, cursor_state_after. reflexivity.
Qed.

Lemma loop_more fuel : forall n st extra,
  (forall st', loop api fuel n st <> FETCHING st') ->
  loop api (fuel + extra) n st = loop api fuel n st.
Proof.
  induction fuel as [|fuel IH]; intros n st extra Hdone; cbn [loop Nat.add].
  - exfalso. apply (Hdone st). reflexivity.
  - cbn [loop] in Hdone.
    destruct (shouldStop _); [reflexivity|].
    destruct (truthy_cursor _); [|reflexivity].
    apply IH. exact Hdone.
Qed.

Lemma page_counted k :
  tally (state_after api (S k))
  = counts (fold_left count_item (page_items (page_at api k))
              {| counts := tally (state_after api k);
                 keptThisPage := 0;
                 totalKept := kept (state_after api k) |}) /\
  kept (state_after api (S k))
  = totalKept (fold_left count_item (page_items (page_at api k))
                 {| counts := tally (state_after api k);
                    keptThisPage := 0;
                    totalKept := kept (state_after api k) |}).
Proof. split; reflexivity. Qed.
End Feed.

(** C3.  The loop is left after a page exactly when (a) the page's
    [lastItemTimestamp] is a number below the cutoff, or (b) the cursor
    the page returns is null or absent (or empty, which [while] takes
    the same way).  Until then it goes on; it is left at the first such
    page, by [break] in case (a) and by the [while] test otherwise.  It
    asks for one page after another, each with the cursor of the page
    before and the first with [null], and for none after the page it
    stops at, however long it is let run.  The state the loop is left
    in is the state after the page that stops it, and by then the items
    of that page are counted, in case (a) as in any other: after every
    page fetched, the count of each day key has grown by the number of
    the page's items that have a timestamp at or after the cutoff and
    that day key, and [totalKept] by the number of the page's items with
    a timestamp at or after the cutoff. *)
Theorem pagination_termination (api : nat -> option string -> option Page) :
  (forall k, stops_at api k = true <->
             cutoff_seen (page_at api k) \/
             cursor_absent (next_cursor (page_at api k))) /\
  (forall fuel,
      match run api fuel with
      | FETCHING st =>
          st = state_after api fuel /\
          forall k, (k < fuel)%nat -> stops_at api k = false
      | DONE_CUTOFF st =>
          exists k, (k < fuel)%nat /\ st = state_after api (S k) /\
                    (forall j, (j < k)%nat -> stops_at api j = false) /\
                    cutoff_seen (page_at api k)
      | DONE_EXHAUSTED st =>
          exists k, (k < fuel)%nat /\ st = state_after api (S k) /\
                    (forall j, (j < k)%nat -> stops_at api j = false) /\
                    ~ cutoff_seen (page_at api k) /\
                    cursor_absent (next_cursor (page_at api k))
      end) /\
  (forall k, requested (state_after api k) = map (cursor_at api) (seq 0 k)) /\
  (forall k key,
      count_of key (tally (state_after api (S k)))
      = count_of key (tally (state_after api k))
        + Z.of_nat (List.length
                      (filter (has_key key) (page_items (page_at api k))))) /\
  (forall k,
      kept (state_after api (S k))
      = kept (state_after api k)
        + Z.of_nat (List.length
                      (filter is_kept (page_items (page_at api k))))) /\
  (forall item key,
      has_key key item = true <->
      exists it ts,
        item = Some it /\ timestamp it = Some ts /\ startMs <= ts /\
        key = day_key (of_ms (ts + match timezoneOffset it with
                                    | Some tz => tz
                                    | None => 0
                                    end))) /\
  (forall item,
      is_kept item = true <->
      exists it ts, item = Some it /\ timestamp it = Some ts /\ startMs <= ts) /\
  (forall fuel extra,
      (forall st, run api fuel <> FETCHING st) ->
      run api (fuel + extra) = run api fuel).
Proof.
  split; [|split; [|split; [|split; [|split; [|split; [|split]]]]]].
  - intros k. unfold stops_at. rewrite orb_true_iff, negb_true_iff.
    rewrite shouldStop_iff, truthy_cursor_false. reflexivity.
  - intros fuel. unfold run. pose proof (loop_from api fuel 0) as H.
    change (state_after api 0) with init in H.
    destruct (loop api fuel 0 init) as [st|st|st].
    + destruct H as [-> H]. split; [reflexivity|]. intros k Hk. apply H. lia.
    + destruct H as (k & Hk & -> & Hj & Hc). exists k.
      repeat split; try lia; [intros j Hjk; apply Hj; lia|].
      apply shouldStop_iff. exact Hc.
    + destruct H as (k & Hk & -> & Hj & Hc & Hcur). exists k.
      repeat split; try lia; [intros j Hjk; apply Hj; lia| |].
      * rewrite <- shouldStop_iff, Hc. discriminate.
      * apply truthy_cursor_false. exact Hcur.
  - apply requested_state_after.
  - intros k key. rewrite (proj1 (page_counted api k)), fold_count_counts.
    reflexivity.
  - intros k. rewrite (proj2 (page_counted api k)), fold_count_kept.
    reflexivity.
  - apply has_key_iff.
  - apply is_kept_iff.
  - intros fuel extra H. apply loop_more. exact H.
Qed.
End FrequencyCounterFacts.


(** * The category aggregation *)

Module AccumulateFacts.
Import Trakt TraktGenreAggregation AggregationSpec.

Section Field.
Variable field : RuntimeSummaryEntry -> option (list GenreCount).

Lemma add_counts_keys gs : forall gm,
  JsMap.keys (add_counts gm gs) = fold_left see (map name gs) (JsMap.keys gm).
Proof.
  unfold add_counts.
  induction gs as [|g gs IH]; intros gm; cbn [fold_left map]; [reflexivity|].
  rewrite IH, keys_set, has_keys. reflexivity.
Qed.

Lemma add_counts_sound gs : forall gm,
  (forall k v, In (k, v) gm -> sound v) ->
  (forall g, In g gs -> binary64 (count g)) ->
  forall k v, In (k, v) (add_counts gm gs) -> sound v.
Proof.
  unfold add_counts.
  induction gs as [|g gs IH]; intros gm Hgm Hgs k v; cbn [fold_left]; [apply Hgm|].
  apply IH; [|intros g' Hg'; apply Hgs; right; exact Hg'].
  intros k' v' Hin. apply In_set in Hin as [[_ ->]|Hin]; [|eapply Hgm; exact Hin].
  assert (Hprev : sound match JsMap.get (name g) gm with Some v => v | None => zero end).
  { destruct (JsMap.get (name g) gm) as [p|] eqn:E.
    - apply get_In in E. eapply Hgm; exact E.
    - split; reflexivity. }
  assert (Hx : binary64 (if isFinite (count g) then count g else zero)
               /\ isFinite (if isFinite (count g) then count g else zero) = true).
  { destruct (isFinite (count g)) eqn:E; split; try reflexivity; try exact E.
    apply Hgs. left. reflexivity. }
  destruct Hprev as [Hp1 Hp2], Hx as [Hx1 Hx2]. split.
  - apply add_binary64; assumption.
  - apply add_not_nan; assumption.
Qed.

Lemma fold_counts_keys l : forall gm,
  JsMap.keys (fold_left (fun gm e => add_counts gm (or_empty (field e))) l gm)
  = fold_left see (flat_map (fun e => map name (or_empty (field e))) l)
              (JsMap.keys gm).
Proof.
  induction l as [|e l IH]; intros gm; cbn [fold_left flat_map]; [reflexivity|].
  rewrite IH, add_counts_keys, fold_left_app. reflexivity.
Qed.

Lemma counter_keys entries km :
  JsMap.keys (counter field entries km)
  = first_seen (names_met field entries km).
Proof. unfold counter. rewrite fold_counts_keys. reflexivity. Qed.

Lemma fold_counts_sound l : forall gm,
  (forall k v, In (k, v) gm -> sound v) ->
  (forall e g, In e l -> In g (or_empty (field e)) -> binary64 (count g)) ->
  forall k v,
    In (k, v) (fold_left (fun gm e => add_counts gm (or_empty (field e))) l gm) ->
    sound v.
Proof.
  induction l as [|e l IH]; intros gm Hgm Hl; cbn [fold_left]; [exact Hgm|].
  apply IH.
  - apply add_counts_sound; [exact Hgm|]. intros g Hg. eapply Hl; [left; reflexivity|exact Hg].
  - intros e' g He' Hg. eapply Hl; [right; exact He'|exact Hg].
Qed.

Lemma counter_sound entries km :
  binary64_counts field entries ->
  forall k v, In (k, v) (counter field entries km) -> sound v.
Proof.
  intros Hb. unfold counter. apply fold_counts_sound.
  - intros k v [].
  - intros e g He Hg. apply filter_In in He as [He _]. eapply Hb; eassumption.
Qed.

Lemma accumulate_fold entries :
  accumulate field entries = fold_left (step field) entries JsMap.empty.
Proof. reflexivity. Qed.

Lemma filed_false entries km :
  filed entries km = false -> contributors entries km = [].
Proof.
  unfold filed, contributors. induction entries as [|e l IH]; cbn; [reflexivity|].
  destruct (String.eqb (month_key e) km); cbn; [discriminate|exact IH].
Qed.

Lemma counter_snoc p e km :
  counter field (p ++ [e]) km
  = if String.eqb (month_key e) km
    then add_counts (counter field p km) (or_empty (field e))
    else counter field p km.
Proof.
  unfold counter, contributors. rewrite filter_app. cbn [filter].
  destruct (String.eqb (month_key e) km).
  - rewrite fold_left_app. reflexivity.
  - rewrite app_nil_r. reflexivity.
Qed.

Lemma accumulate_spec entries :
  NoDup (JsMap.keys (accumulate field entries)) /\
  forall km,
    JsMap.get km (accumulate field entries)
    = if filed entries km then Some (counter field entries km) else None.
Proof.
  rewrite accumulate_fold.
  induction entries as [|e p IH] using rev_ind.
  - split; [constructor|reflexivity].
  - destruct IH as [Hn Hget]. rewrite fold_left_app. cbn [fold_left].
    set (M := fold_left (step field) p JsMap.empty) in *.
    unfold step. set (km0 := month_key e).
    set (M1 := if JsMap.has km0 M then M else JsMap.set km0 JsMap.empty M).
    assert (Hn1 : NoDup (JsMap.keys M1)).
    { unfold M1. destruct (JsMap.has km0 M); [exact Hn|apply NoDup_keys_set; exact Hn]. }
    assert (Hg0 : match JsMap.get km0 M1 with Some gm => gm | None => JsMap.empty end
                  = counter field p km0).
    { unfold M1, JsMap.has. specialize (Hget km0).
      destruct (JsMap.get km0 M) as [x|] eqn:E.
      - rewrite E. destruct (filed p km0); congruence.
      - rewrite get_set_same.
        destruct (filed p km0) eqn:F; [discriminate|].
        unfold counter. rewrite (filed_false _ _ F). reflexivity. }
    assert (Hother : forall km, km <> km0 -> JsMap.get km M1 = JsMap.get km M).
    { intros km Hne. unfold M1. destruct (JsMap.has km0 M); [reflexivity|].
      apply get_set_other. exact Hne. }
    rewrite Hg0. split; [apply NoDup_keys_set; exact Hn1|].
    intros km. unfold filed. rewrite existsb_app. cbn [existsb].
    rewrite orb_false_r, counter_snoc. fold km0. fold (filed p km).
    destruct (String.eqb_spec km0 km) as [<-|Hne].
    + rewrite get_set_same, orb_true_r. reflexivity.
    + rewrite get_set_other by congruence. rewrite Hother by congruence.
      rewrite Hget, orb_false_r. reflexivity.
Qed.

Lemma accumulate_In entries km gm :
  In (km, gm) (accumulate field entries) <->
  filed entries km = true /\ gm = counter field entries km.
Proof.
  destruct (accumulate_spec entries) as [Hn Hget]. split.
  - intros H. apply In_get in H; [|exact Hn]. rewrite Hget in H.
    destruct (filed entries km); [|discriminate]. injection H as <-. auto.
  - intros [Hf ->]. apply get_In. rewrite Hget, Hf. reflexivity.
Qed.

Lemma filed_In entries km :
  filed entries km = true <-> exists e, In e entries /\ month_key e = km.
Proof.
  unfold filed. rewrite existsb_exists. split; intros (e & He & E); exists e;
    (split; [exact He|]); [apply String.eqb_eq|apply String.eqb_eq]; exact E.
Qed.
End Field.
End AccumulateFacts.

Module KeyFacts.
Import Trakt TraktGenreAggregation AggregationSpec JsSetFacts.

Lemma is_digit_value c : is_digit c = true -> 0 <= digit_value c <= 9.
Proof.
  unfold is_digit, digit_value. intros H.
  apply andb_true_iff in H as [H1 H2].
  apply N.leb_le in H1, H2. lia.
Qed.

Lemma of_iso_day_range s f :
  of_iso_day s = Some f -> 0 <= f_year f <= 9999 /\ 1 <= f_month f <= 12.
Proof.
  unfold of_iso_day, day_pattern.
  destruct (list_ascii_of_string s) as [|y1 [|y2 [|y3 [|y4 [|h1 [|m1 [|m2 [|h2 [|d1 [|d2 [|]]]]]]]]]]];
    try discriminate.
  match goal with |- context [if ?c then _ else _] => destruct c eqn:P end; [|discriminate].
  match goal with |- context [if ?c then _ else _] => destruct c eqn:R end; [|discriminate].
  intros H. injection H as <-. cbn [f_year f_month].
  apply andb_prop in P as [P _]. apply andb_prop in P as [P _].
  apply andb_prop in P as [P _]. apply andb_prop in P as [P P7].
  apply andb_prop in P as [P P6]. apply andb_prop in P as [P _].
  apply andb_prop in P as [P P4]. apply andb_prop in P as [P P3].
  apply andb_prop in P as [P1 P2].
  apply andb_prop in R as [R _]. apply andb_prop in R as [R _].
  apply andb_prop in R as [R1 R2].
  apply is_digit_value in P1, P2, P3, P4, P6, P7.
  apply Z.leb_le in R1, R2.
  unfold digits_value in *. cbn [fold_left] in *. lia.
Qed.

Lemma print_table : forallb prints_back years_0_9999 = true.
Proof. vm_cast_no_check (eq_refl true). Qed.

Lemma prints_back_valid y :
  0 <= y <= 9999 ->
  digit_string (string_of_Z y) = true /\
  Number_of_digits (string_of_Z y) = Some y.
Proof.
  intros Hy. pose proof print_table as T. rewrite forallb_forall in T.
  assert (Hin : In y years_0_9999) by (unfold years_0_9999; apply zrange_In; lia).
  specialize (T y Hin). unfold prints_back in T.
  apply andb_prop in T as [T1 T2]. apply same_value_zero_eq in T2. auto.
Qed.

Lemma list_ascii_app s1 s2 :
  list_ascii_of_string (s1 ++ s2)
  = (list_ascii_of_string s1 ++ list_ascii_of_string s2)%list.
Proof. induction s1 as [|c s1 IH]; cbn; [reflexivity|]. rewrite IH. reflexivity. Qed.

Lemma digit_not_hyphen c : is_digit c = true -> Ascii.eqb c "-" = false.
Proof.
  intros H. destruct (Ascii.eqb_spec c "-") as [->|]; [discriminate|reflexivity].
Qed.

Lemma split_aux_last cs : forall cur,
  forallb is_digit cs = true ->
  split_aux "-" cur cs = [string_of_list_ascii (rev cur ++ cs)].
Proof.
  induction cs as [|c cs IH]; intros cur H; cbn [split_aux].
  - rewrite app_nil_r. reflexivity.
  - cbn [forallb] in H. apply andb_prop in H as [Hc H].
    rewrite (digit_not_hyphen c Hc), IH by exact H.
    cbn [rev]. rewrite <- app_assoc. reflexivity.
Qed.

Lemma split_aux_part cs rest : forall cur,
  forallb is_digit cs = true ->
  split_aux "-" cur (cs ++ "-"%char :: rest)
  = string_of_list_ascii (rev cur ++ cs) :: split_aux "-" [] rest.
Proof.
  induction cs as [|c cs IH]; intros cur H; cbn [split_aux app].
  - rewrite app_nil_r. reflexivity.
  - cbn [forallb] in H. apply andb_prop in H as [Hc H].
    rewrite (digit_not_hyphen c Hc), IH by exact H.
    cbn [rev]. rewrite <- app_assoc. reflexivity.
Qed.

Lemma split_key s1 s2 :
  digit_string s1 = true -> digit_string s2 = true ->
  split "-" (s1 ++ "-" ++ s2) = [s1; s2].
Proof.
  unfold digit_string, split. intros H1 H2.
  rewrite list_ascii_app. cbn [append list_ascii_of_string].
  rewrite split_aux_part by exact H1. rewrite split_aux_last by exact H2.
  cbn [rev app]. rewrite !string_of_list_ascii_of_string. reflexivity.
Qed.

Lemma key_reads_back y m :
  0 <= y <= 9999 -> 1 <= m <= 12 ->
  let parts := split "-" (key (Some y) (Some m)) in
  Number_of_part (nth_error parts 0) = Some y /\
  Number_of_part (nth_error parts 1) = Some m.
Proof.
  intros Hy Hm.
  destruct (prints_back_valid y Hy) as [Dy Ny].
  destruct (prints_back_valid m ltac:(lia)) as [Dm Nm].
  cbv zeta. unfold key. cbn [to_string].
  rewrite split_key by assumption. cbn [nth_error Number_of_part]. auto.
Qed.

Lemma month_key_reads_back e :
  let parts := split "-" (month_key e) in
  Number_of_part (nth_error parts 0) = entry_year e /\
  Number_of_part (nth_error parts 1) = entry_month e.
Proof.
  unfold month_key, entry_year, entry_month.
  unfold getYearFromISO, getUTCFullYear, getUTCMonth.
  destruct (of_iso_day (date e)) as [f|] eqn:E; cbn [option_map iadd].
  - destruct (of_iso_day_range _ _ E) as [Hy Hm].
    replace (f_month f - 1 + 1) with (f_month f) by lia.
    apply (key_reads_back _ _ Hy Hm).
  - vm_compute. auto.
Qed.
End KeyFacts.

Module RankFacts.
Import Trakt TraktGenreAggregation AggregationSpec AccumulateFacts KeyFacts.

Lemma by_count_desc_keyed l :
  (forall g, In g l -> sound (count g)) -> keyed by_count_desc key_desc l.
Proof.
  intros Hl a b Ha Hb. destruct (Hl a Ha) as [Va Na], (Hl b Hb) as [Vb Nb].
  unfold by_count_desc, key_desc.
  rewrite sign_sub by assumption. symmetry. apply Z.compare_opp.
Qed.

Lemma geb_ord a b : sound a -> sound b -> (geb a b = true <-> ord b <= ord a).
Proof.
  intros [Va Na] [Vb Nb]. unfold geb, SFleb.
  rewrite (SFcompare_ord b a) by assumption.
  destruct (Z.compare_spec (ord b) (ord a)); split; intros; try lia; try reflexivity; discriminate.
Qed.

Lemma eqb_ord a b : sound a -> sound b -> (eqb a b = true <-> ord a = ord b).
Proof.
  intros [Va Na] [Vb Nb]. unfold eqb, SFeqb.
  rewrite (SFcompare_ord a b) by assumption.
  destruct (Z.compare_spec (ord a) (ord b)); split; intros; try lia; try reflexivity; discriminate.
Qed.

Lemma sorted_impl {A} (R R' : A -> A -> Prop) l :
  (forall a b, In a l -> In b l -> R a b -> R' a b) ->
  StronglySorted R l -> StronglySorted R' l.
Proof.
  intros H Hs. induction Hs as [|x l Hs IH Hx]; constructor.
  - apply IH. intros a b Ha Hb. apply H; right; assumption.
  - rewrite Forall_forall in *. intros y Hy.
    apply H; [left; reflexivity|right; exact Hy|apply Hx; exact Hy].
Qed.

(** The counter after a list of categories is folded in: a name listed
    holds what its counts add up to, from what it held before. *)
Lemma add_counts_app gm gs1 gs2 :
  add_counts gm (gs1 ++ gs2) = add_counts (add_counts gm gs1) gs2.
Proof. unfold add_counts. apply fold_left_app. Qed.

Lemma total_from_unnamed n gs : forall start,
  existsb (named n) gs = false -> total_from n start gs = start.
Proof.
  unfold total_from.
  induction gs as [|g gs IH]; intros start H; cbn [fold_left]; [reflexivity|].
  cbn [existsb] in H. apply orb_false_iff in H as [Hg Hgs].
  unfold named in Hg. rewrite Hg. apply IH. exact Hgs.
Qed.

Lemma add_counts_get n gs : forall gm,
  JsMap.get n (add_counts gm gs)
  = if existsb (named n) gs
    then Some (total_from n (match JsMap.get n gm with
                             | Some v => v
                             | None => zero
                             end) gs)
    else JsMap.get n gm.
Proof.
  induction gs as [|g gs IH]; intros gm; [reflexivity|].
  change (add_counts gm (g :: gs))
    with (add_counts
            (JsMap.set (name g)
               (add (match JsMap.get (name g) gm with
                     | Some v => v
                     | None => zero
                     end)
                    (if isFinite (count g) then count g else zero)) gm) gs).
  rewrite IH. cbn [existsb]. unfold named at 2, total_from. cbn [fold_left].
  destruct (String.eqb_spec (name g) n) as [E|Hne]; cbn [orb].
  - subst n. rewrite get_set_same.
    destruct (existsb (named (name g)) gs) eqn:Hex; [reflexivity|].
    f_equal. symmetry. apply (total_from_unnamed (name g) gs). exact Hex.
  - rewrite get_set_other by congruence. reflexivity.
Qed.

Lemma add_counts_NoDup gs : forall gm,
  NoDup (JsMap.keys gm) -> NoDup (JsMap.keys (add_counts gm gs)).
Proof.
  unfold add_counts.
  induction gs as [|g gs IH]; intros gm H; cbn [fold_left]; [exact H|].
  apply IH, NoDup_keys_set. exact H.
Qed.

Section Field.
Variable field : RuntimeSummaryEntry -> option (list GenreCount).
Variable entries : list RuntimeSummaryEntry.
Hypothesis Hcounts : binary64_counts field entries.

Lemma pairs_sound km g : In g (pairs field entries km) -> sound (count g).
Proof.
  intros H. apply in_map_iff in H as ([k v] & <- & H). cbn.
  eapply counter_sound; eassumption.
Qed.

Lemma pairs_names km :
  map name (pairs field entries km) = first_seen (names_met field entries km).
Proof.
  unfold pairs. rewrite map_map. cbn. rewrite <- counter_keys. reflexivity.
Qed.

Lemma ranked_sound km g : In g (ranked field entries km) -> sound (count g).
Proof. intros H. apply sort_In in H. eapply pairs_sound; exact H. Qed.

Lemma ranked_sorted km : StronglySorted count_desc (ranked field entries km).
Proof.
  apply (sorted_impl (le_key key_desc)).
  - intros a b Ha Hb Hab. unfold count_desc.
    apply geb_ord; [eapply ranked_sound; exact Ha|eapply ranked_sound; exact Hb|].
    unfold le_key, key_desc in Hab. lia.
  - apply sort_sorted, by_count_desc_keyed. apply pairs_sound.
Qed.

Lemma ranked_names km :
  Permutation (map name (ranked field entries km))
              (first_seen (names_met field entries km)).
Proof.
  rewrite <- pairs_names. apply Permutation_map, sort_perm.
Qed.

(** Among equal counts the order of first appearance is kept. *)
Lemma ranked_stable km x y :
  precedes (ranked field entries km) x y ->
  eqb (count x) (count y) = true ->
  precedes (first_seen (names_met field entries km)) (name x) (name y).
Proof.
  intros Hp He. rewrite <- pairs_names. apply precedes_map.
  assert (Hx : In x (ranked field entries km)).
  { destruct Hp as (l1 & l2 & l3 & ->). apply in_or_app. right. left. reflexivity. }
  assert (Hy : In y (ranked field entries km)).
  { destruct Hp as (l1 & l2 & l3 & ->). apply in_or_app. right. right.
    apply in_or_app. right. left. reflexivity. }
  apply (sort_precedes by_count_desc key_desc).
  - apply by_count_desc_keyed, pairs_sound.
  - unfold key_desc. f_equal.
    apply eqb_ord; [eapply ranked_sound; exact Hx|eapply ranked_sound; exact Hy|exact He].
  - exact Hp.
Qed.
(** The counter of a month is the fold of the categories its entries
    list. *)
Lemma fold_counts_occurrences l : forall gm,
  fold_left (fun gm e => add_counts gm (or_empty (field e))) l gm
  = add_counts gm (flat_map (fun e => match field e with
                                      | Some gs => gs
                                      | None => []
                                      end) l).
Proof.
  induction l as [|e l IH]; intros gm; cbn [fold_left flat_map]; [reflexivity|].
  rewrite IH, add_counts_app. reflexivity.
Qed.

Lemma counter_occurrences km :
  counter field entries km
  = add_counts JsMap.empty (occurrences field entries km).
Proof. unfold counter, occurrences. apply fold_counts_occurrences. Qed.

Lemma counter_get km n :
  JsMap.get n (counter field entries km)
  = if existsb (named n) (occurrences field entries km)
    then Some (total_of n (occurrences field entries km))
    else None.
Proof. rewrite counter_occurrences, add_counts_get. reflexivity. Qed.

Lemma counter_NoDup km : NoDup (JsMap.keys (counter field entries km)).
Proof. rewrite counter_occurrences. apply add_counts_NoDup. constructor. Qed.

(** The ranked list of a month holds every name its entries list, once,
    with what the counts listed under the name add up to. *)
Lemma ranked_complete km :
  NoDup (map name (ranked field entries km)) /\
  (forall n, In n (map name (ranked field entries km)) <->
             exists g, In g (occurrences field entries km) /\ name g = n) /\
  (forall g, In g (ranked field entries km) ->
             count g = total_of (name g) (occurrences field entries km)).
Proof.
  assert (Hp : Permutation (map name (ranked field entries km))
                           (JsMap.keys (counter field entries km))).
  { unfold ranked, pairs, JsMap.keys.
    eapply Permutation_trans; [apply Permutation_map, sort_perm|].
    rewrite map_map. cbn [name]. apply Permutation_refl. }
  assert (Hin : forall g, In g (ranked field entries km) ->
                          JsMap.get (name g) (counter field entries km)
                          = Some (count g)).
  { intros g Hg. apply sort_In in Hg. unfold pairs in Hg.
    apply in_map_iff in Hg as ([k v] & <- & Hkv). cbn [name count fst snd].
    apply In_get; [apply counter_NoDup|exact Hkv]. }
  split; [|split].
  - eapply Permutation_NoDup; [symmetry; exact Hp|apply counter_NoDup].
  - intros n. split.
    + intros H. apply in_map_iff in H as (g & <- & Hg).
      specialize (Hin g Hg). rewrite counter_get in Hin.
      destruct (existsb (named (name g)) (occurrences field entries km)) eqn:E;
        [|discriminate].
      apply existsb_exists in E as (g' & Hg' & E). unfold named in E.
      apply String.eqb_eq in E. eauto.
    + intros (g & Hg & <-).
      apply (Permutation_in _ (Permutation_sym Hp)).
      apply has_In_keys. unfold JsMap.has. rewrite counter_get.
      assert (E : existsb (named (name g)) (occurrences field entries km) = true).
      { apply existsb_exists. exists g. split; [exact Hg|].
        unfold named. apply String.eqb_refl. }
      rewrite E. reflexivity.
  - intros g Hg. specialize (Hin g Hg). rewrite counter_get in Hin.
    destruct (existsb (named (name g)) (occurrences field entries km));
      [|discriminate].
    injection Hin as <-. reflexivity.
Qed.
End Field.

(** The buckets of either aggregation: one per month some entry is filed
    under, holding that month's ranked list after the cut. *)
Lemma bucket_iff field cut entries b :
  In b (JsArray.sort by_year_month
          (map (materialize cut) (accumulate field entries))) <->
  exists e, In e entries /\
            year b = entry_year e /\ month b = entry_month e /\
            genres b = cut (ranked field entries (month_key e)).
Proof.
  rewrite sort_In, in_map_iff. split.
  - intros ([km gm] & <- & Hin). apply accumulate_In in Hin as [Hf ->].
    apply filed_In in Hf as (e & He & <-). exists e.
    destruct (month_key_reads_back e) as [Hy Hm].
    split; [exact He|]. unfold materialize. cbn [year month genres fst snd].
    auto.
  - intros (e & He & Hy & Hm & Hg).
    exists (month_key e, counter field entries (month_key e)). split.
    + destruct (month_key_reads_back e) as [Hy' Hm'].
      destruct b as [by_ bm bg]. cbn [year month genres] in Hy, Hm, Hg.
      subst by_ bm bg. unfold materialize. cbn [fst snd].
      cbv zeta in Hy', Hm'. rewrite Hy', Hm'. reflexivity.
    + apply accumulate_In. split; [|reflexivity].
      apply filed_In. exists e. auto.
Qed.

(** C2.  In every bucket returned by [aggregateGenresByMonth] (the counts
    of the entries being binary64 values) the categories stand in
    descending order of count: whenever A stands before B,
    [count(A) >= count(B)].  The names of the bucket are the names met
    while the entries of its month were accumulated, and two categories
    of equal count stand in the order in which their names were first
    met. *)
Theorem genres_sorted_stable (entries : list RuntimeSummaryEntry) :
  binary64_counts Trakt.genres entries ->
  forall b, In b (aggregateGenresByMonth entries) ->
    StronglySorted count_desc (genres b) /\
    exists e, In e entries /\
      year b = entry_year e /\ month b = entry_month e /\
      let seen := first_seen (names_met Trakt.genres entries (month_key e)) in
      Permutation (map name (genres b)) seen /\
      forall x y,
        precedes (genres b) x y -> eqb (count x) (count y) = true ->
        precedes seen (name x) (name y).
Proof.
  intros Hc b Hb. apply bucket_iff in Hb as (e & He & Hy & Hm & Hg).
  rewrite Hg. split; [apply ranked_sorted; exact Hc|].
  exists e. repeat split; try assumption.
  - apply ranked_names.
  - apply ranked_stable. exact Hc.
Qed.

(** C7.  For a limit [K >= 0], every bucket returned by
    [aggregateSubgenresByMonth] holds at most [K] categories, none when
    [K = 0].  They are the first [K] of the month's subgenres ranked by
    descending count (all of them when there are fewer): the bucket and
    the categories left out, together, hold every name the subgenre
    lists of the month's entries mention, each once and with the sum of
    the counts listed under it; they stand in descending order of count,
    and every category kept has a count at least that of every category
    left out. *)
Theorem subgenres_top_k (entries : list RuntimeSummaryEntry) (K : Z) :
  0 <= K -> binary64_counts Trakt.subgenres entries ->
  forall b, In b (aggregateSubgenresByMonth entries (Some K)) ->
    (Z.of_nat (List.length (genres b)) <= K) /\
    (K = 0 -> genres b = []) /\
    exists e rest, In e entries /\
      year b = entry_year e /\ month b = entry_month e /\
      let listed := occurrences Trakt.subgenres entries (month_key e) in
      NoDup (map name (genres b ++ rest)) /\
      (forall n, In n (map name (genres b ++ rest)) <->
                 exists g, In g listed /\ name g = n) /\
      (forall g, In g (genres b ++ rest) ->
                 count g = total_of (name g) listed) /\
      (rest <> [] -> Z.of_nat (List.length (genres b)) = K) /\
      StronglySorted count_desc (genres b ++ rest) /\
      forall g h, In g (genres b) -> In h rest -> geb (count g) (count h) = true.
Proof.
  intros HK Hc b Hb. unfold aggregateSubgenresByMonth in Hb.
  apply bucket_iff in Hb as (e & He & Hy & Hm & Hg).
  rewrite Z.max_r in Hg by exact HK. unfold JsArray.slice0 in Hg.
  pose proof (ranked_complete Trakt.subgenres entries (month_key e))
    as (Hnd & Hnames & Hcounts).
  set (full := ranked Trakt.subgenres entries (month_key e)) in *.
  pose proof (firstn_skipn (Z.to_nat K) full) as Hsplit. rewrite <- Hg in Hsplit.
  pose proof (ranked_sorted Trakt.subgenres entries Hc (month_key e)) as Hs.
  fold full in Hs.
  split; [|split].
  - rewrite Hg. pose proof (firstn_le_length (Z.to_nat K) full). lia.
  - intros ->. rewrite Hg. reflexivity.
  - exists e, (skipn (Z.to_nat K) full). cbv zeta. rewrite Hsplit.
    repeat (split; [assumption|]). split.
    + intros Hrest. rewrite Hg. rewrite firstn_length_le; [lia|].
      destruct (Nat.le_gt_cases (Z.to_nat K) (List.length full)) as [|Hgt]; [assumption|].
      exfalso. apply Hrest. apply skipn_all2. lia.
    + split; [exact Hs|].
      intros g h Hg' Hh. rewrite <- Hsplit in Hs.
      apply in_split in Hg' as (g1 & g2 & Eg). apply in_split in Hh as (h1 & h2 & Eh).
      apply (sorted_precedes count_desc _ g h Hs).
      exists g1, (g2 ++ h1)%list, h2. rewrite Eg, Eh.
      rewrite <- app_assoc. cbn [app]. rewrite <- app_assoc. reflexivity.
Qed.
End RankFacts.

Module HeatmapFacts.
Import Trakt TraktGenreAggregation TraktHeatmaps AggregationSpec RankFacts.
Import JsIntFacts.




End HeatmapFacts.
(** * The photo adapter *)

Module PhotosFacts.

Import GooglePhotosData PhotosSpec.

Lemma map_records_spec items :
  map_records items
  = if existsb unreadable items then None else Some (map record_of items).
Proof.
  induction items as [|d items IH]; [reflexivity|].
  cbn [map_records existsb map]. rewrite IH. unfold unreadable, record_of.
  destruct d as [| |props]; cbn [prop field is_null orb]; try reflexivity.
  - unfold StringOf, NumberOf. cbn [converts undefined mkVal negb orb].
    destruct (existsb _ items); reflexivity.
  - unfold StringOf, NumberOf.
    destruct (converts (lookup "date" props)); cbn [negb orb]; [|reflexivity].
    destruct (converts (lookup "count" props)); cbn [negb orb]; [|reflexivity].
    destruct (existsb _ items); reflexivity.
Qed.

Lemma map_pairs_spec entries :
  map_pairs entries
  = if forallb (fun kv => converts (snd kv)) entries
    then Some (map record_of_entry entries) else None.
Proof.
  induction entries as [|kv entries IH]; [reflexivity|].
  cbn [map_pairs forallb map]. rewrite IH. unfold NumberOf, record_of_entry.
  destruct (converts (snd kv)); cbn [andb]; [|reflexivity].
  destruct (forallb _ entries); reflexivity.
Qed.

(** What the loader does with a document that holds no [null] record and
    whose dates and counts convert: it fails on a response that is not
    ok, on a body that is no JSON and on a document that is neither an
    array nor an object, and on nothing else; a record with a bad date
    or a non-finite count is left out of the result. *)
Lemma loadPhotosSummary_without_null response :
  (forall items, json response = JsonArray items ->
                 existsb unreadable items = false) ->
  (forall entries, json response = JsonObject entries ->
                   forallb (fun kv => converts (snd kv)) entries = true) ->
  loadPhotosSummary response
  = if negb (ok response) then Throw (Error (transport_message response))
    else match json response with
         | JsonArray items => Return (filter keep (map record_of items))
         | JsonObject entries =>
             Return (filter keep (map record_of_entry entries))
         | JsonOther => Throw (Error shape_message)
         | JsonRejected reason => Throw reason
         end.
Proof.
  intros Hnull Hconv. unfold loadPhotosSummary.
  destruct (negb (ok response)); [reflexivity|].
  destruct (json response) as [items|entries| |reason]; try reflexivity.
  - rewrite map_records_spec, (Hnull items eq_refl). reflexivity.
  - rewrite map_pairs_spec, (Hconv entries eq_refl). reflexivity.
Qed.

Lemma messages_differ response : transport_message response <> shape_message.
Proof. unfold transport_message, shape_message. cbn. discriminate. Qed.

(** C9 (the code at the failing input).  The response is ok and its
    document is an array, whose one record is [null]:
    [loadPhotosSummary] raises a TypeError, where the call-log loader,
    which tests [!d] before it reads a property, returns no entry. *)
Theorem photos_null_record_raises :
  ok null_document = true /\
  json null_document = JsonArray [ItemNull] /\
  loadPhotosSummary null_document = Throw TypeError /\
  CallsData.loadCallsSummary null_document = Return [].
Proof. repeat split. Qed.

End PhotosFacts.

(** * The statements at sample inputs *)

Module Witnesses.

Import CallsSpec AggregationSpec FrequencyCounterSpec PhotosSpec.
Import CallsFacts GroupYearsFacts RankFacts HeatmapFacts.
Import FrequencyCounterFacts CountingFacts.

Ltac members :=
  repeat match goal with
         | H : In _ (_ :: _) |- _ => destruct H as [<-|H]
         | H : In _ [] |- _ => destruct H
         | H : False |- _ => destruct H
         end.

Lemma calls_filter_soundness_witness :
  ok (ok_response (JsonArray sample_items)) = true /\
  json (ok_response (JsonArray sample_items)) = JsonArray sample_items /\
  forallb converts_record sample_items = true /\
  exists entries,
    CallsData.loadCallsSummary (ok_response (JsonArray sample_items))
    = Return entries /\
    Forall2 (fun d e => CallsData.normalizeCallEntry d = Return (Some e))
            (filter accepted sample_items) entries /\
    forall d, In d sample_items ->
      ((exists e, CallsData.normalizeCallEntry d = Return (Some e) /\
                  In e entries)
       <-> accepted d = true).
Proof.
  split; [reflexivity|]. split; [reflexivity|]. split; [reflexivity|].
  apply (proj1 (calls_filter_soundness
                  (ok_response (JsonArray sample_items)) sample_items
                  eq_refl eq_refl)).
  reflexivity.
Defined.

Lemma calls_derived_fields_witness :
  CallsData.loadCallsSummary (ok_response (JsonArray sample_items))
  = Return sample_entries /\
  In plain_record sample_items /\
  accepted plain_record = true /\ required_finite plain_record = true /\
  exists e, In e sample_entries /\
            carries plain_record e /\ totals_of plain_record e.
Proof.
  assert (Hin : In plain_record sample_items) by (right; right; left; reflexivity).
  split; [reflexivity|]. split; [exact Hin|].
  split; [reflexivity|]. split; [reflexivity|].
  apply (proj1 (proj1 calls_derived_fields
                      (ok_response (JsonArray sample_items))
                      sample_entries sample_items eq_refl eq_refl)
               plain_record Hin); reflexivity.
Defined.

Lemma calls_totals_finite_witness :
  (forall items d,
      json (ok_response (JsonArray sample_items)) = JsonArray items ->
      In d items -> binary64_record d) /\
  CallsData.loadCallsSummary (ok_response (JsonArray sample_items))
  = Return sample_entries /\
  In plain_entry sample_entries /\
  (isFinite (CallsData.total_count plain_entry) = true /\
   isFinite (CallsData.total_seconds plain_entry) = true /\
   isFinite (CallsData.total_minutes plain_entry) = true).
Proof.
  assert (Hin : In plain_entry sample_entries) by (right; left; reflexivity).
  assert (Hwf : forall items d,
             json (ok_response (JsonArray sample_items)) = JsonArray items ->
             In d items -> binary64_record d).
  { intros items d E Hd. injection E as <-. unfold sample_items in Hd.
    members; intros name Hn; unfold required in Hn; members; reflexivity. }
  split; [exact Hwf|]. split; [reflexivity|]. split; [exact Hin|].
  apply (proj1 calls_totals_finite
               (ok_response (JsonArray sample_items)) sample_entries plain_entry Hwf);
    first [reflexivity | exact Hin].
Defined.

Lemma groupYears_valid_dates_witness :
  (forall e, In e valid_dates -> of_iso_day (CallsData.date e) <> None) /\
  exists ys,
    CallsData.groupYears valid_dates = map Some ys /\
    StronglySorted Z.lt ys /\ NoDup ys /\
    forall y, In y ys <->
              exists e, In e valid_dates /\
                        CallsData.getYearFromISO (CallsData.date e) = Some y.
Proof.
  assert (H : forall e, In e valid_dates -> of_iso_day (CallsData.date e) <> None).
  { intros e He. unfold valid_dates in He. members; vm_compute; discriminate. }
  split; [exact H|]. apply (groupYears_valid_dates valid_dates H).
Defined.

Lemma january_counts_binary64 field :
  field = Trakt.genres \/ field = Trakt.subgenres ->
  binary64_counts field january_entries.
Proof.
  intros [-> | ->] e g He Hg; unfold january_entries in He; members;
    cbn [TraktGenreAggregation.or_empty Trakt.genres Trakt.subgenres] in Hg;
    members; reflexivity.
Defined.

Lemma genres_sorted_stable_witness :
  binary64_counts Trakt.genres january_entries /\
  In january_bucket (TraktGenreAggregation.aggregateGenresByMonth january_entries) /\
  StronglySorted count_desc (TraktGenreAggregation.genres january_bucket) /\
  exists e, In e january_entries /\
    TraktGenreAggregation.year january_bucket = entry_year e /\
    TraktGenreAggregation.month january_bucket = entry_month e /\
    let seen := first_seen (names_met Trakt.genres january_entries (month_key e)) in
    Permutation (map Trakt.name (TraktGenreAggregation.genres january_bucket)) seen /\
    forall x y,
      precedes (TraktGenreAggregation.genres january_bucket) x y ->
      eqb (Trakt.count x) (Trakt.count y) = true ->
      precedes seen (Trakt.name x) (Trakt.name y).
Proof.
  assert (Hc := january_counts_binary64 Trakt.genres (or_introl eq_refl)).
  assert (Hin : In january_bucket
                   (TraktGenreAggregation.aggregateGenresByMonth january_entries))
    by (left; reflexivity).
  split; [exact Hc|]. split; [exact Hin|].
  apply (genres_sorted_stable january_entries Hc january_bucket Hin).
Defined.

Lemma subgenres_top_k_witness :
  0 <= 2 /\
  binary64_counts Trakt.subgenres january_entries /\
  In january_top2
     (TraktGenreAggregation.aggregateSubgenresByMonth january_entries (Some 2)) /\
  Z.of_nat (List.length (TraktGenreAggregation.genres january_top2)) <= 2.
Proof.
  assert (Hc := january_counts_binary64 Trakt.subgenres (or_intror eq_refl)).
  assert (Hin : In january_top2
                   (TraktGenreAggregation.aggregateSubgenresByMonth
                      january_entries (Some 2)))
    by (left; reflexivity).
  split; [lia|]. split; [exact Hc|]. split; [exact Hin|].
  apply (subgenres_top_k january_entries 2 ltac:(lia) Hc january_top2 Hin).
Defined.


Lemma pagination_termination_witness :
  (forall st, FrequencyCounter.run sample_api 2 <> FrequencyCounter.FETCHING st) /\
  FrequencyCounter.run sample_api (2 + 5) = FrequencyCounter.run sample_api 2.
Proof.
  assert (H : forall st, FrequencyCounter.run sample_api 2
                         <> FrequencyCounter.FETCHING st)
    by (intros st; vm_compute; discriminate).
  split; [exact H|].
  apply (proj2 (proj2 (proj2 (proj2 (proj2 (proj2 (proj2
               (pagination_termination sample_api)))))))
               2%nat 5%nat H).
Defined.

Lemma per_item_counting_witness :
  FrequencyCounter.timestamp old_item = Some 1500000000000 /\
  1500000000000 < FrequencyCounter.startMs /\
  FrequencyCounter.count_item empty_tally (Some old_item) = empty_tally.
Proof.
  split; [reflexivity|]. split; [reflexivity|].
  apply (proj1 (proj2 (proj2 (proj2 (per_item_counting [] empty_tally))))
               old_item 1500000000000); reflexivity.
Defined.

End Witnesses.

(** * Checks of the model on concrete inputs *)

Example round_examples :
  Math_round (div (of_Z 90) sixty) = of_Z 2 /\
  Math_round (div (of_Z 89) sixty) = of_Z 1 /\
  Math_round (div (of_Z (-30)) sixty) = S754_zero true /\
  Math_round (div (of_Z (-31)) sixty) = of_Z (-1) /\
  Math_round (div (of_Z 29) sixty) = zero.
Proof. vm_compute. repeat split. Qed.

Example string_examples :
  day_pattern "2020-01-15" = true /\
  day_pattern "2020-1-15" = false /\
  day_pattern "2020-13-45" = true /\
  day_pattern "2020-01-15 " = false /\
  split "-" "2020-1" = ["2020"; "1"] /\
  split "-" "NaN-NaN" = ["NaN"; "NaN"] /\
  Number_of_digits "2020" = Some 2020 /\
  Number_of_digits "NaN" = None /\
  padStart2 "3" = "03" /\ padStart2 "12" = "12" /\ padStart2 "NaN" = "NaN".
Proof. vm_compute. repeat split. Qed.

Example date_examples :
  of_iso_day "2020-02-29" = Some (mkFields 2020 2 29) /\
  of_iso_day "2021-02-29" = None /\
  of_iso_day "2020-13-01" = None /\
  of_ms 0 = Some (mkFields 1970 1 1) /\
  of_ms (-1) = Some (mkFields 1969 12 31) /\
  of_ms 1577836800000 = Some (mkFields 2020 1 1) /\
  of_ms (1741936841000 + 19800000) = Some (mkFields 2025 3 14) /\
  of_ms 951782400000 = Some (mkFields 2000 2 29) /\
  of_ms 8640000000000000 = Some (mkFields 275760 9 13) /\
  of_ms (-8640000000000000) = Some (mkFields (-271821) 4 20) /\
  of_ms 8640000000000001 = None /\
  days_from_civil 2020 1 1 * msPerDay = FrequencyCounter.startMs.
Proof. vm_compute. repeat split. Qed.

(** The scenario of the specification: both January days fall into one
    bucket, [Drama] (first met) before [Comedy] at equal count 3. *)
Example january_scenario :
  map (fun b => (TraktGenreAggregation.year b, TraktGenreAggregation.month b,
                 map (fun g => (Trakt.name g, Trakt.count g))
                     (TraktGenreAggregation.genres b)))
      (TraktGenreAggregation.aggregateGenresByMonth AggregationSpec.january_entries)
  = [(Some 2020, Some 1, [("Drama", of_Z 3); ("Comedy", of_Z 3)])].
Proof. vm_compute. reflexivity. Qed.

(** The date-keyed document of the specification yields one entry. *)
Example keyed_document_scenario :
  GooglePhotosData.loadPhotosSummary PhotosSpec.keyed_document
  = Return [GooglePhotosData.mkEntry "2021-06-01" (of_Z 5)].
Proof. vm_compute. reflexivity. Qed.

(** Loads that fail: a body that is no JSON, a [fetch] that rejects, a
    response that is not ok whatever its body, and a document one record
    of which has a date without a primitive value. *)
Example failed_loads :
  fetching YTMusicData.loadSearchSummary
           (Return (mkResponse true 200 "OK" (JsonRejected SyntaxError)))
  = Throw SyntaxError /\
  fetching YTMusicData.loadSearchSummary (Throw TypeError) = Throw TypeError /\
  fetching YTMusicData.loadSearchSummary
           (Return (mkResponse false 404 "Not Found" (JsonRejected SyntaxError)))
  = Throw (Error "Failed to load YTMusic summary: 404 Not Found") /\
  CallsData.loadCallsSummary
    (CallsSpec.ok_response
       (JsonArray [CallsSpec.plain_record; CallsSpec.opaque_record]))
  = Throw TypeError.
Proof. repeat split. Qed.

(** The sample feed: the second page carries a hint below the cutoff; its
    first item still qualifies and is counted, and no third page is asked
    for. *)
Example sample_feed_run :
  FrequencyCounter.run FrequencyCounterSpec.sample_api 7
  = FrequencyCounter.DONE_CUTOFF
      {| FrequencyCounter.tally := [("2025-03-14", 2); ("2019-12-31", 1)];
         FrequencyCounter.cursor := Some "p3";
         FrequencyCounter.pageCount := 2;
         FrequencyCounter.kept := 3;
         FrequencyCounter.requested := [None; Some "p2"] |}.
Proof. vm_compute. reflexivity. Qed.
(** * The word cloud *)

Module HashHueFacts.
Import TraktGenreDisplay DisplaySpec.

Lemma uint32_range x : 0 <= uint32 x < 2 ^ 32.
Proof. unfold uint32. apply Z.mod_pos_bound. reflexivity. Qed.

Lemma hash_after_snoc p c :
  hash_after (p ++ [c]) = uint32 (hash_after p * 31 + c).
Proof. unfold hash_after. rewrite fold_left_app. reflexivity. Qed.

Lemma hash_after_range input : 0 <= hash_after input < 2 ^ 32.
Proof.
  destruct input as [|c cs] using rev_ind.
  - cbn. lia.
  - rewrite hash_after_snoc. apply uint32_range.
Qed.

Lemma weighted_snoc p c : weighted (p ++ [c]) = weighted p * 31 + c.
Proof.
  induction p as [|a p IH]; cbn [app weighted List.length]; [cbn; lia|].
  rewrite IH, length_app. cbn [List.length]. rewrite Nat.add_1_r, Nat2Z.inj_succ.
  rewrite Z.pow_succ_r by lia. ring.
Qed.

Lemma hash_after_weighted input : hash_after input = weighted input mod 2 ^ 32.
Proof.
  induction input as [|c p IH] using rev_ind; [reflexivity|].
  rewrite hash_after_snoc, weighted_snoc, IH. unfold uint32.
  rewrite Z.add_mod, Z.mul_mod_idemp_l, <- Z.add_mod by lia. reflexivity.
Qed.

(** X1.  For a string of 16-bit code units the running value of [h] stays
    an unsigned 32-bit integer and [h * 31 + c] stays below 2^53 at every
    character, so that the number arithmetic of the loop is exact; the
    hue returned is an integer from 0 to 359. *)
Theorem hashHue_range (input : list Z) :
  code_unit_string input ->
  (forall p c rest,
      input = (p ++ c :: rest)%list ->
      0 <= hash_after p < 2 ^ 32 /\ 0 <= hash_after p * 31 + c < 2 ^ 53) /\
  0 <= hashHue input < 360.
Proof.
  intros Hin. split.
  - intros p c rest ->. pose proof (hash_after_range p) as Hp.
    split; [exact Hp|].
    unfold code_unit_string in Hin. rewrite Forall_forall in Hin.
    assert (Hc : 0 <= c < 65536) by (apply Hin, in_elt).
    change (2 ^ 32) with 4294967296 in Hp.
    change (2 ^ 53) with 9007199254740992. lia.
  - unfold hashHue. fold (hash_after input).
    pose proof (hash_after_range input) as Hr.
    rewrite Z.rem_mod_nonneg by lia. apply Z.mod_pos_bound. lia.
Qed.

(** X2.  The wrap-around to 32 bits at every character does not change
    the result: the hue is the polynomial [c1 * 31^(n-1) + ... + cn] of
    the code units, reduced modulo 2^32 once and then modulo 360. *)
Theorem hashHue_closed_form (input : list Z) :
  hashHue input = (weighted input mod 2 ^ 32) mod 360.
Proof.
  unfold hashHue. fold (hash_after input).
  pose proof (hash_after_range input) as Hr.
  rewrite Z.rem_mod_nonneg by lia. rewrite hash_after_weighted. reflexivity.
Qed.

End HashHueFacts.
Module JsMathFacts.
Import MaxSpec.

Lemma leb_ord a b : comparable a -> comparable b -> (leb a b = true <-> ord a <= ord b).
Proof.
  intros [Ha Na] [Hb Nb]. unfold leb, SFleb.
  rewrite (SFcompare_ord a b Ha Hb Na Nb).
  destruct (Z.compare_spec (ord a) (ord b)); split; intros; try lia; try discriminate; reflexivity.
Qed.

Lemma ltb_ord a b : comparable a -> comparable b -> (ltb a b = true <-> ord a < ord b).
Proof.
  intros [Ha Na] [Hb Nb]. unfold ltb, SFltb.
  rewrite (SFcompare_ord a b Ha Hb Na Nb).
  destruct (Z.compare_spec (ord a) (ord b)); split; intros; try lia; try discriminate; reflexivity.
Qed.

Lemma ltb_not_nan a b : ltb a b = true -> isNaN a = false /\ isNaN b = false.
Proof. destruct a, b; cbn; auto; discriminate. Qed.

Lemma comparable_zero : comparable zero.
Proof. split; reflexivity. Qed.

Lemma comparable_one : comparable one.
Proof. split; reflexivity. Qed.

Lemma running_max_cons x xs start :
  running_max (x :: xs) start = running_max xs (if ltb start x then x else start).
Proof. reflexivity. Qed.

Lemma running_max_spec xs : forall start,
  comparable start -> Forall binary64 xs ->
  let m := running_max xs start in
  comparable m /\ ord start <= ord m /\
  (forall v, In v xs -> isNaN v = false -> ord v <= ord m) /\
  (m = start \/ (In m xs /\ ord start < ord m)).
Proof.
  induction xs as [|x xs IH]; intros start Hs Hxs; cbv zeta.
  - change (running_max [] start) with start.
    split; [exact Hs|split; [lia|split; [intros v []|left; reflexivity]]].
  - inversion Hxs as [|? ? Hx Hxs']; subst.
    rewrite running_max_cons.
    destruct (ltb start x) eqn:E.
    + assert (Cx : comparable x) by (split; [exact Hx|apply (ltb_not_nan _ _ E)]).
      apply (ltb_ord _ _ Hs Cx) in E.
      destruct (IH x Cx Hxs') as (Cm & Hle & Hall & Hat).
      cbv zeta in *.
      split; [exact Cm|split; [lia|split]].
      * intros v [<-|Hv] Nv; [exact Hle|apply Hall; assumption].
      * right. destruct Hat as [->|[Hin Hlt]].
        -- split; [left; reflexivity|exact E].
        -- split; [right; exact Hin|lia].
    + destruct (IH start Hs Hxs') as (Cm & Hle & Hall & Hat).
      cbv zeta in *.
      split; [exact Cm|split; [lia|split]].
      * intros v [Ev|Hv] Nv; [subst v|apply Hall; assumption].
        assert (Cx : comparable x) by (split; assumption).
        destruct (Z.le_gt_cases (ord x) (ord start)) as [|Hgt]; [lia|].
        apply (ltb_ord _ _ Hs Cx) in Hgt. congruence.
      * destruct Hat as [->|[Hin Hlt]]; [left; reflexivity|right].
        split; [right; exact Hin|exact Hlt].
Qed.

Lemma running_max_map {E} (f : E -> num) (l : list E) : forall start,
  fold_left (fun max e => if gtb (f e) max then f e else max) l start
  = running_max (map f l) start.
Proof.
  induction l as [|e l IH]; intros start; [reflexivity|].
  cbn [fold_left map running_max]. apply IH.
Qed.

End JsMathFacts.

Module RuntimeFacts.
Import Trakt TraktRuntimeData MaxSpec JsMathFacts.

(** X3.  [getMaxRuntime] never returns NaN or a negative number.  It is
    at least the runtime of every entry whose runtime is not NaN, and it
    is either 0 (for no entries, and when no runtime is positive) or the
    positive runtime of one of the entries. *)
Theorem getMaxRuntime_greatest (entries : list RuntimeSummaryEntry) :
  (forall e, In e entries -> binary64 (total_runtime e)) ->
  let m := getMaxRuntime entries in
  isNaN m = false /\ leb zero m = true /\
  (forall e, In e entries -> isNaN (total_runtime e) = false ->
             leb (total_runtime e) m = true) /\
  (m = zero \/
   exists e, In e entries /\ total_runtime e = m /\ ltb zero m = true).
Proof.
  intros Hb. cbv zeta. unfold getMaxRuntime. rewrite running_max_map.
  assert (Hxs : Forall binary64 (map total_runtime entries)).
  { apply Forall_forall. intros v Hv. apply in_map_iff in Hv as (e & <- & He).
    apply Hb. exact He. }
  destruct (running_max_spec _ zero comparable_zero Hxs) as (Cm & Hle & Hall & Hat).
  cbv zeta in *. set (m := running_max (map total_runtime entries) zero) in *.
  repeat split.
  - apply Cm.
  - apply leb_ord; [apply comparable_zero|exact Cm|exact Hle].
  - intros e He Ne. apply leb_ord; [split; [apply Hb; exact He|exact Ne]|exact Cm|].
    apply Hall; [apply in_map; exact He|exact Ne].
  - destruct Hat as [->|[Hin Hlt]]; [left; reflexivity|right].
    apply in_map_iff in Hin as (e & E & He). exists e.
    repeat split; try assumption.
    apply ltb_ord; [apply comparable_zero|exact Cm|exact Hlt].
Qed.

End RuntimeFacts.
Module YearHeatmapFacts.
Import YearHeatmap MaxSpec JsMathFacts.

Lemma Math_max_one r :
  isNaN r = false -> Math_max one r = if ltb one r then r else one.
Proof. destruct r; try discriminate; reflexivity. Qed.

Section Entries.
Context {E : Type}.
Variable date_of : E -> string.
Variable value_of : E -> string -> jsval.

(** X4.  The upper end [maxValue] of the colour scale of a year is
    never NaN and never below 1.  It is at least the plotted value
    [Number(e[yField] ?? 0)] of every entry of the year whose value is
    not NaN, and it is either 1 or the value, greater than 1, of one of
    the entries of the year. *)
Theorem maxValue_scale (entries : list E) (year : intnum)
        (yField : option string) :
  let field := match yField with Some f => f | None => "total_runtime" end in
  let value := fun e => ToNumber (or_zero (value_of e field)) in
  (forall e, In e entries -> binary64 (value e)) ->
  let m := maxValue date_of value_of entries year yField in
  isNaN m = false /\ leb one m = true /\
  (forall e, In e (yearEntries date_of entries year) ->
             isNaN (value e) = false -> leb (value e) m = true) /\
  (m = one \/
   exists e, In e (yearEntries date_of entries year) /\
             value e = m /\ ltb one m = true).
Proof.
  intros field value Hb. cbv zeta. unfold maxValue. fold field.
  change (fun max e => if gtb (ToNumber (or_zero (value_of e field))) max
                       then ToNumber (or_zero (value_of e field)) else max)
    with (fun max e => if gtb (value e) max then value e else max).
  rewrite running_max_map.
  set (ys := yearEntries date_of entries year).
  assert (Hxs : Forall binary64 (map value ys)).
  { apply Forall_forall. intros v Hv. apply in_map_iff in Hv as (e & <- & He).
    apply Hb. unfold ys, yearEntries in He. apply filter_In in He. apply He. }
  destruct (running_max_spec _ zero comparable_zero Hxs) as (Cr & Hle & Hall & Hat).
  cbv zeta in *. set (r := running_max (map value ys) zero) in *.
  rewrite Math_max_one by apply Cr.
  destruct (ltb one r) eqn:E1.
  - pose proof (proj1 (ltb_ord _ _ comparable_one Cr) E1) as Hlt.
    split; [apply Cr|]. split; [apply leb_ord; [apply comparable_one|exact Cr|lia]|].
    split.
    + intros e He Ne. apply leb_ord; [split; [|exact Ne]|exact Cr|].
      * apply Hb. unfold ys, yearEntries in He. apply filter_In in He. apply He.
      * apply Hall; [apply in_map; exact He|exact Ne].
    + right. destruct Hat as [Hz|[Hin _]].
      * rewrite Hz in E1. discriminate.
      * apply in_map_iff in Hin as (e & Ee & He). exists e. auto.
  - assert (Hge : ord r <= ord one).
    { destruct (Z.le_gt_cases (ord r) (ord one)) as [|Hgt]; [assumption|].
      apply (ltb_ord _ _ comparable_one Cr) in Hgt. congruence. }
    split; [reflexivity|]. split; [reflexivity|]. split; [|left; reflexivity].
    intros e He Ne.
    assert (Ce : comparable (value e)).
    { split; [|exact Ne]. apply Hb. unfold ys, yearEntries in He.
      apply filter_In in He. apply He. }
    apply leb_ord; [exact Ce|apply comparable_one|].
    specialize (Hall (value e) (in_map value ys e He) Ne). lia.
Qed.
End Entries.

End YearHeatmapFacts.
(** * Years and heat maps *)

Module YearsFacts.
Import JsSetFacts JsIntFacts YearsSpec.

Lemma filter_disjoint {A} (p q : A -> bool) l :
  (forall a, In a l -> p a = true -> q a = false) ->
  Permutation (filter p l ++ filter q l) (filter (fun a => p a || q a) l).
Proof.
  induction l as [|a l IH]; intros H; cbn [filter app]; [constructor|].
  assert (IH' := IH (fun b Hb => H b (or_intror Hb))).
  destruct (p a) eqn:Ep.
  - rewrite (H a (or_introl eq_refl) Ep). cbn [orb app].
    constructor. exact IH'.
  - cbn [orb]. destruct (q a).
    + symmetry. apply Permutation_cons_app. symmetry. exact IH'.
    + exact IH'.
Qed.

Section Keyed.
Context {E : Type}.
Variable year_of : E -> intnum.

(** The entries of the years [ys], year after year, are the entries
    whose year is among [ys], each once. *)
Lemma by_year_partition (data : list E) (ys : list intnum) :
  NoDup ys ->
  Permutation
    (flat_map (fun y => filter (fun e => strict_eqb (year_of e) y) data) ys)
    (filter (fun e => existsb (strict_eqb (year_of e)) ys) data).
Proof.
  induction 1 as [|y ys Hy Hn IH]; cbn [flat_map existsb].
  - induction data as [|e data IHd]; [constructor|exact IHd].
  - eapply Permutation_trans; [apply Permutation_app_head; exact IH|].
    apply filter_disjoint. intros e _ He.
    destruct (existsb (strict_eqb (year_of e)) ys) eqn:Ex; [|reflexivity].
    exfalso. apply existsb_exists in Ex as (y' & Hy' & He').
    destruct y as [n|]; [|destruct (year_of e); discriminate].
    destruct y' as [n'|]; [|destruct (year_of e); discriminate].
    apply strict_eqb_eq in He, He'. rewrite He in He'. injection He' as ->.
    contradiction.
Qed.

Lemma collected_spec data :
  NoDup (collected year_of data) /\
  forall y, In y (collected year_of data) <-> exists e, In e data /\ year_of e = y.
Proof.
  destruct (fold_add year_of data [] (NoDup_nil _)) as [Hn Hi].
  split; [exact Hn|]. intros y. rewrite (Hi y). split.
  - intros [[]|H]. exact H.
  - auto.
Qed.

Lemma sorted_years_spec data :
  let ys := JsArray.sort (fun a b => isign (isub a b)) (collected year_of data) in
  NoDup ys /\
  forall y, In y ys <-> exists e, In e data /\ year_of e = y.
Proof.
  cbv zeta. destruct (collected_spec data) as [Hn Hi]. split.
  - eapply Permutation_NoDup; [symmetry; apply sort_perm|exact Hn].
  - intros y. rewrite sort_In. apply Hi.
Qed.
End Keyed.

Lemma igeb_2019 y :
  igeb y (Some 2019) = true <-> exists n, y = Some n /\ 2019 <= n.
Proof.
  destruct y as [n|]; cbn.
  - rewrite Z.leb_le. split; [eauto|]. intros (m & E & H). congruence.
  - split; [discriminate|]. intros (m & E & _). discriminate.
Qed.

Lemma strict_eqb_NaN a : strict_eqb a None = false.
Proof. destruct a; reflexivity. Qed.

Lemma NoDup_filter {A} (p : A -> bool) l : NoDup l -> NoDup (filter p l).
Proof.
  induction 1 as [|a l Ha Hn IH]; cbn; [constructor|].
  destruct (p a); [|exact IH]. constructor; [|exact IH].
  intros H. apply filter_In in H. tauto.
Qed.

Lemma sorted_filter {A} (R : A -> A -> Prop) (p : A -> bool) l :
  StronglySorted R l -> StronglySorted R (filter p l).
Proof.
  induction 1 as [|a l Hs IH Ha]; cbn; [constructor|].
  destruct (p a); [|exact IH]. constructor; [exact IH|].
  rewrite Forall_forall in *. intros b Hb. apply filter_In in Hb. apply Ha, Hb.
Qed.

End YearsFacts.

Module TraktRuntimeFacts.
Import Trakt TraktRuntimeData YearsSpec YearsFacts JsIntFacts.
Import CallsSpec GroupYearsFacts.

Lemma groupYears_spec data :
  NoDup (groupYears data) /\
  forall y, In y (groupYears data) <->
            exists e, In e data /\ getYearFromISO (date e) = y.
Proof. apply (sorted_years_spec (fun e => getYearFromISO (date e))). Qed.

Lemma groupYears_sorted data :
  (forall e, In e data -> of_iso_day (date e) <> None) ->
  exists ns, groupYears data = map Some ns /\ StronglySorted Z.lt ns.
Proof.
  intros Hvalid. destruct (groupYears_spec data) as [Hn Hi].
  assert (Hsome : forall a, In a (groupYears data) -> a <> None).
  { intros a Ha. apply Hi in Ha as (e & He & <-). specialize (Hvalid e He).
    unfold getYearFromISO. destruct (of_iso_day (date e)); [discriminate|congruence]. }
  exists (map year_key (groupYears data)). split; [apply map_Some_key; exact Hsome|].
  apply strictly_sorted.
  - apply sorted_map_key. unfold groupYears. apply sort_sorted.
    apply by_difference_keyed. intros a Ha. apply Hsome.
    unfold groupYears. apply sort_In. exact Ha.
  - apply (NoDup_map_inv Some). rewrite <- map_Some_key by exact Hsome. exact Hn.
Qed.

Lemma years_in data :
  let ys := Heatmaps.years groupYears data in
  NoDup ys /\
  forall y, In y ys <->
            exists n, y = Some n /\ 2019 <= n /\
                      exists e, In e data /\ getYearFromISO (date e) = Some n.
Proof.
  cbv zeta. unfold Heatmaps.years.
  destruct (groupYears_spec data) as [Hn Hi]. split.
  - apply NoDup_filter. exact Hn.
  - intros y. rewrite filter_In, igeb_2019, Hi. split.
    + intros ((e & He & Ey) & n & -> & Hn'). exists n. eauto.
    + intros (n & -> & Hn' & e & He & Ey). split; eauto.
Qed.

(** X5.  The years a heat-map page shows,
    [groupYears(data).filter((y) => y >= 2019)], are the years from 2019
    on in which some entry is dated, each once; NaN, the year of a date
    that names no day, is never among them.  When every date names a
    day they stand in strictly ascending order. *)
Theorem years_shown (data : list RuntimeSummaryEntry) :
  let ys := Heatmaps.years groupYears data in
  NoDup ys /\
  (forall y, In y ys <->
             exists n, y = Some n /\ 2019 <= n /\
                       exists e, In e data /\ getYearFromISO (date e) = Some n) /\
  ((forall e, In e data -> of_iso_day (date e) <> None) ->
   exists ns, ys = map Some ns /\ StronglySorted Z.lt ns).
Proof.
  cbv zeta. destruct (years_in data) as [Hn Hi].
  split; [exact Hn|split; [exact Hi|]].
  unfold Heatmaps.years. intros Hvalid. destruct (groupYears_sorted data Hvalid) as (ns & E & Hs).
  rewrite E. exists (filter (fun n => 2019 <=? n) ns). split.
    + clear. induction ns as [|n ns IH]; [reflexivity|]. cbn [map filter igeb].
      destruct (2019 <=? n); cbn [map]; rewrite IH; reflexivity.
    + apply sorted_filter. exact Hs.
Qed.

(** X6.  The heat maps of a page, one per year shown, each drawing the
    entries [YearHeatmap] keeps for its year, together draw every entry
    dated in 2019 or later exactly once and no other entry. *)
Theorem heatmaps_partition (data : list RuntimeSummaryEntry) :
  Permutation
    (flat_map (YearHeatmap.yearEntries date data)
              (Heatmaps.years groupYears data))
    (since_2019 (fun e => getYearFromISO (date e)) data).
Proof.
  destruct (years_in data) as (Hn & Hi).
  unfold YearHeatmap.yearEntries.
  eapply Permutation_trans.
  - apply (by_year_partition (fun e => getUTCFullYear (of_iso_day (date e)))).
    exact Hn.
  - unfold since_2019. erewrite filter_ext_in; [apply Permutation_refl|].
    intros e He. cbv beta. fold (getYearFromISO (date e)).
    apply eq_true_iff_eq. rewrite existsb_exists, igeb_2019. split.
    + intros (y & Hy & Ey). apply Hi in Hy as (n & -> & Hn' & _).
      apply strict_eqb_eq in Ey. eauto.
    + intros (n & Ey & Hn'). exists (Some n). split.
      * apply Hi. exists n. repeat split; try assumption. eauto.
      * apply strict_eqb_eq. exact Ey.
Qed.

(** X7.  [filterEntriesByYear] keeps, in their order, the entries dated
    in the given year, and none for the year NaN.  The years of
    [groupYears] other than NaN are the years for which it keeps an
    entry, and its results for the years of [groupYears] together hold
    every entry whose date names a day exactly once. *)
Theorem filterEntriesByYear_groups (data : list RuntimeSummaryEntry) :
  filterEntriesByYear data None = [] /\
  (forall n, In (Some n) (groupYears data) <->
             filterEntriesByYear data (Some n) <> []) /\
  Permutation
    (flat_map (filterEntriesByYear data) (groupYears data))
    (dated_entries (fun e => getYearFromISO (date e)) data).
Proof.
  destruct (groupYears_spec data) as [Hn Hi]. split; [|split].
  - unfold filterEntriesByYear. clear.
    induction data as [|e data IH]; [reflexivity|].
    cbn [filter]. rewrite strict_eqb_NaN. exact IH.
  - intros n. rewrite Hi. unfold filterEntriesByYear. split.
    + intros (e & He & Ey) Hnil.
      assert (Hin : In e (filter (fun e => strict_eqb (getYearFromISO (date e)) (Some n)) data)).
      { apply filter_In. split; [exact He|]. apply strict_eqb_eq. exact Ey. }
      rewrite Hnil in Hin. exact Hin.
    + intros Hne.
      destruct (filter (fun e => strict_eqb (getYearFromISO (date e)) (Some n)) data)
        as [|e l] eqn:El; [congruence|].
      assert (Hin : In e (e :: l)) by (left; reflexivity).
      rewrite <- El in Hin. apply filter_In in Hin as [He Ey].
      apply strict_eqb_eq in Ey. eauto.
  - unfold filterEntriesByYear.
    eapply Permutation_trans.
    + apply (by_year_partition (fun e => getYearFromISO (date e))). exact Hn.
    + unfold dated_entries. erewrite filter_ext_in; [apply Permutation_refl|].
      intros e He. cbv beta. apply eq_true_iff_eq. rewrite existsb_exists. split.
      * intros (y & Hy & Ey). destruct (getYearFromISO (date e)); [reflexivity|].
        discriminate.
      * destruct (getYearFromISO (date e)) as [n|] eqn:Ey; [|discriminate].
        intros _. exists (Some n). split; [apply Hi; eauto|].
        apply strict_eqb_eq. reflexivity.
Qed.

End TraktRuntimeFacts.
(** * The order of the buckets *)

Module BucketFacts.
Import Trakt TraktGenreAggregation AggregationSpec BucketSpec.
Import AccumulateFacts KeyFacts RankFacts JsSetFacts JsIntFacts YearsFacts.
Import CallsSpec GroupYearsFacts.

Lemma NoDup_map_on {A B} (f : A -> B) l :
  (forall a b, In a l -> In b l -> f a = f b -> a = b) ->
  NoDup l -> NoDup (map f l).
Proof.
  intros Hinj. induction 1 as [|a l Ha Hn IH]; cbn; constructor.
  - intros Hin. apply in_map_iff in Hin as (b & E & Hb).
    assert (b = a) by (apply Hinj; [right; exact Hb|left; reflexivity|exact E]).
    subst. contradiction.
  - apply IH. intros x y Hx Hy. apply Hinj; right; assumption.
Qed.

Lemma sorted_map_rank {A} (key : A -> Z) l :
  StronglySorted (le_key key) l -> StronglySorted Z.le (map key l).
Proof.
  induction 1 as [|x l Hs IH Hx]; cbn; constructor; [exact IH|].
  rewrite Forall_forall in *. intros y Hy.
  apply in_map_iff in Hy as (z & <- & Hz). apply Hx. exact Hz.
Qed.

Lemma sorted_of_rank {A} (key : A -> Z) (R : A -> A -> Prop) l :
  (forall a b, In a l -> In b l -> key a < key b -> R a b) ->
  StronglySorted Z.lt (map key l) -> StronglySorted R l.
Proof.
  induction l as [|a l IH]; intros HR Hs; [constructor|].
  cbn [map] in Hs. inversion Hs as [|? ? Hs' Ha]; subst. constructor.
  - apply IH; [|exact Hs']. intros x y Hx Hy. apply HR; right; assumption.
  - rewrite Forall_forall in *. intros b Hb. apply HR; [left; reflexivity|right; exact Hb|].
    apply Ha. apply in_map. exact Hb.
Qed.

Lemma by_year_month_rank a b :
  calendar_month a -> calendar_month b ->
  by_year_month a b = (month_rank a ?= month_rank b).
Proof.
  intros (ya & ma & Ya & Ma & Ha) (yb & mb & Yb & Mb & Hb).
  unfold by_year_month, month_rank. rewrite Ya, Ma, Yb, Mb. cbn [isub ior].
  destruct (Z.eqb_spec (ya - yb) 0) as [E|E]; cbn [isign];
    match goal with
    | |- (?a ?= ?b) = (?c ?= ?d) =>
        destruct (Z.compare_spec a b), (Z.compare_spec c d)
    end; try reflexivity; lia.
Qed.

Lemma rank_earlier a b :
  calendar_month a -> calendar_month b ->
  month_rank a < month_rank b -> earlier_month a b.
Proof.
  intros (ya & ma & Ya & Ma & Ha) (yb & mb & Yb & Mb & Hb).
  unfold month_rank. rewrite Ya, Ma, Yb, Mb. intros H.
  exists ya, ma, yb, mb. repeat split; try assumption. lia.
Qed.

Section Field.
Variable field : RuntimeSummaryEntry -> option (list GenreCount).
Variable cut : list GenreCount -> list GenreCount.
Variable entries : list RuntimeSummaryEntry.
Hypothesis Hvalid : forall e, In e entries -> of_iso_day (date e) <> None.

Lemma valid_entry_month e :
  In e entries ->
  exists y m, entry_year e = Some y /\ entry_month e = Some m /\
              0 <= y <= 9999 /\ 1 <= m <= 12.
Proof.
  intros He. specialize (Hvalid e He).
  unfold entry_year, entry_month, getYearFromISO.
  destruct (of_iso_day (date e)) as [f|] eqn:E; [|congruence].
  destruct (of_iso_day_range _ _ E) as [Hy Hm].
  exists (f_year f), (f_month f). cbn. repeat split; try lia.
  f_equal. lia.
Qed.

Lemma materialized kv :
  In kv (accumulate field entries) ->
  exists e, In e entries /\ fst kv = month_key e /\
            snd kv = counter field entries (month_key e) /\
            year (materialize cut kv) = entry_year e /\
            month (materialize cut kv) = entry_month e.
Proof.
  destruct kv as [km gm]. intros Hin.
  apply accumulate_In in Hin as [Hf ->].
  apply filed_In in Hf as (e & He & <-). exists e.
  destruct (month_key_reads_back e) as [Hy Hm].
  unfold materialize. cbn [fst snd year month]. auto.
Qed.

Lemma materialized_calendar b :
  In b (map (materialize cut) (accumulate field entries)) -> calendar_month b.
Proof.
  intros Hb. apply in_map_iff in Hb as (kv & <- & Hkv).
  destruct (materialized kv Hkv) as (e & He & _ & _ & Hy & Hm).
  destruct (valid_entry_month e He) as (y & m & Ey & Em & _ & Hm').
  exists y, m. rewrite Hy, Hm. auto.
Qed.

Lemma materialized_ranks :
  NoDup (map month_rank (map (materialize cut) (accumulate field entries))).
Proof.
  rewrite map_map. apply NoDup_map_on.
  - intros a b Ha Hb E.
    destruct (materialized a Ha) as (ea & Hea & Ka & Ga & Ya & Ma).
    destruct (materialized b Hb) as (eb & Heb & Kb & Gb & Yb & Mb).
    destruct (valid_entry_month ea Hea) as (y1 & m1 & Ey1 & Em1 & _ & Hm1).
    destruct (valid_entry_month eb Heb) as (y2 & m2 & Ey2 & Em2 & _ & Hm2).
    unfold month_rank in E. rewrite Ya, Ma, Yb, Mb, Ey1, Em1, Ey2, Em2 in E.
    assert (y1 = y2 /\ m1 = m2) as [-> ->] by lia.
    assert (Hk : month_key ea = month_key eb).
    { unfold month_key. rewrite Ey1, Em1, Ey2, Em2. reflexivity. }
    destruct a as [ka ga], b as [kb gb]. cbn [fst snd] in *.
    rewrite Ka, Kb, Ga, Gb, Hk. reflexivity.
  - apply (NoDup_map_inv fst). apply (accumulate_spec field entries).
Qed.

Lemma aggregate_sorted :
  StronglySorted earlier_month
    (JsArray.sort by_year_month
       (map (materialize cut) (accumulate field entries))).
Proof.
  set (l := map (materialize cut) (accumulate field entries)).
  assert (Hk : keyed by_year_month month_rank l).
  { intros a b Ha Hb. apply by_year_month_rank; apply materialized_calendar; assumption. }
  apply (sorted_of_rank month_rank).
  - intros a b Ha Hb. apply rank_earlier; apply materialized_calendar;
      apply (sort_In by_year_month); assumption.
  - apply strictly_sorted.
    + apply sorted_map_rank, sort_sorted. exact Hk.
    + eapply Permutation_NoDup; [|exact materialized_ranks].
      apply Permutation_map. symmetry. apply sort_perm.
Qed.
End Field.

(** X8.  When every date names a day, the buckets returned by
    [aggregateGenresByMonth] and by [aggregateSubgenresByMonth] stand in
    chronological order, by year and within a year by month, each month
    before every later bucket: no month has two buckets. *)
Theorem buckets_chronological (entries : list RuntimeSummaryEntry)
        (limit : option Z) :
  (forall e, In e entries -> of_iso_day (date e) <> None) ->
  StronglySorted earlier_month (aggregateGenresByMonth entries) /\
  StronglySorted earlier_month (aggregateSubgenresByMonth entries limit).
Proof.
  intros Hvalid. split; apply aggregate_sorted; exact Hvalid.
Qed.

Lemma fold_add_if {A} (p : A -> bool) (f : A -> intnum) l : forall s,
  fold_left (fun set m => if p m then JsSet.add (f m) set else set) l s
  = fold_left (fun set m => JsSet.add (f m) set) (filter p l) s.
Proof.
  induction l as [|a l IH]; intros s; cbn [fold_left filter]; [reflexivity|].
  destruct (p a); cbn [fold_left]; apply IH.
Qed.

(** X9.  The years of the genre page, taken from the buckets of
    [aggregateGenresByMonth], are the years from 2019 on that
    [getYearFromISO] reads off the date of some entry, each once and in
    strictly ascending order, whatever the entries: an entry whose
    year is read as NaN contributes none, and no NaN reaches the sort. *)
Theorem genre_page_years (entries : list RuntimeSummaryEntry) :
  exists ns,
    TraktGenres.years (aggregateGenresByMonth entries) = map Some ns /\
    StronglySorted Z.lt ns /\
    forall n, In n ns <->
              2019 <= n /\ exists e, In e entries /\ entry_year e = Some n.
Proof.
  unfold TraktGenres.years. rewrite fold_add_if.
  set (monthly := aggregateGenresByMonth entries).
  set (recent := filter (fun m => igeb (year m) (Some 2019)) monthly).
  destruct (fold_add year recent [] (NoDup_nil _)) as [Hn Hi].
  set (set := fold_left (fun set m => JsSet.add (year m) set) recent []) in *.
  set (cmp := fun a b => isign (isub a b)).
  assert (Hmem : forall y, In y set <->
            exists n, y = Some n /\ 2019 <= n /\
                      exists e, In e entries /\ entry_year e = Some n).
  { intros y. rewrite Hi. split.
    - intros [[]|(b & Hb & <-)]. apply filter_In in Hb as [Hb Hy].
      apply igeb_2019 in Hy as (n & Ey & Hn'). exists n. repeat split; try assumption.
      apply bucket_iff in Hb as (e & He & Hy' & _). exists e. split; [exact He|congruence].
    - intros (n & -> & Hn' & e & He & Ey). right.
      exists {| year := entry_year e; month := entry_month e;
                genres := ranked Trakt.genres entries (month_key e) |}.
      split; [|exact Ey]. apply filter_In. split.
      + apply bucket_iff. exists e. auto.
      + cbn [year]. rewrite Ey. apply igeb_2019. eauto. }
  assert (Hsome : forall a, In a (JsArray.sort cmp set) -> a <> None).
  { intros a Ha. apply sort_In, Hmem in Ha as (n & -> & _). discriminate. }
  exists (map year_key (JsArray.sort cmp set)).
  assert (Hnd : NoDup (map year_key (JsArray.sort cmp set))).
  { apply (NoDup_map_inv Some). rewrite <- map_Some_key by exact Hsome.
    eapply Permutation_NoDup; [symmetry; apply sort_perm|exact Hn]. }
  split; [apply map_Some_key; exact Hsome|]. split.
  - apply strictly_sorted; [|exact Hnd].
    apply sorted_map_key, sort_sorted. apply by_difference_keyed.
    intros a Ha. apply Hsome, sort_In. exact Ha.
  - intros n. split.
    + intros Hin. apply (in_map Some) in Hin.
      rewrite <- map_Some_key in Hin by exact Hsome.
      apply sort_In, Hmem in Hin as (n' & E & Hn' & He). injection E as ->. auto.
    + intros [Hn' He].
      assert (Hin : In (Some n) (JsArray.sort cmp set)).
      { apply sort_In, Hmem. exists n. auto. }
      rewrite (map_Some_key _ Hsome) in Hin.
      apply in_map_iff in Hin as (z & E & Hz). injection E as ->. exact Hz.
Qed.

End BucketFacts.
(** * The other loaders *)

Module LoaderFacts.
Import LoaderSpec.










(** X13.  A date-keyed object and the array that says the same, element
    [{date: key, count: value}] for pair [key: value], load alike:
    [loadPhotosSummary] ends in the same result for both, under whatever
    status they are served. *)
Theorem photos_shapes_agree (number_of : string -> num)
        (pairs : list (string * jsval))
        (served : bool) (code : Z) (text : string) :
  GooglePhotosData.loadPhotosSummary
    (mkResponse served code text (JsonObject pairs))
  = GooglePhotosData.loadPhotosSummary
      (mkResponse served code text
         (JsonArray (map (record_of_pair number_of) pairs))).
Proof.
  unfold GooglePhotosData.loadPhotosSummary. cbn [ok status statusText json].
  destruct served; cbn [negb]; [|reflexivity].
  assert (E : GooglePhotosData.map_records (map (record_of_pair number_of) pairs)
              = GooglePhotosData.map_pairs pairs).
  { induction pairs as [|kv pairs IH]; [reflexivity|].
    cbn [map GooglePhotosData.map_records GooglePhotosData.map_pairs].
    rewrite IH. unfold record_of_pair at 1 2. cbn [prop lookup String.eqb].
    unfold StringOf at 1. cbn [converts mkVal ToString asString].
    cbn. destruct (NumberOf (snd kv)); reflexivity. }
  rewrite E. reflexivity.
Qed.

(** X14.  What [loadCallsSummary] ends in, and why.  It rejects with the
    reason [fetch] rejects with.  Once [fetch] has resolved, it returns
    only for an ok response whose body is an array every truthy record of
    which has a date and numeric fields that convert; [null] and the other
    falsy elements are skipped, not failed on, and there are never more
    entries than elements.  It fails with the transport error when the
    response is not ok, with the rejection of a body that is no JSON, with
    the shape error when the document is no array, and with a TypeError
    when a truthy record has a field that does not convert. *)
Theorem loadCallsSummary_outcomes (fetched : Completion Response) :
  match fetching CallsData.loadCallsSummary fetched with
  | Return entries =>
      exists response items,
        fetched = Return response /\ ok response = true /\
        json response = JsonArray items /\
        forallb CallsSpec.converts_record items = true /\
        (List.length entries <= List.length items)%nat /\
        Forall2 (fun d e => CallsData.normalizeCallEntry d = Return (Some e))
                (filter CallsSpec.accepted items) entries
  | Throw e =>
      fetched = Throw e \/
      exists response,
        fetched = Return response /\
        ((ok response = false /\ e = transport_error "Calls summary" response) \/
         (ok response = true /\ json response = JsonRejected e) \/
         (ok response = true /\ parsed (json response) = true /\
          is_array (json response) = false /\
          e = Error "Invalid Calls summary shape: expected an array") \/
         (ok response = true /\ e = TypeError /\
          exists items, json response = JsonArray items /\
                        forallb CallsSpec.converts_record items = false))
  end.
Proof.
  destruct fetched as [response|reason]; cbn [fetching]; [|left; reflexivity].
  destruct (ok response) eqn:Hok.
  - destruct (json response) as [items|entries| |reason] eqn:Hj.
    + destruct (forallb CallsSpec.converts_record items) eqn:Hc.
      * destruct (CallsFacts.load_returns response items Hok Hj Hc)
          as (entries & -> & Hall).
        exists response, items. repeat split; try assumption.
        apply Forall2_length in Hall. rewrite <- Hall.
        apply filter_length_le.
      * rewrite (CallsFacts.load_throws response items Hok Hj Hc).
        right. exists response. split; [reflexivity|].
        right. right. right. split; [exact Hok|]. split; [reflexivity|].
        exists items. auto.
    + unfold CallsData.loadCallsSummary. rewrite Hok, Hj. cbn [negb].
      right. exists response. split; [reflexivity|].
      rewrite Hok, Hj. cbn. tauto.
    + unfold CallsData.loadCallsSummary. rewrite Hok, Hj. cbn [negb].
      right. exists response. split; [reflexivity|].
      rewrite Hok, Hj. cbn. tauto.
    + unfold CallsData.loadCallsSummary. rewrite Hok, Hj. cbn [negb].
      right. exists response. split; [reflexivity|].
      rewrite Hok, Hj. cbn. tauto.
  - unfold CallsData.loadCallsSummary. rewrite Hok. cbn [negb].
    right. exists response. split; [reflexivity|]. left. auto.
Qed.


End LoaderFacts.
(** * The tally of the frequency counter *)

Module TallyFacts.
Import FrequencyCounter FrequencyCounterSpec TallySpec.
Import FrequencyCounterFacts KeyFacts.




Section Feed.
Variable api : nat -> option string -> option Page.


End Feed.


End TallyFacts.
Module DayKeyFacts.
Import FrequencyCounter TallySpec KeyFacts.

Lemma year_table_1000 : forallb four_digits years_1000_9999 = true.
Proof. vm_cast_no_check (eq_refl true). Qed.

Lemma day_table_31 : forallb two_digits days_1_31 = true.
Proof. vm_compute. reflexivity. Qed.

Lemma four_digits_spec y :
  1000 <= y <= 9999 ->
  exists a b c d,
    list_ascii_of_string (string_of_Z y) = [a; b; c; d] /\
    is_digit a = true /\ is_digit b = true /\
    is_digit c = true /\ is_digit d = true /\
    digits_value [a; b; c; d] = y.
Proof.
  intros Hy. pose proof year_table_1000 as H. rewrite forallb_forall in H.
  specialize (H y). unfold four_digits in H.
  destruct (list_ascii_of_string (string_of_Z y)) as [|a [|b [|c [|d [|]]]]];
    try (discriminate H; unfold years_1000_9999; apply zrange_In; lia).
  exists a, b, c, d.
  assert (Hin : In y years_1000_9999) by (unfold years_1000_9999; apply zrange_In; lia).
  specialize (H Hin).
  apply andb_prop in H as [H H5]. apply andb_prop in H as [H H4].
  apply andb_prop in H as [H H3]. apply andb_prop in H as [H1 H2].
  apply Z.eqb_eq in H5. auto 10.
Qed.

Lemma two_digits_spec n :
  1 <= n <= 31 ->
  exists a b,
    list_ascii_of_string (padStart2 (string_of_Z n)) = [a; b] /\
    is_digit a = true /\ is_digit b = true /\ digits_value [a; b] = n.
Proof.
  intros Hn. pose proof day_table_31 as H. rewrite forallb_forall in H.
  specialize (H n). unfold two_digits in H.
  destruct (list_ascii_of_string (padStart2 (string_of_Z n))) as [|a [|b [|]]];
    try (discriminate H; unfold days_1_31; apply zrange_In; lia).
  exists a, b.
  assert (Hin : In n days_1_31) by (unfold days_1_31; apply zrange_In; lia).
  specialize (H Hin).
  apply andb_prop in H as [H H3]. apply andb_prop in H as [H1 H2].
  apply Z.eqb_eq in H3. auto.
Qed.

Lemma civil_year_bounds y m d :
  1 <= m <= 12 -> 1 <= d <= 31 ->
  -354285 <= days_from_civil y m d < 2932897 -> 1000 <= y <= 9999.
Proof.
  unfold days_from_civil. intros Hm Hd.
  destruct (Z.leb_spec m 2) as [L1|L1], (Z.ltb_spec 2 m) as [L2|L2]; try lia;
    intros Hz; Z.div_mod_to_equations; lia.
Qed.

End DayKeyFacts.
Module DayKeyRoundTrip.
Import FrequencyCounter TallySpec KeyFacts DayKeyFacts.

Lemma days_in_month_le y m : days_in_month y m <= 31.
Proof.
  unfold days_in_month. destruct (m =? 2); [destruct (is_leap y); lia|].
  destruct ((m =? 4) || (m =? 6) || (m =? 9) || (m =? 11)); lia.
Qed.

Lemma ymd_text y m d a b c e m1 m2 d1 d2 :
  list_ascii_of_string (string_of_Z y) = [a; b; c; e] ->
  list_ascii_of_string (padStart2 (string_of_Z m)) = [m1; m2] ->
  list_ascii_of_string (padStart2 (string_of_Z d)) = [d1; d2] ->
  list_ascii_of_string (ymd (mkFields y m d))
  = [a; b; c; e; "-"%char; m1; m2; "-"%char; d1; d2].
Proof.
  intros Hy Hm Hd. unfold ymd. cbn [f_year f_month f_day].
  rewrite !list_ascii_app, Hy, Hm, Hd. reflexivity.
Qed.

Lemma ymd_reads_back f :
  1000 <= f_year f <= 9999 -> 1 <= f_month f <= 12 ->
  1 <= f_day f <= days_in_month (f_year f) (f_month f) ->
  day_pattern (ymd f) = true /\ of_iso_day (ymd f) = Some f.
Proof.
  destruct f as [y m d]. cbn [f_year f_month f_day]. intros Hy Hm Hd.
  pose proof (days_in_month_le y m) as Hdim.
  destruct (four_digits_spec y Hy) as (a & b & c & e & Ey & A & B & C & D & Vy).
  destruct (two_digits_spec m ltac:(lia)) as (m1 & m2 & Em & M1 & M2 & Vm).
  destruct (two_digits_spec d ltac:(lia)) as (d1 & d2 & Ed & D1 & D2 & Vd).
  pose proof (ymd_text y m d _ _ _ _ _ _ _ _ Ey Em Ed) as Et.
  assert (Hp : day_pattern (ymd (mkFields y m d)) = true).
  { unfold day_pattern. rewrite Et, A, B, C, D, M1, M2, D1, D2. reflexivity. }
  split; [exact Hp|].
  unfold of_iso_day. rewrite Et, Hp, Vy, Vm, Vd.
  assert (Hr : (1 <=? m) && (m <=? 12) && (1 <=? d) && (d <=? days_in_month y m) = true).
  { rewrite !andb_true_iff, !Z.leb_le. lia. }
  rewrite Hr. reflexivity.
Qed.

(** X16.  The day key the frequency counter files an item under, for a
    local time from the year 1000 to the year 9999, has the day pattern
    the photo loader demands of a date, and read as a date it is the
    calendar day the key was made from; so the photo loader keeps the
    key with any finite count. *)
Theorem day_key_reads_back (ms : Z) :
  ms_year_1000 <= ms < ms_year_10000 ->
  let key := day_key (of_ms ms) in
  day_pattern key = true /\
  of_iso_day key = of_ms ms /\
  forall c, GooglePhotosData.keep
              {| GooglePhotosData.date := key; GooglePhotosData.count := c |}
            = isFinite c.
Proof.
  unfold ms_year_1000, ms_year_10000. intros Hms. cbv zeta.
  assert (Hof : of_ms ms = Some (civil_from_days (ms / msPerDay))).
  { unfold of_ms. destruct (Z.leb_spec (Z.abs ms) 8640000000000000); [reflexivity|lia]. }
  rewrite Hof.
  destruct (civil_from_days_correct (ms / msPerDay)) as (Hd & Hm & Hday).
  set (f := civil_from_days (ms / msPerDay)) in *.
  assert (Hy : 1000 <= f_year f <= 9999).
  { pose proof (days_in_month_le (f_year f) (f_month f)).
    apply (civil_year_bounds _ (f_month f) (f_day f)); [lia|lia|].
    rewrite Hd. unfold msPerDay. Z.div_mod_to_equations. lia. }
  assert (Ek : day_key (Some f) = ymd f).
  { unfold day_key, ymd, getUTCFullYear, getUTCMonth, getUTCDate.
    cbn [option_map iadd to_string].
    replace (f_month f - 1 + 1) with (f_month f) by lia. reflexivity. }
  rewrite Ek. destruct (ymd_reads_back f Hy Hm Hday) as [Hp Hr].
  split; [exact Hp|]. split; [exact Hr|].
  intros c. unfold GooglePhotosData.keep. cbn. rewrite Hp. apply andb_true_r.
Qed.

End DayKeyRoundTrip.
Module StatsFacts.
Import Trakt TraktGenreDisplay MonthlyWordcloud MaxSpec JsMathFacts.

Lemma ord_range x : comparable x -> - infinity_rank <= ord x <= infinity_rank.
Proof.
  intros [Hb Hn]. assert (0 < infinity_rank) by (apply Z.pow_pos_nonneg; lia).
  destruct x as [s|s| |s m e]; try discriminate; cbn [ord].
  - lia.
  - destruct s; cbn [cond_Zopp]; lia.
  - pose proof (ord_finite_bound m e Hb). destruct s; cbn [cond_Zopp]; lia.
Qed.

Lemma ord_least x : comparable x -> ord x <= - infinity_rank -> x = S754_infinity true.
Proof.
  intros [Hb Hn] H. assert (0 < infinity_rank) by (apply Z.pow_pos_nonneg; lia).
  destruct x as [s|s| |s m e]; try discriminate; cbn [ord] in H.
  - lia.
  - destruct s; [reflexivity|cbn [cond_Zopp] in H; lia].
  - pose proof (ord_finite_bound m e Hb). destruct s; cbn [cond_Zopp] in H; lia.
Qed.

Lemma ord_greatest x : comparable x -> infinity_rank <= ord x -> x = S754_infinity false.
Proof.
  intros [Hb Hn] H. assert (0 < infinity_rank) by (apply Z.pow_pos_nonneg; lia).
  destruct x as [s|s| |s m e]; try discriminate; cbn [ord] in H.
  - lia.
  - destruct s; [cbn [cond_Zopp] in H; lia|reflexivity].
  - pose proof (ord_finite_bound m e Hb). destruct s; cbn [cond_Zopp] in H; lia.
Qed.

Lemma Math_max_ord x y :
  comparable x -> comparable y ->
  comparable (Math_max x y) /\ (Math_max x y = x \/ Math_max x y = y) /\
  ord (Math_max x y) = Z.max (ord x) (ord y).
Proof.
  intros Cx Cy.
  assert (Hif : comparable (if ltb x y then y else x) /\
                ((if ltb x y then y else x) = x \/ (if ltb x y then y else x) = y) /\
                ord (if ltb x y then y else x) = Z.max (ord x) (ord y)).
  { destruct (ltb x y) eqn:E.
    - apply (ltb_ord _ _ Cx Cy) in E. repeat split; try apply Cy; [auto|lia].
    - assert (ord y <= ord x).
      { destruct (Z.le_gt_cases (ord y) (ord x)) as [|Hgt]; [assumption|].
        apply (ltb_ord _ _ Cx Cy) in Hgt. congruence. }
      repeat split; try apply Cx; [auto|lia]. }
  destruct Cx as [Bx Nx], Cy as [By Ny].
  destruct x as [sx|sx| |sx mx ex], y as [sy|sy| |sy my ey]; try discriminate;
    try exact Hif.
  cbn [Math_max ord]. repeat split; try reflexivity.
  destruct sx; cbn [andb]; auto.
Qed.

Lemma Math_min_ord x y :
  comparable x -> comparable y ->
  comparable (Math_min x y) /\ (Math_min x y = x \/ Math_min x y = y) /\
  ord (Math_min x y) = Z.min (ord x) (ord y).
Proof.
  intros Cx Cy.
  assert (Hif : comparable (if ltb y x then y else x) /\
                ((if ltb y x then y else x) = x \/ (if ltb y x then y else x) = y) /\
                ord (if ltb y x then y else x) = Z.min (ord x) (ord y)).
  { destruct (ltb y x) eqn:E.
    - apply (ltb_ord _ _ Cy Cx) in E. repeat split; try apply Cy; [auto|lia].
    - assert (ord x <= ord y).
      { destruct (Z.le_gt_cases (ord x) (ord y)) as [|Hgt]; [assumption|].
        apply (ltb_ord _ _ Cy Cx) in Hgt. congruence. }
      repeat split; try apply Cx; [auto|lia]. }
  destruct Cx as [Bx Nx], Cy as [By Ny].
  destruct x as [sx|sx| |sx mx ex], y as [sy|sy| |sy my ey]; try discriminate;
    try exact Hif.
  cbn [Math_min ord]. repeat split; try reflexivity.
  destruct sx; cbn [orb]; auto.
Qed.

Lemma fold_max_ord xs : forall start,
  comparable start -> Forall comparable xs ->
  let m := fold_left Math_max xs start in
  comparable m /\ (m = start \/ In m xs) /\ ord start <= ord m /\
  forall x, In x xs -> ord x <= ord m.
Proof.
  induction xs as [|x xs IH]; intros start Cs Hxs; cbv zeta; cbn [fold_left].
  - split; [exact Cs|]. split; [auto|]. split; [lia|]. intros x [].
  - inversion Hxs as [|? ? Cx Hxs']; subst.
    destruct (Math_max_ord start x Cs Cx) as (Cm & Hor & Ho).
    destruct (IH (Math_max start x) Cm Hxs') as (Cr & Hin & Hle & Hall).
    cbv zeta in *. split; [exact Cr|]. split; [|split; [lia|]].
    + destruct Hin as [->|Hin]; [|right; right; exact Hin].
      destruct Hor as [->| ->]; [left; reflexivity|right; left; reflexivity].
    + intros z [<-|Hz]; [lia|apply Hall; exact Hz].
Qed.

Lemma fold_min_ord xs : forall start,
  comparable start -> Forall comparable xs ->
  let m := fold_left Math_min xs start in
  comparable m /\ (m = start \/ In m xs) /\ ord m <= ord start /\
  forall x, In x xs -> ord m <= ord x.
Proof.
  induction xs as [|x xs IH]; intros start Cs Hxs; cbv zeta; cbn [fold_left].
  - split; [exact Cs|]. split; [auto|]. split; [lia|]. intros x [].
  - inversion Hxs as [|? ? Cx Hxs']; subst.
    destruct (Math_min_ord start x Cs Cx) as (Cm & Hor & Ho).
    destruct (IH (Math_min start x) Cm Hxs') as (Cr & Hin & Hle & Hall).
    cbv zeta in *. split; [exact Cr|]. split; [|split; [lia|]].
    + destruct Hin as [->|Hin]; [|right; right; exact Hin].
      destruct Hor as [->| ->]; [left; reflexivity|right; left; reflexivity].
    + intros z [<-|Hz]; [lia|apply Hall; exact Hz].
Qed.

Lemma Math_max_nan_l y : Math_max NaN y = NaN.
Proof. reflexivity. Qed.

Lemma Math_max_nan_r x : Math_max x NaN = NaN.
Proof. destruct x; reflexivity. Qed.

Lemma Math_min_nan_r x : Math_min x NaN = NaN.
Proof. destruct x; reflexivity. Qed.

Lemma fold_max_nan xs : fold_left Math_max xs NaN = NaN.
Proof. induction xs as [|x xs IH]; [reflexivity|exact IH]. Qed.

Lemma fold_min_nan xs : fold_left Math_min xs NaN = NaN.
Proof. induction xs as [|x xs IH]; [reflexivity|exact IH]. Qed.

Lemma fold_max_has_nan xs : forall start,
  In NaN xs -> fold_left Math_max xs start = NaN.
Proof.
  induction xs as [|x xs IH]; intros start Hin; [destruct Hin|].
  cbn [fold_left]. destruct Hin as [->|Hin].
  - rewrite Math_max_nan_r. apply fold_max_nan.
  - apply IH. exact Hin.
Qed.

Lemma fold_min_has_nan xs : forall start,
  In NaN xs -> fold_left Math_min xs start = NaN.
Proof.
  induction xs as [|x xs IH]; intros start Hin; [destruct Hin|].
  cbn [fold_left]. destruct Hin as [->|Hin].
  - rewrite Math_min_nan_r. apply fold_min_nan.
  - apply IH. exact Hin.
Qed.

Lemma stats_of_counts genres :
  genres <> [] ->
  min (stats genres) = Math_min_of (map count genres) /\
  max (stats genres) = Math_max_of (map count genres).
Proof. destruct genres; [congruence|]. intros _. split; reflexivity. Qed.

Lemma stats_sound genres :
  genres <> [] ->
  (forall g, In g genres -> comparable (count g)) ->
  let s := stats genres in
  comparable (min s) /\ comparable (max s) /\
  In (min s) (map count genres) /\ In (max s) (map count genres) /\
  forall g, In g genres -> ord (min s) <= ord (count g) <= ord (max s).
Proof.
  intros Hne Hc. cbv zeta. destruct (stats_of_counts genres Hne) as [-> ->].
  assert (Hxs : Forall comparable (map count genres)).
  { apply Forall_forall. intros x Hx. apply in_map_iff in Hx as (g & <- & Hg). auto. }
  assert (Cneg : comparable (S754_infinity true)) by (split; reflexivity).
  assert (Cpos : comparable (S754_infinity false)) by (split; reflexivity).
  destruct (fold_max_ord _ _ Cneg Hxs) as (Cmax & Hmax & _ & Hub).
  destruct (fold_min_ord _ _ Cpos Hxs) as (Cmin & Hmin & _ & Hlb).
  fold (Math_max_of (map count genres)) in *.
  fold (Math_min_of (map count genres)) in *.
  destruct genres as [|g0 genres]; [congruence|].
  assert (H0 : In (count g0) (map count (g0 :: genres))) by (left; reflexivity).
  assert (C0 : comparable (count g0)) by (apply Hc; left; reflexivity).
  split; [exact Cmin|]. split; [exact Cmax|]. split; [|split].
  - destruct Hmin as [E|Hin]; [|exact Hin].
    specialize (Hlb _ H0). rewrite E in Hlb. cbn [ord cond_Zopp] in Hlb.
    rewrite E, <- (ord_greatest _ C0 Hlb). exact H0.
  - destruct Hmax as [E|Hin]; [|exact Hin].
    specialize (Hub _ H0). rewrite E in Hub. cbn [ord cond_Zopp] in Hub.
    rewrite E, <- (ord_least _ C0 Hub). exact H0.
  - intros g Hg. split; [apply Hlb|apply Hub]; apply in_map; exact Hg.
Qed.

Lemma stats_nan genres :
  (exists g, In g genres /\ count g = NaN) ->
  min (stats genres) = NaN /\ max (stats genres) = NaN.
Proof.
  intros (g & Hg & En).
  assert (Hne : genres <> []) by (intros ->; destruct Hg).
  destruct (stats_of_counts genres Hne) as [-> ->].
  assert (Hin : In NaN (map count genres))
    by (rewrite <- En; apply in_map; exact Hg).
  split; [apply fold_min_has_nan|apply fold_max_has_nan]; exact Hin.
Qed.

(** X17.  The [stats] of a word cloud.  Without genres both are 0.  When
    no count is NaN, [min] and [max] are counts of the genres, [min] at
    most and [max] at least every count.  When some count is NaN, both
    are NaN. *)
Theorem stats_bounds (genres : list GenreCount) :
  let s := stats genres in
  (genres = [] -> min s = zero /\ max s = zero) /\
  (genres <> [] ->
   (forall g, In g genres -> comparable (count g)) ->
   (exists g, In g genres /\ count g = min s) /\
   (exists g, In g genres /\ count g = max s) /\
   forall g, In g genres ->
             leb (min s) (count g) = true /\ leb (count g) (max s) = true) /\
  ((exists g, In g genres /\ count g = NaN) -> min s = NaN /\ max s = NaN).
Proof.
  cbv zeta. split; [|split].
  - intros ->. split; reflexivity.
  - intros Hne Hc.
    destruct (stats_sound genres Hne Hc) as (Cmin & Cmax & Imin & Imax & Hb).
    cbv zeta in *. split; [|split].
    + apply in_map_iff in Imin as (g & E & Hg). eauto.
    + apply in_map_iff in Imax as (g & E & Hg). eauto.
    + intros g Hg. destruct (Hb g Hg) as [H1 H2].
      split; apply leb_ord; auto.
  - apply stats_nan.
Qed.

End StatsFacts.
Module FontSizeFacts.
Import Trakt TraktGenreDisplay MonthlyWordcloud MaxSpec JsMathFacts StatsFacts.

Lemma leb_refl x : isNaN x = false -> leb x x = true.
Proof.
  destruct x as [s|s| |s m e]; try discriminate; intros _.
  - reflexivity.
  - destruct s; reflexivity.
  - unfold leb, SFleb, SFcompare. rewrite Z.compare_refl, Pos.compare_refl.
    destruct s; reflexivity.
Qed.

Lemma sub_self x : isFinite x = true -> sub x x = zero.
Proof.
  destruct x as [s|s| |s m e]; try discriminate; intros _.
  - destruct s; reflexivity.
  - unfold sub, SFsub. cbv zeta. rewrite Z.sub_diag. reflexivity.
Qed.

Lemma div_self s m e :
  div (S754_finite s m e) (S754_finite s m e) = one.
Proof.
  unfold div, SFdiv, SFdiv_core_binary.
  replace (Zdigits2 (Zpos m) + e - (Zdigits2 (Zpos m) + e)) with 0 by lia.
  replace (e - e) with 0 by lia.
  change (Z.min (fexp prec emax 0) 0) with (-53).
  change (0 - -53) with 53.
  cbv iota beta.
  rewrite Z.shiftl_mul_pow2 by lia.
  assert (Hq : Z.div_eucl (Zpos m * 2 ^ 53) (Zpos m) = (2 ^ 53, 0)).
  { pose proof (Z_div_mod_eq_full (Zpos m * 2 ^ 53) (Zpos m)) as H.
    assert (Hd : (Zpos m * 2 ^ 53) / Zpos m = 2 ^ 53)
      by (rewrite Z.mul_comm; apply Z.div_mul; lia).
    assert (Hm : (Zpos m * 2 ^ 53) mod Zpos m = 0)
      by (rewrite Z.mul_comm; apply Z.mod_mul; lia).
    unfold Z.div, Z.modulo in Hd, Hm.
    destruct (Z.div_eucl (Zpos m * 2 ^ 53) (Zpos m)) as [q r].
    cbn [fst snd] in Hd, Hm. subst. reflexivity. }
  rewrite Hq.
  assert (Hl : new_location (Zpos m) 0 = loc_Exact).
  { unfold new_location. destruct (Z.even (Zpos m)); reflexivity. }
  rewrite Hl. rewrite xorb_nilpotent. reflexivity.
Qed.

(** What the difference [hi - lo] of two finite numbers with [lo < hi]
    is: positive, finite or +Infinity. *)
Lemma positive_difference lo hi :
  binary64 lo -> binary64 hi -> isFinite lo = true -> isFinite hi = true ->
  ltb lo hi = true ->
  (exists m e, sub hi lo = S754_finite false m e) \/
  sub hi lo = S754_infinity false.
Proof.
  intros Bl Bh Fl Fh Hlt.
  assert (Nl : isNaN lo = false) by (destruct lo; try discriminate; reflexivity).
  assert (Nh : isNaN hi = false) by (destruct hi; try discriminate; reflexivity).
  apply (ltb_ord lo hi (conj Bl Nl) (conj Bh Nh)) in Hlt.
  pose proof (sign_sub lo hi Bl Bh Nl Nh) as Hs.
  apply Z.compare_gt_iff in Hlt. rewrite Hlt in Hs.
  destruct (sub hi lo) as [s|s| |s m e]; try discriminate.
  - right. destruct s; [discriminate|reflexivity].
  - left. destruct s; [discriminate|]. eauto.
Qed.

Lemma not_leb lo hi :
  binary64 lo -> binary64 hi -> ltb lo hi = true -> leb hi lo = false.
Proof.
  intros Bl Bh Hlt. destruct (ltb_not_nan _ _ Hlt) as [Nl Nh].
  pose proof (proj1 (ltb_ord lo hi (conj Bl Nl) (conj Bh Nh)) Hlt) as Ho.
  destruct (leb hi lo) eqn:E; [|reflexivity].
  apply (leb_ord hi lo (conj Bh Nh) (conj Bl Nl)) in E. lia.
Qed.

Lemma computeFontSize_least lo hi :
  binary64 lo -> binary64 hi -> isFinite lo = true -> isFinite hi = true ->
  ltb lo hi = true ->
  computeFontSize lo lo hi (Some (of_Z 8)) (Some (of_Z 24)) = of_Z 8 /\
  computeFontSize lo lo hi None None = of_Z 12.
Proof.
  intros Bl Bh Fl Fh Hlt. unfold computeFontSize.
  rewrite (not_leb lo hi Bl Bh Hlt), (sub_self lo Fl).
  destruct (positive_difference lo hi Bl Bh Fl Fh Hlt) as [(m & e & ->)| ->];
    split; reflexivity.
Qed.

Lemma computeFontSize_greatest lo hi :
  binary64 lo -> binary64 hi -> isFinite lo = true -> isFinite hi = true ->
  ltb lo hi = true -> isFinite (sub hi lo) = true ->
  computeFontSize hi lo hi (Some (of_Z 8)) (Some (of_Z 24)) = of_Z 24 /\
  computeFontSize hi lo hi None None = of_Z 28.
Proof.
  intros Bl Bh Fl Fh Hlt Hf. unfold computeFontSize.
  rewrite (not_leb lo hi Bl Bh Hlt).
  destruct (positive_difference lo hi Bl Bh Fl Fh Hlt) as [(m & e & E)|E];
    rewrite E in *; [|discriminate].
  rewrite div_self. split; reflexivity.
Qed.

Lemma Math_min_same v : isNaN v = false -> Math_min v v = v.
Proof.
  intros Hn. destruct v as [s|s| |s m e]; try discriminate.
  - destruct s; reflexivity.
  - destruct s; reflexivity.
  - unfold Math_min, Math_max.
    match goal with |- context [if ?c then _ else _] => destruct c end;
      reflexivity.
Qed.

Lemma Math_max_same v : isNaN v = false -> Math_max v v = v.
Proof.
  intros Hn. destruct v as [s|s| |s m e]; try discriminate.
  - destruct s; reflexivity.
  - destruct s; reflexivity.
  - unfold Math_min, Math_max.
    match goal with |- context [if ?c then _ else _] => destruct c end;
      reflexivity.
Qed.

Lemma fold_same (f : num -> num -> num) v xs :
  f v v = v -> (forall x, In x xs -> x = v) -> fold_left f xs v = v.
Proof.
  intros Hf. induction xs as [|x xs IH]; intros Hxs; [reflexivity|].
  cbn [fold_left]. rewrite (Hxs x (or_introl eq_refl)), Hf.
  apply IH. intros y Hy. apply Hxs. right. exact Hy.
Qed.

Lemma stats_uniform genres v :
  genres <> [] -> (forall g, In g genres -> count g = v) -> isNaN v = false ->
  min (stats genres) = v /\ max (stats genres) = v.
Proof.
  intros Hne Hall Hn. destruct (stats_of_counts genres Hne) as [-> ->].
  destruct genres as [|g genres]; [congruence|].
  unfold Math_min_of, Math_max_of. cbn [map fold_left].
  rewrite (Hall g (or_introl eq_refl)).
  assert (Hxs : forall x, In x (map count genres) -> x = v).
  { intros x Hx. apply in_map_iff in Hx as (g' & <- & Hg'). apply Hall. right. exact Hg'. }
  assert (E1 : Math_min (S754_infinity false) v = v).
  { destruct v as [[]|[]| |[] m e]; try discriminate; reflexivity. }
  assert (E2 : Math_max (S754_infinity true) v = v).
  { destruct v as [[]|[]| |[] m e]; try discriminate; reflexivity. }
  rewrite E1, E2. split; apply fold_same; auto using Math_min_same, Math_max_same.
Qed.

(** X18.  A word cloud whose genres all have the same count (a month
    with one genre among them) draws every word at 16 px, the middle of
    8 and 24 px. *)
Theorem wordcloud_uniform (genres : list GenreCount) (v : num) :
  (forall g, In g genres -> count g = v) -> isNaN v = false ->
  forall g, In g genres -> fontSize genres g = of_Z 16.
Proof.
  intros Hall Hn g Hg.
  assert (Hne : genres <> []) by (intros ->; destruct Hg).
  destruct (stats_uniform genres v Hne Hall Hn) as [Emin Emax].
  unfold fontSize, computeFontSize. rewrite Emin, Emax, (leb_refl v Hn).
  reflexivity.
Qed.

(** X19.  A word cloud whose counts are finite and not all the same
    draws the genres of the least count at 8 px and, when the difference
    of the greatest and the least count does not overflow, the genres of
    the greatest count at 24 px. *)
Theorem wordcloud_extremes (genres : list GenreCount) :
  (forall g, In g genres -> binary64 (count g) /\ isFinite (count g) = true) ->
  let s := stats genres in
  ltb (min s) (max s) = true ->
  forall g, In g genres ->
    (count g = min s -> fontSize genres g = of_Z 8) /\
    (count g = max s -> isFinite (sub (max s) (min s)) = true ->
     fontSize genres g = of_Z 24).
Proof.
  intros Hc. cbv zeta. intros Hlt g Hg.
  assert (Hne : genres <> []) by (intros ->; destruct Hg).
  assert (Hcmp : forall g, In g genres -> comparable (count g)).
  { intros g' Hg'. destruct (Hc g' Hg') as [Hb Hf]. split; [exact Hb|].
    destruct (count g'); try discriminate; reflexivity. }
  destruct (stats_sound genres Hne Hcmp) as (_ & _ & Imin & Imax & _).
  cbv zeta in *.
  apply in_map_iff in Imin as (gl & El & Hgl).
  apply in_map_iff in Imax as (gh & Eh & Hgh).
  destruct (Hc gl Hgl) as [Bl Fl]. destruct (Hc gh Hgh) as [Bh Fh].
  rewrite El in Bl, Fl. rewrite Eh in Bh, Fh.
  unfold fontSize. split.
  - intros ->. apply computeFontSize_least; assumption.
  - intros -> Hf. apply computeFontSize_greatest; assumption.
Qed.

(** X20.  [computeFontSize] on bad input.  When [max <= min] the count
    plays no part, be it NaN: the size is the rounded middle of the two
    sizes.  Otherwise a count, a [min] or a [max] that is NaN gives the
    size NaN; so does every word of a cloud one of whose counts is
    NaN. *)
Theorem computeFontSize_nan :
  (forall count lo hi, leb hi lo = true ->
      computeFontSize count lo hi (Some (of_Z 8)) (Some (of_Z 24)) = of_Z 16 /\
      computeFontSize count lo hi None None = of_Z 20) /\
  (forall count lo hi small large,
      leb hi lo = false ->
      isNaN count = true \/ isNaN lo = true \/ isNaN hi = true ->
      computeFontSize count lo hi small large = NaN) /\
  (forall genres,
      (exists g, In g genres /\ count g = NaN) ->
      forall g, fontSize genres g = NaN).
Proof.
  assert (Hnan : forall count lo hi small large,
      leb hi lo = false ->
      isNaN count = true \/ isNaN lo = true \/ isNaN hi = true ->
      computeFontSize count lo hi small large = NaN).
  { intros c lo hi small large Hle H. unfold computeFontSize. rewrite Hle.
    assert (Ht : div (sub c lo) (sub hi lo) = NaN).
    { destruct H as [H|[H|H]].
      - destruct c; try discriminate. reflexivity.
      - destruct lo; try discriminate. destruct c; reflexivity.
      - destruct hi; try discriminate. cbn. destruct (sub c lo); reflexivity. }
    rewrite Ht.
    destruct (match small with Some v => v | None => of_Z 12 end); reflexivity. }
  split; [|split; [exact Hnan|]].
  - intros c lo hi Hle. unfold computeFontSize. rewrite Hle. split; reflexivity.
  - intros genres Hex g.
    destruct (stats_nan genres Hex) as [Emin Emax].
    unfold fontSize. rewrite Emin, Emax.
    apply Hnan; [destruct (count g); reflexivity|]. auto.
Qed.

End FontSizeFacts.
(** * Rounding to nearest, by value *)

Module RoundingFacts.
Import RoundingSpec.

Lemma iter_pos_nat {A} (f : A -> A) p : forall x,
  iter_pos f p x = Nat.iter (Pos.to_nat p) f x.
Proof.
  induction p as [p IH|p IH|]; intros x; cbn [iter_pos].
  - rewrite !IH, Pos2Nat.inj_xI, <- Nat.iter_add.
    replace (S (2 * Pos.to_nat p)) with (S (Pos.to_nat p + Pos.to_nat p)) by lia.
    rewrite Nat.iter_succ_r. reflexivity.
  - rewrite !IH, Pos2Nat.inj_xO, <- Nat.iter_add.
    replace (2 * Pos.to_nat p)%nat with (Pos.to_nat p + Pos.to_nat p)%nat by lia.
    reflexivity.
  - reflexivity.
Qed.

Lemma shr_1_bits m r s :
  0 <= m ->
  shr_1 (Build_shr_record m r s)
  = Build_shr_record (m / 2) (Z.odd m) (r || s).
Proof.
  intros Hm. destruct m as [|p|p]; [reflexivity| |lia].
  destruct p as [p|p|]; cbn [shr_1].
  - assert (E : Z.pos p~1 / 2 = Z.pos p)
      by (rewrite Pos2Z.inj_xI; symmetry; apply Z.div_unique with 1; lia).
    rewrite E. reflexivity.
  - assert (E : Z.pos p~0 / 2 = Z.pos p)
      by (rewrite Pos2Z.inj_xO; symmetry; apply Z.div_unique with 0; lia).
    rewrite E. reflexivity.
  - reflexivity.
Qed.

Lemma mod_pow2_succ m n :
  0 <= n ->
  m mod 2 ^ (n + 1) = m mod 2 ^ n + 2 ^ n * ((m / 2 ^ n) mod 2).
Proof.
  intros Hn. rewrite Z.pow_add_r, Z.pow_1_r by lia.
  apply Z.rem_mul_r; [|lia]. apply Z.pow_nonzero; lia.
Qed.

Lemma shr_nat n : forall m r s,
  0 <= m ->
  Nat.iter (S n) shr_1 (Build_shr_record m r s)
  = Build_shr_record (m / 2 ^ Z.of_nat (S n))
                     (Z.odd (m / 2 ^ Z.of_nat n))
                     (r || s || negb (m mod 2 ^ Z.of_nat n =? 0)).
Proof.
  induction n as [|n IH]; intros m r s Hm.
  - cbn [Nat.iter]. rewrite shr_1_bits by exact Hm.
    change (2 ^ Z.of_nat 1) with 2. change (2 ^ Z.of_nat 0) with 1.
    rewrite Z.div_1_r, Z.mod_1_r. cbn. rewrite orb_false_r. reflexivity.
  - change (Nat.iter (S (S n)) shr_1 (Build_shr_record m r s))
      with (shr_1 (Nat.iter (S n) shr_1 (Build_shr_record m r s))).
    rewrite IH by exact Hm.
    assert (Hp : 0 < 2 ^ Z.of_nat (S n)) by (apply Z.pow_pos_nonneg; lia).
    rewrite shr_1_bits by (apply Z.div_pos; lia).
    f_equal.
    + rewrite Z.div_div by lia. f_equal.
      rewrite (Nat2Z.inj_succ (S n)), Z.pow_succ_r by lia. lia.
    + rewrite (Nat2Z.inj_succ n), <- Z.add_1_r, mod_pow2_succ by lia.
      set (b := (m / 2 ^ Z.of_nat n) mod 2).
      assert (Hb : b = 0 \/ b = 1) by (unfold b; pose proof (Z.mod_pos_bound (m / 2 ^ Z.of_nat n) 2); lia).
      assert (Hodd : Z.odd (m / 2 ^ Z.of_nat n) = negb (b =? 0)).
      { unfold b. rewrite Zmod_odd. destruct (Z.odd (m / 2 ^ Z.of_nat n)); reflexivity. }
      rewrite Hodd.
      assert (Hpn : 0 < 2 ^ Z.of_nat n) by (apply Z.pow_pos_nonneg; lia).
      pose proof (Z.mod_pos_bound m (2 ^ Z.of_nat n) Hpn) as Hr.
      destruct Hb as [-> | ->]; cbn [Z.eqb negb orb].
      * rewrite Z.mul_0_r, Z.add_0_r. reflexivity.
      * rewrite Z.mul_1_r.
        destruct (Z.eqb_spec (m mod 2 ^ Z.of_nat n + 2 ^ Z.of_nat n) 0) as [E|E]; [lia|].
        cbn [negb]. rewrite !orb_true_r. reflexivity.
Qed.

Lemma loc_of_record m l : loc_of_shr_record (shr_record_of_loc m l) = l.
Proof. destruct l as [|[]]; reflexivity. Qed.

(** The location after a shift of an exact mantissa by [k] bits. *)
Lemma shr_exact_loc m e k :
  0 <= m ->
  loc_of_shr_record (fst (shr (shr_record_of_loc m loc_Exact) e k))
  = if m mod 2 ^ Z.max 0 k =? 0 then loc_Exact
    else loc_Inexact (2 * (m mod 2 ^ Z.max 0 k) ?= 2 ^ Z.max 0 k).
Proof.
  intros Hm. destruct k as [|p|p]; cbn [shr fst Z.max].
  - rewrite Z.mod_1_r. reflexivity.
  - replace (Z.max 0 (Z.pos p)) with (Z.pos p) by lia.
    rewrite iter_pos_nat.
    destruct (Pos2Nat.is_succ p) as (n & En). rewrite En.
    cbn [shr_record_of_loc]. rewrite shr_nat by exact Hm.
    assert (Ep : Z.pos p = Z.of_nat n + 1) by lia.
    rewrite Ep, mod_pow2_succ by lia.
    set (low := m mod 2 ^ Z.of_nat n).
    assert (Hpn : 0 < 2 ^ Z.of_nat n) by (apply Z.pow_pos_nonneg; lia).
    pose proof (Z.mod_pos_bound m (2 ^ Z.of_nat n) Hpn) as Hlow. fold low in Hlow.
    rewrite Z.pow_add_r, Z.pow_1_r by lia.
    set (b := (m / 2 ^ Z.of_nat n) mod 2).
    assert (Hb : b = 0 \/ b = 1)
      by (unfold b; pose proof (Z.mod_pos_bound (m / 2 ^ Z.of_nat n) 2); lia).
    assert (Hodd : Z.odd (m / 2 ^ Z.of_nat n) = negb (b =? 0)).
    { unfold b. rewrite Zmod_odd. destruct (Z.odd (m / 2 ^ Z.of_nat n)); reflexivity. }
    rewrite Hodd. cbn [orb loc_of_shr_record].
    destruct Hb as [-> | ->]; cbn [Z.eqb negb].
    + rewrite Z.mul_0_r, Z.add_0_r.
      destruct (Z.eqb_spec low 0) as [E|E]; cbn [negb]; [reflexivity|].
      f_equal. symmetry. apply Z.compare_lt_iff. lia.
    + rewrite Z.mul_1_r.
      destruct (Z.eqb_spec (low + 2 ^ Z.of_nat n) 0) as [E|E]; [lia|].
      destruct (Z.eqb_spec low 0) as [E0|E0]; cbn [negb]; f_equal; symmetry.
      * apply Z.compare_eq_iff. lia.
      * apply Z.compare_gt_iff. lia.
  - rewrite Z.mod_1_r. reflexivity.
Qed.

Lemma round_exact_loc q rem k :
  0 <= k -> 0 <= rem ->
  round_nearest_even q
    (if rem =? 0 then loc_Exact else loc_Inexact (2 * rem ?= 2 ^ k))
  = q + (if round_up rem k q then 1 else 0).
Proof.
  intros Hk Hrem. unfold round_up.
  assert (Hp : 0 < 2 ^ k) by (apply Z.pow_pos_nonneg; lia).
  destruct (Z.eqb_spec rem 0) as [->|Hne]; cbn [round_nearest_even].
  - destruct (Z.ltb_spec (2 ^ k) (2 * 0)) as [|_]; [lia|].
    destruct (Z.eqb_spec (2 * 0) (2 ^ k)) as [E|_]; cbn [orb andb]; lia.
  - destruct (Z.compare_spec (2 * rem) (2 ^ k)) as [E|E|E].
    + rewrite E, Z.ltb_irrefl, Z.eqb_refl. cbn [orb andb].
      rewrite <- Z.negb_odd. destruct (Z.odd q); cbn [negb]; lia.
    + destruct (Z.ltb_spec (2 ^ k) (2 * rem)); [lia|].
      destruct (Z.eqb_spec (2 * rem) (2 ^ k)); [lia|]. cbn. lia.
    + destruct (Z.ltb_spec (2 ^ k) (2 * rem)); [|lia]. reflexivity.
Qed.

End RoundingFacts.
Module RoundValue.
Import RoundingSpec RoundingFacts.

Lemma overflow_from p e2 :
  2 ^ 52 <= p -> 972 <= e2 -> overflow_rank <= p * 2 ^ (e2 + 1074).
Proof.
  intros Hp He. unfold overflow_rank.
  replace 2098 with (52 + 2046) by reflexivity.
  rewrite Z.pow_add_r by (apply Z.leb_le; reflexivity).
  apply Z.mul_le_mono_nonneg.
  - apply Z.pow_nonneg. apply Z.leb_le. reflexivity.
  - exact Hp.
  - apply Z.pow_nonneg. apply Z.leb_le. reflexivity.
  - apply Z.pow_le_mono_r; [reflexivity|].
    apply Z.le_trans with (972 + 1074); [apply Z.leb_le; reflexivity|].
    apply Z.add_le_mono_r. exact He.
Qed.

(** What [binary_round_aux] returns, by value: the mantissa [m] is cut at
    the exponent [E1] of the format, the quotient goes up by at most one,
    by the rule of rounding to nearest when [m] was exact, and the result
    is that multiple of [2^E1], or an infinity from [2^1024] on. *)
Lemma binary_round_aux_value s m e l :
  0 <= m -> e <= fexp prec emax (Zdigits2 m + e) ->
  let E1 := fexp prec emax (Zdigits2 m + e) in
  let k := E1 - e in
  let q := m / 2 ^ k in
  exists m1,
    q <= m1 <= q + 1 /\
    (l = loc_Exact ->
     m1 = q + (if round_up (m mod 2 ^ k) k q then 1 else 0)) /\
    match binary_round_aux prec emax s m e l with
    | S754_zero s' => s' = s /\ m1 = 0
    | S754_finite s' m' e' =>
        s' = s /\ bounded prec emax m' e' = true /\
        Zpos m' * 2 ^ (e' + 1074) = m1 * 2 ^ (E1 + 1074)
    | S754_infinity s' => s' = s /\ overflow_rank <= m1 * 2 ^ (E1 + 1074)
    | S754_nan => False
    end.
Proof.
  intros Hm HP E1 k q. unfold binary_round_aux.
  assert (HP' : e <= E1) by exact HP.
  assert (Hk : 0 <= k) by (unfold k, E1; lia).
  assert (Hpk : 0 < 2 ^ k) by (apply Z.pow_pos_nonneg; lia).
  pose proof (shr_fexp_spec m e l Hm) as (A1 & A2 & _).
  assert (AL : l = loc_Exact ->
               loc_of_shr_record (fst (shr_fexp prec emax m e l))
               = if m mod 2 ^ k =? 0 then loc_Exact
                 else loc_Inexact (2 * (m mod 2 ^ k) ?= 2 ^ k)).
  { intros ->. unfold shr_fexp. rewrite shr_exact_loc by exact Hm.
    replace (Z.max 0 (fexp prec emax (Zdigits2 m + e) - e)) with k
      by (unfold k, E1; lia).
    reflexivity. }
  destruct (shr_fexp prec emax m e l) as [mrs1 e1]. cbn [fst snd] in A1, A2, AL.
  assert (He1 : e1 = E1) by (unfold E1; lia).
  replace (Z.max e (fexp prec emax (Zdigits2 m + e)) - e) with k in A2
    by (unfold k, E1; lia).
  fold q in A2.
  set (m1r := round_nearest_even (shr_m mrs1) (loc_of_shr_record mrs1)).
  assert (Hr : m1r = q \/ m1r = q + 1).
  { unfold m1r. rewrite A2. apply round_nearest_even_cases. }
  assert (Hq0 : 0 <= q) by (unfold q; apply Z.div_pos; lia).
  assert (Hm1r : 0 <= m1r) by lia.
  exists m1r. split; [lia|]. split.
  { intros El. unfold m1r. rewrite (AL El), A2.
    apply round_exact_loc; [exact Hk|]. apply Z.mod_pos_bound. exact Hpk. }
  pose proof (shr_fexp_spec m1r e1 loc_Exact Hm1r) as (B1 & B2 & B3).
  destruct (shr_fexp prec emax m1r e1 loc_Exact) as [mrs2 e2].
  cbn [fst snd] in B1, B2, B3. rewrite <- B1 in B2.
  rewrite fexp_eq in B1, B3.
  assert (HE1 : E1 = Z.max (Zdigits2 m + e - 53) (-1074)) by (unfold E1; apply fexp_eq).
  pose proof (Zdigits2_nonneg m) as Hd.
  assert (Hpe : 0 < 2 ^ (E1 + 1074)) by (apply Z.pow_pos_nonneg; lia).
  destruct (Z.le_gt_cases (-1074) (Zdigits2 m + e - 53)) as [Hnorm|Hsub].
  - (* normal range: the quotient has 53 bits *)
    assert (Hmpos : 0 < m).
    { destruct (Z.eq_dec m 0) as [E0|]; [|lia].
      rewrite E0 in HE1, Hnorm. cbn [Zdigits2] in HE1, Hnorm. lia. }
    pose proof (Zdigits2_bounds m Hmpos) as [Hl Hu].
    assert (Hkk : k = Zdigits2 m - 53) by (unfold k; lia).
    assert (Hlow : 2 ^ 52 <= q).
    { unfold q. apply Z.div_le_lower_bound; [exact Hpk|].
      rewrite Z.mul_comm, <- pow2_split by lia.
      replace (52 + k) with (Zdigits2 m - 1) by lia. exact Hl. }
    assert (Hup : q < 2 ^ 53).
    { unfold q. apply Z.div_lt_upper_bound; [exact Hpk|].
      rewrite Z.mul_comm, <- pow2_split by lia.
      replace (53 + k) with (Zdigits2 m) by lia. exact Hu. }
    destruct (Z.eq_dec m1r (2 ^ 53)) as [Hcarry|Hnc].
    + assert (Hdr : Zdigits2 m1r = 54).
      { apply Zdigits2_unique; [|lia]. rewrite Hcarry. change (54 - 1) with 53.
        split; [lia|]. apply Z.pow_lt_mono_r; lia. }
      rewrite Hdr in *.
      assert (He2 : e2 = e1 + 1) by lia.
      assert (Hm2 : shr_m mrs2 = 2 ^ 52).
      { rewrite B2, He2, Hcarry. replace (e1 + 1 - e1) with 1 by lia. reflexivity. }
      rewrite Hm2. change (2 ^ 52) with (Zpos (2 ^ 52)).
      assert (Hval : Zpos (2 ^ 52) * 2 ^ (e2 + 1074) = m1r * 2 ^ (E1 + 1074)).
      { rewrite Hcarry, He2, He1.
        replace (E1 + 1 + 1074) with (1 + (E1 + 1074)) by lia.
        rewrite (pow2_split 1) by lia.
        change (Zpos (2 ^ 52)) with (2 ^ 52). change (2 ^ 53) with (2 ^ 52 * 2 ^ 1).
        ring. }
      destruct (Z.leb_spec e2 (emax - prec)) as [Hle|Hgt].
      * split; [reflexivity|]. split; [|exact Hval].
        apply bounded_intro; [|unfold emax, prec in Hle; lia].
        change (Zpos (digits2_pos (2 ^ 52))) with 53. rewrite fexp_eq.
        clear - He2 He1 HE1. lia.
      * split; [reflexivity|]. rewrite <- Hval.
        unfold emax, prec in Hgt.
        apply overflow_from; [apply Z.le_refl|lia].
    + assert (Hdr : Zdigits2 m1r = 53).
      { apply Zdigits2_unique; [|lia]. change (53 - 1) with 52. lia. }
      rewrite Hdr in *.
      assert (He2 : e2 = e1) by lia.
      assert (Hm2 : shr_m mrs2 = m1r) by (rewrite B3 by lia; reflexivity).
      rewrite Hm2. destruct m1r as [|p|p] eqn:Ep; try lia.
      assert (Hval : Zpos p * 2 ^ (e2 + 1074) = Zpos p * 2 ^ (E1 + 1074))
        by (rewrite He2, He1; reflexivity).
      destruct (Z.leb_spec e2 (emax - prec)) as [Hle|Hgt].
      * split; [reflexivity|]. split; [|exact Hval].
        apply bounded_intro; [|unfold emax, prec in Hle; lia].
        cbn [Zdigits2] in Hdr. rewrite Hdr, fexp_eq.
        clear - He2 He1 HE1. lia.
      * split; [reflexivity|]. rewrite <- Hval.
        unfold emax, prec in Hgt.
        apply overflow_from; lia.
  - (* subnormal range *)
    assert (He1' : e1 = -1074) by lia.
    assert (Hup : q < 2 ^ 52).
    { unfold q. apply Z.div_lt_upper_bound; [exact Hpk|].
      rewrite Z.mul_comm, <- pow2_split by lia.
      destruct (Z.eq_dec m 0) as [->|Hne].
      - apply Z.pow_pos_nonneg; lia.
      - pose proof (Zdigits2_bounds m ltac:(lia)) as [_ Hu].
        eapply Z.lt_le_trans; [exact Hu|]. apply Z.pow_le_mono_r; lia. }
    assert (Hdr : Zdigits2 m1r <= 53).
    { apply Zdigits2_le; [lia|]. split; [lia|].
      assert (2 ^ 52 < 2 ^ 53) by (apply Z.pow_lt_mono_r; lia). lia. }
    pose proof (Zdigits2_nonneg m1r) as Hdr0.
    assert (He2 : e2 = e1) by lia.
    assert (Hm2 : shr_m mrs2 = m1r) by (rewrite B3 by lia; reflexivity).
    rewrite Hm2. destruct m1r as [|p|p] eqn:Ep; try lia.
    + split; reflexivity.
    + assert (Hval : Zpos p * 2 ^ (e2 + 1074) = Zpos p * 2 ^ (E1 + 1074))
        by (rewrite He2, He1; reflexivity).
      destruct (Z.leb_spec e2 (emax - prec)) as [Hle|Hgt].
      * split; [reflexivity|]. split; [|exact Hval].
        apply bounded_intro; [|unfold emax, prec in Hle; lia].
        cbn [Zdigits2] in Hdr, Hdr0. rewrite fexp_eq.
        clear - He2 He1' Hdr. lia.
      * unfold emax, prec in Hgt. lia.
Qed.

End RoundValue.
Module NearestFacts.
Import RoundingSpec RoundingFacts RoundValue.

Lemma overflow_rank_pos : 0 < overflow_rank.
Proof. reflexivity. Qed.

Lemma overflow_below_infinity : overflow_rank <= infinity_rank.
Proof.
  unfold overflow_rank, infinity_rank. apply Z.pow_le_mono_r; [reflexivity|].
  apply Z.leb_le. reflexivity.
Qed.

Lemma Zdigits2_mono a b : 0 <= a <= b -> Zdigits2 a <= Zdigits2 b.
Proof.
  intros [Ha Hab]. destruct (Z.eq_dec a 0) as [->|Hne]; [apply Zdigits2_nonneg|].
  pose proof (Zdigits2_bounds a ltac:(lia)) as [La Ua].
  pose proof (Zdigits2_bounds b ltac:(lia)) as [Lb Ub].
  destruct (Z.le_gt_cases (Zdigits2 a) (Zdigits2 b)) as [|Hgt]; [assumption|].
  assert (2 ^ Zdigits2 b <= 2 ^ (Zdigits2 a - 1))
    by (apply Z.pow_le_mono_r; lia).
  lia.
Qed.

Lemma cut_nonneg n : 0 <= cut n.
Proof. unfold cut. lia. Qed.

(** The pieces of [nearest n]. *)
Lemma nearest_parts n :
  0 <= n ->
  let k := cut n in
  let q := n / 2 ^ k in
  let u := if round_up (n mod 2 ^ k) k q then 1 else 0 in
  0 <= q /\ 0 <= u <= 1 /\ q * 2 ^ k <= n < (q + 1) * 2 ^ k /\
  (u = 1 -> q * 2 ^ k < n) /\
  (k = 0 -> u = 0).
Proof.
  intros Hn k q u. pose proof (cut_nonneg n) as Hk. fold k in Hk.
  assert (Hp : 0 < 2 ^ k) by (apply Z.pow_pos_nonneg; lia).
  pose proof (Z.div_mod n (2 ^ k) ltac:(lia)) as Hdiv.
  pose proof (Z.mod_pos_bound n (2 ^ k) Hp) as Hmod.
  fold q in Hdiv.
  assert (Hq : 0 <= q) by (unfold q; apply Z.div_pos; lia).
  assert (Hu : 0 <= u <= 1) by (unfold u; destruct (round_up _ _ _); lia).
  split; [exact Hq|]. split; [exact Hu|]. split; [nia|]. split.
  - unfold u, round_up. intros H1.
    destruct (Z.ltb_spec (2 ^ k) (2 * (n mod 2 ^ k))) as [Hlt|Hge]; cbn [orb] in H1.
    + nia.
    + destruct (Z.eqb_spec (2 * (n mod 2 ^ k)) (2 ^ k)) as [E|E]; cbn [andb] in H1.
      * nia.
      * lia.
  - intros E. unfold u, round_up. rewrite E in *. change (2 ^ 0) with 1 in *.
    rewrite Z.mod_1_r. reflexivity.
Qed.

Lemma round_up_mono q k r1 r2 :
  0 <= r1 <= r2 -> round_up r1 k q = true -> round_up r2 k q = true.
Proof.
  unfold round_up. intros Hr H.
  apply orb_true_iff in H as [H|H].
  - apply Z.ltb_lt in H. apply orb_true_iff. left. apply Z.ltb_lt. lia.
  - apply andb_true_iff in H as [H1 H2]. apply Z.eqb_eq in H1.
    destruct (Z.eq_dec r1 r2) as [<-|Hne].
    + apply orb_true_iff. right. rewrite H2, andb_true_r. apply Z.eqb_eq. exact H1.
    + apply orb_true_iff. left. apply Z.ltb_lt. lia.
Qed.

(** Before the test for overflow, rounding to nearest is monotone. *)
Lemma rounded_mono n n' :
  0 <= n <= n' ->
  (n / 2 ^ cut n + (if round_up (n mod 2 ^ cut n) (cut n) (n / 2 ^ cut n) then 1 else 0))
    * 2 ^ cut n
  <= (n' / 2 ^ cut n' + (if round_up (n' mod 2 ^ cut n') (cut n') (n' / 2 ^ cut n') then 1 else 0))
       * 2 ^ cut n'.
Proof.
  intros [Hn Hnn'].
  destruct (nearest_parts n Hn) as (Hq & Hu & Hb & Hup & Hk0).
  destruct (nearest_parts n' ltac:(lia)) as (Hq' & Hu' & Hb' & Hup' & Hk0').
  cbv zeta in *.
  pose proof (cut_nonneg n) as Hk. pose proof (cut_nonneg n') as Hk'.
  pose proof (Zdigits2_mono n n' ltac:(lia)) as Hd.
  set (k := cut n) in *. set (k' := cut n') in *.
  set (q := n / 2 ^ k) in *. set (q' := n' / 2 ^ k') in *.
  set (u := if round_up (n mod 2 ^ k) k q then 1 else 0) in *.
  set (u' := if round_up (n' mod 2 ^ k') k' q' then 1 else 0) in *.
  assert (Hp : 0 < 2 ^ k) by (apply Z.pow_pos_nonneg; lia).
  assert (Hp' : 0 < 2 ^ k') by (apply Z.pow_pos_nonneg; lia).
  assert (Hkk : k <= k') by (unfold k, k', cut; lia).
  destruct (Z.eq_dec k k') as [Ek|Ek].
  - (* the same exponent *)
    assert (E2 : 2 ^ k' = 2 ^ k) by (rewrite Ek; reflexivity).
    assert (Hqq : q <= q') by (unfold q, q'; rewrite E2; apply Z.div_le_mono; lia).
    rewrite E2 in Hb', Hup'.
    destruct (Z.eq_dec q q') as [Eq|Eq].
    + assert (Huu : u <= u').
      { unfold u, u'. rewrite <- Eq, <- Ek.
        destruct (round_up (n mod 2 ^ k) k q) eqn:R;
          [|match goal with |- context [if ?c then _ else _] => destruct c end; lia].
        rewrite (round_up_mono q k (n mod 2 ^ k) (n' mod 2 ^ k)); [lia| |exact R].
        pose proof (Z.mod_pos_bound n (2 ^ k) Hp).
        pose proof (Z.div_mod n (2 ^ k) ltac:(lia)) as D1.
        pose proof (Z.div_mod n' (2 ^ k) ltac:(lia)) as D2.
        fold q in D1. rewrite <- E2 in D2 at 2. fold q' in D2.
        rewrite <- Eq in D2. nia. }
      rewrite <- Eq, E2. nia.
    + rewrite E2. nia.
  - (* a greater exponent: a power of two lies between *)
    assert (Hk'pos : 0 < k') by lia.
    assert (Hd' : Zdigits2 n' = k' + 53) by (unfold k', cut in *; lia).
    assert (Hn'pos : 0 < n').
    { destruct (Z.eq_dec n' 0) as [E|]; [|lia]. rewrite E in Hd'. cbn in Hd'. lia. }
    pose proof (Zdigits2_bounds n' Hn'pos) as [Ln' Un'].
    assert (Hmid : (q + u) * 2 ^ k <= 2 ^ (k + 53)).
    { rewrite (pow2_split k 53) by lia. rewrite (Z.mul_comm (2 ^ k)).
      apply Z.mul_le_mono_nonneg_r; [lia|].
      destruct (Z.eq_dec n 0) as [En|En].
      - assert (E0 : q = 0) by (unfold q; rewrite En; apply Z.div_0_l; lia).
        assert (Hu0 : u = 0).
        { destruct (Z.eq_dec u 0) as [|Hu1]; [assumption|exfalso].
          assert (E1 : u = 1) by lia. specialize (Hup E1).
          rewrite E0, En in Hup. lia. }
        rewrite E0, Hu0. apply Z.pow_nonneg. lia.
      - pose proof (Zdigits2_bounds n ltac:(lia)) as [Ln Un].
        assert (Hdn : Zdigits2 n <= k + 53) by (unfold k, cut; lia).
        assert (Hpw : 2 ^ Zdigits2 n <= 2 ^ (k + 53)) by (apply Z.pow_le_mono_r; lia).
        rewrite (pow2_split k 53) in Hpw by lia.
        assert (Hq53 : q < 2 ^ 53).
        { unfold q. apply Z.div_lt_upper_bound; [exact Hp|]. lia. }
        clear - Hq53 Hu. lia. }
    assert (Hlow : 2 ^ (k' + 52) <= q' * 2 ^ k').
    { rewrite Hd' in Ln'. replace (k' + 53 - 1) with (k' + 52) in Ln' by lia.
      rewrite (pow2_split k' 52) in Ln' by lia.
      rewrite (pow2_split k' 52) by lia. rewrite (Z.mul_comm (2 ^ k')).
      apply Z.mul_le_mono_nonneg_r; [lia|].
      unfold q'. apply Z.div_le_lower_bound; [exact Hp'|exact Ln']. }
    assert (Hpow : 2 ^ (k + 53) <= 2 ^ (k' + 52)) by (apply Z.pow_le_mono_r; lia).
    assert (Hlast : q' * 2 ^ k' <= (q' + u') * 2 ^ k')
      by (apply Z.mul_le_mono_nonneg_r; lia).
    clear - Hmid Hlow Hpow Hlast. lia.
Qed.

Lemma nearest_mono n n' : 0 <= n <= n' -> nearest n <= nearest n'.
Proof.
  intros H. pose proof (rounded_mono n n' H) as Hr. unfold nearest.
  pose proof overflow_below_infinity.
  destruct (Z.ltb_spec ((n / 2 ^ cut n + (if round_up (n mod 2 ^ cut n) (cut n) (n / 2 ^ cut n) then 1 else 0)) * 2 ^ cut n) overflow_rank);
    destruct (Z.ltb_spec ((n' / 2 ^ cut n' + (if round_up (n' mod 2 ^ cut n') (cut n') (n' / 2 ^ cut n') then 1 else 0)) * 2 ^ cut n') overflow_rank);
    lia.
Qed.

End NearestFacts.
Module ArithValue.
Import RoundingSpec RoundingFacts RoundValue NearestFacts MaxSpec JsMathFacts.

Lemma finite_below_overflow m e :
  bounded prec emax m e = true -> Zpos m * 2 ^ (e + 1074) < overflow_rank.
Proof.
  intros H. destruct (bounded_facts m e H) as (He & Hm & _).
  unfold overflow_rank. replace 2098 with (53 + 2045) by reflexivity.
  rewrite (Z.pow_add_r 2 53 2045) by lia.
  assert (Hq : 2 ^ (e + 1074) <= 2 ^ 2045) by (apply Z.pow_le_mono_r; lia).
  assert (Hp : 0 < 2 ^ (e + 1074)) by (apply Z.pow_pos_nonneg; lia).
  assert (H1 : Zpos m * 2 ^ (e + 1074) <= Zpos m * 2 ^ 2045)
    by (apply Z.mul_le_mono_nonneg_l; [lia | exact Hq]).
  assert (H2 : Zpos m * 2 ^ 2045 < 2 ^ 53 * 2 ^ 2045)
    by (apply Z.mul_lt_mono_pos_r; [apply Z.pow_pos_nonneg; lia | exact Hm]).
  exact (Z.le_lt_trans _ _ _ H1 H2).
Qed.

Lemma round_up_scale rem k q j :
  0 <= j -> 0 <= k ->
  round_up (rem * 2 ^ j) (k + j) q = round_up rem k q.
Proof.
  intros Hj Hk. unfold round_up.
  assert (Hp : 0 < 2 ^ j) by (apply Z.pow_pos_nonneg; lia).
  rewrite (pow2_split k j) by lia.
  assert (E1 : (2 ^ k * 2 ^ j <? 2 * (rem * 2 ^ j)) = (2 ^ k <? 2 * rem)).
  { destruct (Z.ltb_spec (2 ^ k) (2 * rem)) as [H|H].
    - apply Z.ltb_lt. replace (2 * (rem * 2 ^ j)) with (2 * rem * 2 ^ j) by ring.
      apply Z.mul_lt_mono_pos_r; assumption.
    - apply Z.ltb_ge. replace (2 * (rem * 2 ^ j)) with (2 * rem * 2 ^ j) by ring.
      apply Z.mul_le_mono_nonneg_r; lia. }
  assert (E2 : (2 * (rem * 2 ^ j) =? 2 ^ k * 2 ^ j) = (2 * rem =? 2 ^ k)).
  { replace (2 * (rem * 2 ^ j)) with (2 * rem * 2 ^ j) by ring.
    destruct (Z.eqb_spec (2 * rem) (2 ^ k)) as [H|H].
    - rewrite H. apply Z.eqb_refl.
    - apply Z.eqb_neq. intros E. apply H.
      apply (Z.mul_reg_r _ _ (2 ^ j)); [lia|exact E]. }
  rewrite E1, E2. reflexivity.
Qed.

(** Rounding a positive mantissa at an exponent not below the least:
    the value of the result is the nearest binary64 value. *)
Lemma binary_round_value s p ez :
  -1074 <= ez ->
  let r := binary_round prec emax s p ez in
  binary64 r /\ isNaN r = false /\
  ord r = cond_Zopp s (nearest (Zpos p * 2 ^ (ez + 1074))).
Proof.
  intros Hez. cbv zeta. unfold binary_round.
  pose proof (shl_align_spec p ez (fexp prec emax (Zpos (digits2_pos p) + ez))) as [A1 A2].
  destruct (shl_align p ez _) as [mz ez']. cbn [fst snd] in A1, A2.
  rewrite fexp_eq in A1, A2.
  assert (Hd : Zdigits2 (Zpos mz) + ez' = Zpos (digits2_pos p) + ez).
  { rewrite A2, digits2_shift by lia. lia. }
  assert (HP : ez' <= fexp prec emax (Zdigits2 (Zpos mz) + ez')).
  { rewrite Hd, fexp_eq. lia. }
  destruct (binary_round_aux_value s (Zpos mz) ez' loc_Exact ltac:(lia) HP)
    as (m1 & Hm1 & Hex & Hres).
  cbv zeta in *. specialize (Hex eq_refl).
  rewrite Hd, fexp_eq in Hex, Hres.
  set (E1 := Z.max (Zpos (digits2_pos p) + ez - 53) (-1074)) in *.
  set (j := ez' + 1074).
  assert (Hj : 0 <= j) by (unfold j; lia).
  set (k := E1 - ez') in *.
  assert (Hk : 0 <= k) by (unfold k, E1; lia).
  set (n := Zpos p * 2 ^ (ez + 1074)).
  assert (Hn : n = Zpos mz * 2 ^ j).
  { unfold n, j. rewrite A2.
    rewrite <- A1.
    replace (ez + 1074) with ((ez - ez') + (ez' + 1074)) by lia.
    rewrite (pow2_split (ez - ez') (ez' + 1074)) by lia. ring. }
  assert (Hcut : cut n = k + j).
  { unfold cut. rewrite Hn, digits2_shift by exact Hj.
    change (Zpos (digits2_pos mz)) with (Zdigits2 (Zpos mz)).
    unfold k, j, E1. lia. }
  assert (Hpj : 0 < 2 ^ j) by (apply Z.pow_pos_nonneg; lia).
  assert (Hpk : 0 < 2 ^ k) by (apply Z.pow_pos_nonneg; lia).
  assert (Hq : n / 2 ^ (k + j) = Zpos mz / 2 ^ k).
  { rewrite Hn, pow2_split by lia. apply Z.div_mul_cancel_r; lia. }
  assert (Hrem : n mod 2 ^ (k + j) = (Zpos mz mod 2 ^ k) * 2 ^ j).
  { rewrite Hn, pow2_split by lia. apply Z.mul_mod_distr_r; lia. }
  assert (Hnear : nearest n
                  = if m1 * 2 ^ (E1 + 1074) <? overflow_rank
                    then m1 * 2 ^ (E1 + 1074) else infinity_rank).
  { unfold nearest. rewrite Hcut, Hq, Hrem, round_up_scale by assumption.
    rewrite <- Hex. replace (k + j) with (E1 + 1074) by (unfold k, j; lia).
    reflexivity. }
  fold n. rewrite Hnear.
  destruct (binary_round_aux prec emax s (Zpos mz) ez' loc_Exact) as [s'|s'| |s' m' e'];
    try contradiction.
  - destruct Hres as [-> ->]. rewrite Z.mul_0_l.
    split; [reflexivity|]. split; [reflexivity|].
    cbn [ord]. destruct s; reflexivity.
  - destruct Hres as [-> Hov]. split; [reflexivity|]. split; [reflexivity|].
    destruct (Z.ltb_spec (m1 * 2 ^ (E1 + 1074)) overflow_rank); [lia|]. reflexivity.
  - destruct Hres as (-> & Hb & Hv). split; [exact Hb|]. split; [reflexivity|].
    pose proof (finite_below_overflow m' e' Hb) as Hlt. rewrite Hv in Hlt.
    destruct (Z.ltb_spec (m1 * 2 ^ (E1 + 1074)) overflow_rank); [|lia].
    cbn [ord]. rewrite Hv. reflexivity.
Qed.

Lemma nearest_zero : nearest 0 = 0.
Proof. reflexivity. Qed.

Lemma binary_normalize_value M ez :
  -1074 <= ez ->
  let r := binary_normalize prec emax M ez false in
  binary64 r /\ isNaN r = false /\
  ord r = nearest_signed (M * 2 ^ (ez + 1074)).
Proof.
  intros Hez. cbv zeta.
  assert (Hp : 0 < 2 ^ (ez + 1074)) by (apply Z.pow_pos_nonneg; lia).
  destruct M as [|p|p]; cbn [binary_normalize].
  - repeat split.
  - destruct (binary_round_value false p ez Hez) as (Hb & Hn & Ho).
    split; [exact Hb|]. split; [exact Hn|]. rewrite Ho. cbn [cond_Zopp].
    unfold nearest_signed.
    destruct (Z.ltb_spec (Zpos p * 2 ^ (ez + 1074)) 0) as [H|H]; [|reflexivity].
    exfalso. assert (0 < Zpos p * 2 ^ (ez + 1074)) by (apply Z.mul_pos_pos; lia). lia.
  - destruct (binary_round_value true p ez Hez) as (Hb & Hn & Ho).
    split; [exact Hb|]. split; [exact Hn|]. rewrite Ho. cbn [cond_Zopp].
    unfold nearest_signed.
    assert (Hneg : Zneg p * 2 ^ (ez + 1074) < 0).
    { apply Z.mul_neg_pos; lia. }
    destruct (Z.ltb_spec (Zneg p * 2 ^ (ez + 1074)) 0) as [_|H]; [|lia].
    replace (- (Zneg p * 2 ^ (ez + 1074))) with (Zpos p * 2 ^ (ez + 1074)) by lia.
    reflexivity.
Qed.

(** A binary64 magnitude is its own nearest value. *)
Lemma nearest_representable m e :
  bounded prec emax m e = true ->
  nearest (Zpos m * 2 ^ (e + 1074)) = Zpos m * 2 ^ (e + 1074).
Proof.
  intros Hb. pose proof (finite_below_overflow m e Hb) as Hlt.
  destruct (bounded_facts m e Hb) as (He & Hm & _).
  assert (Hc : fexp prec emax (Zpos (digits2_pos m) + e) = e).
  { unfold bounded, canonical_mantissa in Hb. apply andb_true_iff in Hb as [Hc _].
    apply Z.eqb_eq in Hc. exact Hc. }
  rewrite fexp_eq in Hc.
  set (j := e + 1074). assert (Hj : 0 <= j) by (unfold j; lia).
  assert (Hcut : cut (Zpos m * 2 ^ j) = j).
  { unfold cut. rewrite digits2_shift by exact Hj. unfold j. lia. }
  assert (Hpj : 0 < 2 ^ j) by (apply Z.pow_pos_nonneg; lia).
  unfold nearest. fold j in Hlt |- *. rewrite Hcut.
  rewrite Z.div_mul by lia. rewrite Z.mod_mul by lia.
  assert (Hup : round_up 0 j (Zpos m) = false).
  { unfold round_up. destruct (Z.ltb_spec (2 ^ j) (2 * 0)) as [|_]; [lia|].
    destruct (Z.eqb_spec (2 * 0) (2 ^ j)) as [|_]; [lia|]. reflexivity. }
  rewrite Hup, Z.add_0_r.
  destruct (Z.ltb_spec (Zpos m * 2 ^ j) overflow_rank); [reflexivity|lia].
Qed.

Lemma nearest_signed_ord x :
  binary64 x -> isFinite x = true -> nearest_signed (ord x) = ord x.
Proof.
  intros Hb Hf. destruct x as [s|s| |s m e]; try discriminate.
  - reflexivity.
  - cbn [ord]. unfold binary64 in Hb. cbn [valid_binary] in Hb.
    pose proof (nearest_representable m e Hb) as Hn.
    destruct (bounded_facts m e Hb) as (He & _).
    assert (Hp : 0 < Zpos m * 2 ^ (e + 1074))
      by (apply Z.mul_pos_pos; [lia|apply Z.pow_pos_nonneg; lia]).
    unfold nearest_signed. destruct s; cbn [cond_Zopp].
    + destruct (Z.ltb_spec (- (Zpos m * 2 ^ (e + 1074))) 0); [|lia].
      rewrite Z.opp_involutive, Hn. reflexivity.
    + destruct (Z.ltb_spec (Zpos m * 2 ^ (e + 1074)) 0); [lia|]. exact Hn.
Qed.

Lemma aligned mx ex ez :
  ez <= ex -> -1074 <= ez ->
  Zpos (fst (shl_align mx ex ez)) * 2 ^ (ez + 1074) = Zpos mx * 2 ^ (ex + 1074).
Proof.
  intros Hle Hez. destruct (shl_align_spec mx ex ez) as [_ A].
  rewrite A. replace (Z.min ex ez) with ez by lia.
  replace (ex + 1074) with ((ex - ez) + (ez + 1074)) by lia.
  rewrite (pow2_split (ex - ez) (ez + 1074)) by lia. ring.
Qed.

(** The difference and the sum of two finite numbers, by value. *)
Lemma sub_value x y :
  binary64 x -> binary64 y -> isFinite x = true -> isFinite y = true ->
  binary64 (sub x y) /\ isNaN (sub x y) = false /\
  ord (sub x y) = nearest_signed (ord x - ord y).
Proof.
  intros Bx By Fx Fy.
  destruct x as [sx|sx| |sx mx ex], y as [sy|sy| |sy my ey]; try discriminate.
  - split; [destruct sx, sy; reflexivity|].
    split; destruct sx, sy; reflexivity.
  - unfold sub, SFsub. split; [exact By|]. split; [reflexivity|].
    change (ord (S754_zero sx)) with 0. rewrite Z.sub_0_l.
    rewrite <- (nearest_signed_ord (S754_finite (negb sy) my ey) By eq_refl).
    f_equal. cbn [ord]. destruct sy; cbn [negb cond_Zopp]; lia.
  - unfold sub, SFsub. split; [exact Bx|]. split; [reflexivity|].
    change (ord (S754_zero sy)) with 0. rewrite Z.sub_0_r.
    symmetry. apply nearest_signed_ord; [exact Bx|reflexivity].
  - unfold sub, SFsub. cbv zeta.
    unfold binary64 in Bx, By. cbn [valid_binary] in Bx, By.
    destruct (bounded_facts mx ex Bx) as (Hex & _).
    destruct (bounded_facts my ey By) as (Hey & _).
    set (ez := Z.min ex ey).
    destruct (binary_normalize_value
                (cond_Zopp sx (Zpos (fst (shl_align mx ex ez)))
                 - cond_Zopp sy (Zpos (fst (shl_align my ey ez)))) ez ltac:(unfold ez; lia))
      as (Hb & Hn & Ho).
    split; [exact Hb|]. split; [exact Hn|]. rewrite Ho. f_equal.
    pose proof (aligned mx ex ez ltac:(unfold ez; lia) ltac:(unfold ez; lia)) as Ax.
    pose proof (aligned my ey ez ltac:(unfold ez; lia) ltac:(unfold ez; lia)) as Ay.
    cbn [ord]. rewrite Z.mul_sub_distr_r.
    destruct sx, sy; cbn [cond_Zopp]; lia.
Qed.

Lemma add_value x y :
  binary64 x -> binary64 y -> isFinite x = true -> isFinite y = true ->
  binary64 (add x y) /\ isNaN (add x y) = false /\
  ord (add x y) = nearest_signed (ord x + ord y).
Proof.
  intros Bx By Fx Fy.
  destruct x as [sx|sx| |sx mx ex], y as [sy|sy| |sy my ey]; try discriminate.
  - split; [destruct sx, sy; reflexivity|].
    split; destruct sx, sy; reflexivity.
  - unfold add, SFadd. split; [exact By|]. split; [reflexivity|].
    change (ord (S754_zero sx)) with 0. rewrite Z.add_0_l.
    symmetry. apply nearest_signed_ord; [exact By|reflexivity].
  - unfold add, SFadd. split; [exact Bx|]. split; [reflexivity|].
    change (ord (S754_zero sy)) with 0. rewrite Z.add_0_r.
    symmetry. apply nearest_signed_ord; [exact Bx|reflexivity].
  - unfold add, SFadd. cbv zeta.
    unfold binary64 in Bx, By. cbn [valid_binary] in Bx, By.
    destruct (bounded_facts mx ex Bx) as (Hex & _).
    destruct (bounded_facts my ey By) as (Hey & _).
    set (ez := Z.min ex ey).
    destruct (binary_normalize_value
                (cond_Zopp sx (Zpos (fst (shl_align mx ex ez)))
                 + cond_Zopp sy (Zpos (fst (shl_align my ey ez)))) ez ltac:(unfold ez; lia))
      as (Hb & Hn & Ho).
    split; [exact Hb|]. split; [exact Hn|]. rewrite Ho. f_equal.
    pose proof (aligned mx ex ez ltac:(unfold ez; lia) ltac:(unfold ez; lia)) as Ax.
    pose proof (aligned my ey ez ltac:(unfold ez; lia) ltac:(unfold ez; lia)) as Ay.
    cbn [ord]. rewrite Z.mul_add_distr_r.
    destruct sx, sy; cbn [cond_Zopp]; lia.
Qed.

End ArithValue.
Module UnitInterval.
Import RoundingSpec RoundingFacts RoundValue NearestFacts MaxSpec JsMathFacts ArithValue.

Lemma round_up_none k q : 0 <= k -> round_up 0 k q = false.
Proof.
  intros Hk. assert (Hp : 0 < 2 ^ k) by (apply Z.pow_pos_nonneg; lia).
  unfold round_up. rewrite Z.mul_0_r.
  destruct (Z.ltb_spec (2 ^ k) 0) as [|_]; [lia|].
  destruct (Z.eqb_spec 0 (2 ^ k)) as [|_]; [lia|]. reflexivity.
Qed.

Lemma below_digits q : 0 <= q -> q < 2 ^ Zdigits2 q.
Proof.
  intros Hq. destruct (Z.eq_dec q 0) as [->|Hne]; [reflexivity|].
  apply Zdigits2_bounds. lia.
Qed.

(** Rounding a mantissa [q] at exponent [e] whose value does not exceed
    [2^b] gives at most [2^b]: a power of two is a binary64 value, so
    rounding cannot step over it. *)
Lemma round_le_pow s q e l b :
  0 <= q -> e <= fexp prec emax (Zdigits2 q + e) -> -1022 <= b <= 1023 ->
  (q < 2 ^ (b - e) \/ (q = 2 ^ (b - e) /\ l = loc_Exact)) ->
  match binary_round_aux prec emax s q e l with
  | S754_zero s' => s' = s
  | S754_finite s' m' e' =>
      s' = s /\ bounded prec emax m' e' = true /\
      Zpos m' * 2 ^ (e' + 1074) <= 2 ^ (b + 1074)
  | _ => False
  end.
Proof.
  intros Hq HP Hb Hcase.
  destruct (binary_round_aux_value s q e l Hq HP) as (m1 & Hm1 & Hex & Hres).
  cbv zeta in *.
  set (E1 := fexp prec emax (Zdigits2 q + e)) in *.
  set (k := E1 - e) in *.
  assert (Hk : 0 <= k) by (unfold k; lia).
  assert (Hpk : 0 < 2 ^ k) by (apply Z.pow_pos_nonneg; lia).
  assert (HE : E1 = Z.max (Zdigits2 q + e - 53) (-1074)) by reflexivity.
  assert (HV : m1 * 2 ^ (E1 + 1074) <= 2 ^ (b + 1074)).
  { destruct Hcase as [Hlt|[Heq Hl]].
    - assert (Hbe : 0 <= b - e).
      { destruct (Z.le_gt_cases 0 (b - e)) as [|Hneg]; [assumption|].
        rewrite Z.pow_neg_r in Hlt by lia. lia. }
      assert (Hdq : Zdigits2 q <= b - e) by (apply Zdigits2_le; lia).
      pose proof (below_digits q Hq) as Hqd.
      pose proof (Zdigits2_nonneg q) as Hd0.
      assert (HP2 : 0 <= 2 ^ (E1 + 1074)) by (apply Z.pow_nonneg; lia).
      destruct (Z.le_gt_cases k (Zdigits2 q)) as [Hkd|Hkd].
      + assert (HQ : q / 2 ^ k < 2 ^ (Zdigits2 q - k)).
        { apply Z.div_lt_upper_bound; [exact Hpk|].
          rewrite <- pow2_split by lia.
          replace (k + (Zdigits2 q - k)) with (Zdigits2 q) by lia. exact Hqd. }
        assert (Hm : m1 <= 2 ^ (Zdigits2 q - k)) by lia.
        assert (H1 : m1 * 2 ^ (E1 + 1074)
                     <= 2 ^ (Zdigits2 q - k) * 2 ^ (E1 + 1074))
          by (apply Z.mul_le_mono_nonneg_r; assumption).
        rewrite <- pow2_split in H1 by lia.
        assert (H2 : 2 ^ (Zdigits2 q - k + (E1 + 1074)) <= 2 ^ (b + 1074))
          by (apply Z.pow_le_mono_r; unfold k; lia).
        lia.
      + assert (HQ : q / 2 ^ k = 0).
        { apply Z.div_small. split; [exact Hq|].
          assert (2 ^ Zdigits2 q <= 2 ^ k) by (apply Z.pow_le_mono_r; lia). lia. }
        assert (Hm : m1 <= 1) by lia.
        assert (H1 : m1 * 2 ^ (E1 + 1074) <= 1 * 2 ^ (E1 + 1074))
          by (apply Z.mul_le_mono_nonneg_r; assumption).
        assert (H2 : 2 ^ (E1 + 1074) <= 2 ^ (b + 1074))
          by (apply Z.pow_le_mono_r; lia).
        lia.
    - specialize (Hex Hl).
      assert (Hbe : 0 <= b - e).
      { destruct (Z.le_gt_cases 0 (b - e)) as [|Hneg]; [assumption|].
        rewrite Z.pow_neg_r in Heq by lia. subst q.
        cbn [Zdigits2] in HE. lia. }
      assert (Hpj : 0 < 2 ^ (b - e)) by (apply Z.pow_pos_nonneg; lia).
      assert (Hdq : Zdigits2 q = b - e + 1).
      { apply Zdigits2_unique; [|lia].
        replace (b - e + 1 - 1) with (b - e) by lia.
        replace (b - e + 1) with (Z.succ (b - e)) by lia.
        rewrite Z.pow_succ_r by lia. lia. }
      assert (HE1 : E1 = b - 52) by lia.
      assert (Hsplit : q = 2 ^ 52 * 2 ^ k).
      { rewrite Heq, <- pow2_split by lia. f_equal. unfold k. lia. }
      assert (HQ : q / 2 ^ k = 2 ^ 52) by (rewrite Hsplit; apply Z.div_mul; lia).
      assert (HR : q mod 2 ^ k = 0) by (rewrite Hsplit; apply Z.mod_mul; lia).
      rewrite HQ, HR, round_up_none, Z.add_0_r in Hex by exact Hk.
      rewrite Hex, HE1, <- pow2_split by lia.
      apply Z.pow_le_mono_r; lia. }
  destruct (binary_round_aux prec emax s q e l) as [s'|s'| |s' m' e'].
  - tauto.
  - destruct Hres as [_ Hov].
    assert (2 ^ (b + 1074) < overflow_rank)
      by (unfold overflow_rank; apply Z.pow_lt_mono_r; lia).
    lia.
  - exact Hres.
  - destruct Hres as (Hs & Hbd & Hv). rewrite Hv. tauto.
Qed.

Lemma new_location_exact m : new_location m 0 = loc_Exact.
Proof.
  unfold new_location, new_location_even, new_location_odd.
  destruct (Z.even m); reflexivity.
Qed.

(** The quotient of two positive finite numbers, the first not above the
    second, lies in the unit interval. *)
Lemma div_unit mx ex my ey :
  bounded prec emax mx ex = true -> bounded prec emax my ey = true ->
  Zpos mx * 2 ^ (ex + 1074) <= Zpos my * 2 ^ (ey + 1074) ->
  match div (S754_finite false mx ex) (S754_finite false my ey) with
  | S754_zero s' => s' = false
  | S754_finite s' m' e' =>
      s' = false /\ bounded prec emax m' e' = true /\
      Zpos m' * 2 ^ (e' + 1074) <= 2 ^ 1074
  | _ => False
  end.
Proof.
  intros Bx By Hle.
  destruct (bounded_facts _ _ Bx) as (Hex & Hmx & _).
  destruct (bounded_facts _ _ By) as (Hey & Hmy & _).
  unfold div, SFdiv, SFdiv_core_binary.
  set (d1 := Zdigits2 (Zpos mx)). set (d2 := Zdigits2 (Zpos my)).
  pose proof (Zdigits2_bounds (Zpos mx) ltac:(lia)) as [Hl1 Hu1]. fold d1 in Hl1, Hu1.
  pose proof (Zdigits2_bounds (Zpos my) ltac:(lia)) as [Hl2 Hu2]. fold d2 in Hl2, Hu2.
  assert (Hd1 : 1 <= d1 <= 53).
  { split; [unfold d1; simpl; lia|]. apply Zdigits2_le; lia. }
  assert (Hd2 : 1 <= d2 <= 53).
  { split; [unfold d2; simpl; lia|]. apply Zdigits2_le; lia. }
  assert (Hpx : 0 < 2 ^ (ex + 1074)) by (apply Z.pow_pos_nonneg; lia).
  assert (Hpy : 0 < 2 ^ (ey + 1074)) by (apply Z.pow_pos_nonneg; lia).
  (* the dividend has no more bits above the point than the divisor *)
  assert (HD : d1 + ex <= d2 + ey).
  { assert (H1 : 2 ^ (d1 - 1) * 2 ^ (ex + 1074) <= Zpos mx * 2 ^ (ex + 1074))
      by (apply Z.mul_le_mono_nonneg_r; lia).
    assert (H2 : Zpos my * 2 ^ (ey + 1074) < 2 ^ d2 * 2 ^ (ey + 1074))
      by (apply Z.mul_lt_mono_pos_r; lia).
    rewrite <- pow2_split in H1, H2 by lia.
    assert (H3 : 2 ^ (d1 - 1 + (ex + 1074)) < 2 ^ (d2 + (ey + 1074))) by lia.
    apply Z.pow_lt_mono_r_iff in H3; lia. }
  set (e' := Z.min (fexp prec emax (d1 + ex - (d2 + ey))) (ex - ey)).
  assert (He' : e' <= -53) by (unfold e'; rewrite fexp_eq; lia).
  set (s := ex - ey - e').
  assert (Hs : 0 <= s) by (unfold s, e'; lia).
  set (m' := match s with Z.pos _ => Z.shiftl (Zpos mx) s | 0 => Zpos mx | Z.neg _ => 0 end).
  assert (Hm' : m' = Zpos mx * 2 ^ s).
  { unfold m'. destruct s as [|p|p] eqn:Es; [rewrite Z.pow_0_r; lia| |lia].
    apply Z.shiftl_mul_pow2. lia. }
  assert (Hps : 0 < 2 ^ s) by (apply Z.pow_pos_nonneg; lia).
  pose proof (Z.div_eucl_eq m' (Zpos my) ltac:(lia)) as Hdiv.
  pose proof (Z.mod_pos_bound m' (Zpos my) ltac:(lia)) as Hmod.
  unfold Z.modulo in Hmod.
  destruct (Z.div_eucl m' (Zpos my)) as [q r].
  assert (Hm0 : 0 < m') by (rewrite Hm'; apply Z.mul_pos_pos; lia).
  assert (Hq0 : 0 <= q).
  { destruct (Z.le_gt_cases 0 q) as [|Hneg]; [assumption|exfalso].
    assert (Zpos my * q <= Zpos my * (-1)) by (apply Z.mul_le_mono_nonneg_l; lia).
    lia. }
  (* the dividend, scaled, does not exceed the divisor times 2^(-e') *)
  assert (Hpe : 0 < 2 ^ (- e')) by (apply Z.pow_pos_nonneg; lia).
  assert (Hmle : m' <= Zpos my * 2 ^ (- e')).
  { assert (H1 : Zpos mx * 2 ^ (ex + 1074) * 2 ^ s
                 <= Zpos my * 2 ^ (ey + 1074) * 2 ^ s)
      by (apply Z.mul_le_mono_nonneg_r; lia).
    assert (E : 2 ^ (ey + 1074) * 2 ^ s = 2 ^ (- e') * 2 ^ (ex + 1074)).
    { rewrite <- !pow2_split by lia. f_equal. unfold s. lia. }
    assert (H2 : m' * 2 ^ (ex + 1074) <= Zpos my * 2 ^ (- e') * 2 ^ (ex + 1074)).
    { rewrite Hm'.
      replace (Zpos mx * 2 ^ s * 2 ^ (ex + 1074))
        with (Zpos mx * 2 ^ (ex + 1074) * 2 ^ s) by ring.
      replace (Zpos my * 2 ^ (- e') * 2 ^ (ex + 1074))
        with (Zpos my * (2 ^ (- e') * 2 ^ (ex + 1074))) by ring.
      rewrite <- E.
      replace (Zpos my * (2 ^ (ey + 1074) * 2 ^ s))
        with (Zpos my * 2 ^ (ey + 1074) * 2 ^ s) by ring.
      exact H1. }
    apply Z.mul_le_mono_pos_r in H2; assumption. }
  assert (Hqle : q <= 2 ^ (- e')).
  { destruct (Z.le_gt_cases q (2 ^ (- e'))) as [|Hgt]; [assumption|exfalso].
    assert (Zpos my * (2 ^ (- e') + 1) <= Zpos my * q)
      by (apply Z.mul_le_mono_nonneg_l; lia).
    lia. }
  assert (Hr0 : q = 2 ^ (- e') -> r = 0).
  { intros E. rewrite E in Hdiv. lia. }
  (* above the subnormal range the quotient carries at least 53 bits *)
  assert (Hbig : -1074 < e' -> 2 ^ 52 <= q).
  { intros Hn.
    assert (Hs' : d2 - d1 + 53 <= s) by (unfold s, e' in *; rewrite fexp_eq in *; lia).
    assert (Hlow : 2 ^ (d2 + 52) <= m').
    { rewrite Hm'.
      assert (H1 : 2 ^ (d2 - d1 + 53) <= 2 ^ s) by (apply Z.pow_le_mono_r; lia).
      assert (E : 2 ^ (d2 + 52) = 2 ^ (d1 - 1) * 2 ^ (d2 - d1 + 53)).
      { rewrite <- pow2_split by lia. f_equal. lia. }
      rewrite E. apply Z.mul_le_mono_nonneg; try lia; apply Z.pow_nonneg; lia. }
    destruct (Z.le_gt_cases (2 ^ 52) q) as [|Hlt]; [assumption|exfalso].
    assert (H1 : Zpos my * (q + 1) <= Zpos my * 2 ^ 52)
      by (apply Z.mul_le_mono_nonneg_l; lia).
    assert (H2 : Zpos my * 2 ^ 52 < 2 ^ d2 * 2 ^ 52)
      by (apply Z.mul_lt_mono_pos_r; [reflexivity|lia]).
    rewrite <- pow2_split in H2 by lia.
    lia. }
  assert (HP : e' <= fexp prec emax (Zdigits2 q + e')).
  { rewrite fexp_eq. destruct (Z.le_gt_cases e' (-1074)) as [|Hn]; [lia|].
    specialize (Hbig Hn).
    assert (53 <= Zdigits2 q).
    { destruct (Z.le_gt_cases 53 (Zdigits2 q)) as [|Hlt]; [assumption|exfalso].
      pose proof (below_digits q Hq0) as Hqu.
      assert (2 ^ Zdigits2 q <= 2 ^ 52)
        by (apply Z.pow_le_mono_r; [lia|lia]).
      lia. }
    lia. }
  cbn [xorb].
  apply (round_le_pow false q e' (new_location (Zpos my) r) 0 Hq0 HP); [lia|].
  replace (0 - e') with (- e') by lia.
  destruct (Z.eq_dec q (2 ^ (- e'))) as [E|Hne].
  - right. split; [exact E|]. rewrite (Hr0 E). apply new_location_exact.
  - left. lia.
Qed.

(** Sixteen times a number of the unit interval is at most sixteen. *)
Lemma mul_sixteen mx ex :
  bounded prec emax mx ex = true ->
  Zpos mx * 2 ^ (ex + 1074) <= 2 ^ 1074 ->
  match mul (S754_finite false mx ex) sixteen with
  | S754_zero s' => s' = false
  | S754_finite s' m' e' =>
      s' = false /\ bounded prec emax m' e' = true /\
      Zpos m' * 2 ^ (e' + 1074) <= 2 ^ 1078
  | _ => False
  end.
Proof.
  intros Bx Hle.
  destruct (bounded_facts _ _ Bx) as (Hex & Hmx & Hnorm).
  unfold mul, sixteen, SFmul. cbn [xorb].
  rewrite Pos2Z.inj_mul. change (Zpos 4503599627370496) with (2 ^ 52).
  assert (Hpx : 0 < 2 ^ (ex + 1074)) by (apply Z.pow_pos_nonneg; lia).
  assert (Hex0 : ex <= 0).
  { destruct (Z.le_gt_cases ex 0) as [|Hgt]; [assumption|exfalso].
    assert (2 ^ 1074 < 2 ^ (ex + 1074)) by (apply Z.pow_lt_mono_r; lia).
    assert (1 * 2 ^ (ex + 1074) <= Zpos mx * 2 ^ (ex + 1074))
      by (apply Z.mul_le_mono_nonneg_r; lia).
    lia. }
  assert (Hmle : Zpos mx <= 2 ^ (- ex)).
  { assert (E : 2 ^ 1074 = 2 ^ (- ex) * 2 ^ (ex + 1074)).
    { rewrite <- pow2_split by lia. f_equal. lia. }
    rewrite E in Hle. apply Z.mul_le_mono_pos_r in Hle; assumption. }
  assert (Hd : Zdigits2 (Zpos mx * 2 ^ 52) = Zdigits2 (Zpos mx) + 52).
  { rewrite digits2_shift by lia. reflexivity. }
  assert (HP : ex + -48 <= fexp prec emax (Zdigits2 (Zpos mx * 2 ^ 52) + (ex + -48))).
  { rewrite Hd, fexp_eq.
    destruct (Z.le_gt_cases ex (-1074)) as [|Hn]; [lia|].
    specialize (Hnorm Hn).
    assert (53 <= Zdigits2 (Zpos mx)).
    { destruct (Z.le_gt_cases 53 (Zdigits2 (Zpos mx))) as [|Hlt]; [assumption|exfalso].
      pose proof (below_digits (Zpos mx) ltac:(lia)) as Hqu.
      assert (2 ^ Zdigits2 (Zpos mx) <= 2 ^ 52)
        by (apply Z.pow_le_mono_r; [lia|lia]).
      lia. }
    lia. }
  assert (Hq0 : 0 <= Zpos mx * 2 ^ 52) by lia.
  change 1078 with (4 + 1074).
  apply (round_le_pow false (Zpos mx * 2 ^ 52) (ex + -48) loc_Exact 4 Hq0 HP); [lia|].
  assert (E : 2 ^ (4 - (ex + -48)) = 2 ^ (- ex) * 2 ^ 52).
  { rewrite <- pow2_split by lia. f_equal. lia. }
  rewrite E.
  destruct (Z.eq_dec (Zpos mx) (2 ^ (- ex))) as [Eq|Hne].
  - right. split; [rewrite Eq; reflexivity|reflexivity].
  - left. apply Z.mul_lt_mono_pos_r; [reflexivity|lia].
Qed.

End UnitInterval.
Module FontSizeRange.
Import Trakt TraktGenreDisplay MonthlyWordcloud MaxSpec JsMathFacts StatsFacts.
Import RoundingSpec NearestFacts ArithValue UnitInterval.

Lemma ord_finite x :
  binary64 x -> isFinite x = true -> - infinity_rank < ord x < infinity_rank.
Proof.
  intros Hb Hf. assert (0 < infinity_rank) by (apply Z.pow_pos_nonneg; lia).
  destruct x as [s|s| |s m e]; try discriminate; cbn [ord].
  - lia.
  - pose proof (ord_finite_bound m e Hb). destruct s; cbn [cond_Zopp]; lia.
Qed.

Lemma finite_by_ord x :
  binary64 x -> isNaN x = false -> - infinity_rank < ord x < infinity_rank ->
  isFinite x = true.
Proof.
  intros Hb Hn H. destruct x as [s|s| |s m e]; try discriminate; try reflexivity.
  cbn [ord] in H. destruct s; cbn [cond_Zopp] in H; lia.
Qed.

Lemma finite_comparable x : binary64 x -> isFinite x = true -> comparable x.
Proof.
  intros Hb Hf. split; [exact Hb|]. destruct x; try discriminate; reflexivity.
Qed.

Lemma nearest_nonneg n : 0 <= n -> 0 <= nearest n.
Proof.
  intros H. pose proof (nearest_mono 0 n ltac:(lia)) as H'.
  rewrite nearest_zero in H'. exact H'.
Qed.

Lemma nearest_pos n : 0 < n -> 0 < nearest n.
Proof.
  intros H. pose proof (nearest_mono 1 n ltac:(lia)) as H'.
  assert (E : nearest 1 = 1) by reflexivity. lia.
Qed.

(** An integer below 2^53, scaled by a power of two, is its own nearest
    value. *)
Lemma nearest_exact m j :
  0 <= m < 2 ^ 53 -> 0 <= j -> m * 2 ^ j < overflow_rank ->
  nearest (m * 2 ^ j) = m * 2 ^ j.
Proof.
  intros [Hm0 Hm] Hj Hov. destruct m as [|p|p]; [reflexivity| |lia].
  assert (Hd : Zdigits2 (Zpos p) <= 53) by (apply Zdigits2_le; lia).
  assert (Hcut : cut (Zpos p * 2 ^ j) = Z.max (Zdigits2 (Zpos p) + j - 53) 0).
  { unfold cut. rewrite digits2_shift by exact Hj. reflexivity. }
  set (k := Z.max (Zdigits2 (Zpos p) + j - 53) 0) in *.
  assert (Hk : 0 <= k <= j) by (unfold k; lia).
  assert (Hpk : 0 < 2 ^ k) by (apply Z.pow_pos_nonneg; lia).
  assert (Hsplit : Zpos p * 2 ^ j = Zpos p * 2 ^ (j - k) * 2 ^ k).
  { rewrite <- Z.mul_assoc, <- pow2_split by lia. do 2 f_equal. lia. }
  unfold nearest. rewrite Hcut.
  assert (HQ : (Zpos p * 2 ^ j) / 2 ^ k = Zpos p * 2 ^ (j - k))
    by (rewrite Hsplit; apply Z.div_mul; lia).
  assert (HR : (Zpos p * 2 ^ j) mod 2 ^ k = 0)
    by (rewrite Hsplit; apply Z.mod_mul; lia).
  rewrite HQ, HR, round_up_none, Z.add_0_r, <- Hsplit by lia.
  destruct (Z.ltb_spec (Zpos p * 2 ^ j) overflow_rank); [reflexivity|lia].
Qed.

Lemma small_below_overflow a :
  0 <= a < 2 ^ 53 -> a * 2 ^ 1074 < overflow_rank.
Proof.
  intros [H0 H]. unfold overflow_rank.
  assert (H1 : a * 2 ^ 1074 < 2 ^ 53 * 2 ^ 1074)
    by (apply Z.mul_lt_mono_pos_r; [reflexivity|exact H]).
  assert (H2 : 2 ^ 53 * 2 ^ 1074 <= 2 ^ 2098).
  { rewrite <- pow2_split by lia. apply Z.pow_le_mono_r; lia. }
  lia.
Qed.

(** The number written by a whole literal below 2^53. *)
Lemma of_Z_value a :
  0 <= a < 2 ^ 53 ->
  binary64 (of_Z a) /\ isFinite (of_Z a) = true /\ ord (of_Z a) = a * 2 ^ 1074.
Proof.
  intros Ha. pose proof (small_below_overflow a Ha) as Hov.
  destruct (binary_normalize_value a 0 ltac:(lia)) as (Hb & Hn & Ho).
  change (binary_normalize prec emax a 0 false) with (of_Z a) in *.
  change (0 + 1074) with 1074 in Ho.
  assert (Hv : ord (of_Z a) = a * 2 ^ 1074).
  { rewrite Ho. unfold nearest_signed.
    destruct (Z.ltb_spec (a * 2 ^ 1074) 0) as [Hneg|_].
    - assert (0 <= a * 2 ^ 1074) by (apply Z.mul_nonneg_nonneg; lia). lia.
    - apply nearest_exact; lia. }
  split; [exact Hb|]. split; [|exact Hv].
  apply finite_by_ord; [exact Hb|exact Hn|].
  pose proof overflow_below_infinity.
  assert (0 <= a * 2 ^ 1074) by (apply Z.mul_nonneg_nonneg; lia).
  pose proof overflow_rank_pos. lia.
Qed.

(** The shape of a finite number that is not negative. *)
Lemma nonneg_shape x :
  binary64 x -> isFinite x = true -> 0 <= ord x ->
  (exists s, x = S754_zero s) \/
  (exists m e, x = S754_finite false m e /\ bounded prec emax m e = true).
Proof.
  intros Hb Hf Ho. destruct x as [s|s| |s m e]; try discriminate.
  - left. eauto.
  - right. pose proof (ord_finite_bound m e Hb) as Hp.
    cbn [ord] in Ho. destruct s; cbn [cond_Zopp] in Ho; [lia|]. eauto.
Qed.

Lemma ratio_unit a b :
  binary64 a -> binary64 b -> isFinite a = true -> isFinite b = true ->
  0 <= ord a <= ord b -> 0 < ord b ->
  binary64 (div a b) /\ isFinite (div a b) = true /\
  0 <= ord (div a b) <= 2 ^ 1074.
Proof.
  intros Ba Bb Fa Fb [Ha Hab] Hb.
  assert (H2 : 0 < 2 ^ 1074) by reflexivity.
  destruct (nonneg_shape b Bb Fb ltac:(lia)) as [[s ->]|(my & ey & -> & By)];
    [cbn [ord] in Hb; lia|].
  destruct (nonneg_shape a Ba Fa Ha) as [[s ->]|(mx & ex & -> & Bx)].
  - cbn. repeat split; lia.
  - cbn [ord cond_Zopp] in Hab.
    pose proof (div_unit mx ex my ey Bx By Hab) as H.
    destruct (div (S754_finite false mx ex) (S754_finite false my ey))
      as [s'|s'| |s' m' e']; try contradiction.
    + cbn. repeat split; lia.
    + destruct H as (-> & Hbd & Hv). pose proof (ord_finite_bound m' e' Hbd).
      cbn [ord cond_Zopp]. repeat split; try assumption; lia.
Qed.

Lemma scaled_unit t :
  binary64 t -> isFinite t = true -> 0 <= ord t <= 2 ^ 1074 ->
  binary64 (mul t sixteen) /\ isFinite (mul t sixteen) = true /\
  0 <= ord (mul t sixteen) <= 16 * 2 ^ 1074.
Proof.
  intros Bt Ft [H0 H1].
  assert (H2 : 0 < 2 ^ 1074) by reflexivity.
  assert (E : 16 * 2 ^ 1074 = 2 ^ 1078) by reflexivity.
  destruct (nonneg_shape t Bt Ft H0) as [[s ->]|(mx & ex & -> & Bx)].
  - cbn. repeat split; lia.
  - cbn [ord cond_Zopp] in H1.
    pose proof (mul_sixteen mx ex Bx H1) as H.
    destruct (mul (S754_finite false mx ex) sixteen)
      as [s'|s'| |s' m' e']; try contradiction.
    + cbn. repeat split; lia.
    + destruct H as (-> & Hbd & Hv). pose proof (ord_finite_bound m' e' Hbd).
      cbn [ord cond_Zopp]. repeat split; try assumption; lia.
Qed.

(** [Math.round] of a number between two whole numbers is a whole number
    between them. *)
Lemma Math_round_range a v :
  1 <= a -> a + 16 < 2 ^ 52 -> binary64 v -> isFinite v = true ->
  a * 2 ^ 1074 <= ord v <= (a + 16) * 2 ^ 1074 ->
  exists n, a <= n <= a + 16 /\ Math_round v = of_Z n.
Proof.
  intros Ha Hu Bv Fv [Hl Hh].
  assert (H2 : 0 < 2 ^ 1074) by reflexivity.
  assert (Hpos : 0 < a * 2 ^ 1074) by (apply Z.mul_pos_pos; lia).
  destruct (nonneg_shape v Bv Fv ltac:(lia)) as [[s ->]|(m & e & -> & Bm)];
    [cbn [ord] in Hl; lia|].
  cbn [ord cond_Zopp] in Hl, Hh.
  destruct (bounded_facts m e Bm) as (He & Hm & Hnorm).
  assert (Hpe : 0 < 2 ^ (e + 1074)) by (apply Z.pow_pos_nonneg; lia).
  assert (Hneg : e < 0).
  { destruct (Z.lt_ge_cases e 0) as [|Hge]; [assumption|exfalso].
    specialize (Hnorm ltac:(lia)).
    assert (H1 : 2 ^ 1074 <= 2 ^ (e + 1074)) by (apply Z.pow_le_mono_r; lia).
    assert (H3 : 2 ^ 52 * 2 ^ 1074 <= Zpos m * 2 ^ (e + 1074))
      by (apply Z.mul_le_mono_nonneg; lia).
    assert (H4 : (a + 16) * 2 ^ 1074 < 2 ^ 52 * 2 ^ 1074)
      by (apply Z.mul_lt_mono_pos_r; lia).
    lia. }
  assert (Hq : 0 < 2 ^ (- e)) by (apply Z.pow_pos_nonneg; lia).
  assert (E : 2 ^ 1074 = 2 ^ (- e) * 2 ^ (e + 1074)).
  { rewrite <- pow2_split by lia. f_equal. lia. }
  assert (Hlo : a * 2 ^ (- e) <= Zpos m).
  { rewrite E, Z.mul_assoc in Hl. apply Z.mul_le_mono_pos_r in Hl; assumption. }
  assert (Hhi : Zpos m <= (a + 16) * 2 ^ (- e)).
  { rewrite E, Z.mul_assoc in Hh. apply Z.mul_le_mono_pos_r in Hh; assumption. }
  assert (Hhalf : 2 ^ (- e) = 2 * 2 ^ (- e - 1)).
  { rewrite <- Z.pow_succ_r by lia. f_equal. lia. }
  assert (Hh0 : 0 < 2 ^ (- e - 1)) by (apply Z.pow_pos_nonneg; lia).
  unfold Math_round.
  destruct (Z.leb_spec 0 e) as [|_]; [lia|]. cbv zeta. cbn [cond_Zopp].
  set (n := (Zpos m + 2 ^ (- e - 1)) / 2 ^ (- e)).
  assert (Hn1 : a <= n).
  { unfold n. apply Z.div_le_lower_bound; [exact Hq|]. lia. }
  assert (Hn2 : n < a + 17).
  { unfold n. apply Z.div_lt_upper_bound; [exact Hq|]. lia. }
  destruct (Z.eqb_spec n 0) as [|_]; [lia|].
  exists n. split; [lia|reflexivity].
Qed.

(** The interpolated size, for the sizes [a] and [a + 16]. *)
Lemma interpolated a count lo hi :
  1 <= a -> a + 16 < 2 ^ 52 ->
  binary64 count -> binary64 lo -> binary64 hi ->
  isFinite count = true -> isFinite lo = true -> isFinite hi = true ->
  ord lo <= ord count <= ord hi -> ord lo < ord hi ->
  isFinite (sub hi lo) = true ->
  exists n, a <= n <= a + 16 /\
    Math_round (add (of_Z a) (mul (div (sub count lo) (sub hi lo)) sixteen))
    = of_Z n.
Proof.
  intros Ha Hu Bc Bl Bh Fc Fl Fh [Hlc Hch] Hlh Fd.
  destruct (sub_value count lo Bc Bl Fc Fl) as (Bn & Nn & On).
  destruct (sub_value hi lo Bh Bl Fh Fl) as (Bd & Nd & Od).
  unfold nearest_signed in On, Od.
  destruct (Z.ltb_spec (ord count - ord lo) 0) as [|_]; [lia|].
  destruct (Z.ltb_spec (ord hi - ord lo) 0) as [|_]; [lia|].
  pose proof (nearest_nonneg (ord count - ord lo) ltac:(lia)) as Hn0.
  pose proof (nearest_mono (ord count - ord lo) (ord hi - ord lo) ltac:(lia)) as Hmono.
  pose proof (nearest_pos (ord hi - ord lo) ltac:(lia)) as Hd0.
  pose proof (ord_finite _ Bd Fd) as Hdf.
  assert (Fn : isFinite (sub count lo) = true)
    by (apply finite_by_ord; [exact Bn|exact Nn|lia]).
  destruct (ratio_unit (sub count lo) (sub hi lo) Bn Bd Fn Fd ltac:(lia) ltac:(lia))
    as (Bt & Ft & Ht).
  destruct (scaled_unit _ Bt Ft Ht) as (Bx & Fx & Hx).
  destruct (of_Z_value a ltac:(lia)) as (Ba & Fa & Oa).
  destruct (add_value (of_Z a) _ Ba Bx Fa Fx) as (Bs & Ns & Os).
  set (x := mul (div (sub count lo) (sub hi lo)) sixteen) in *.
  assert (H2 : 0 < 2 ^ 1074) by reflexivity.
  assert (Hsum : a * 2 ^ 1074 <= ord (of_Z a) + ord x <= (a + 16) * 2 ^ 1074)
    by (rewrite Oa; lia).
  assert (Hpos : 0 < a * 2 ^ 1074) by (apply Z.mul_pos_pos; lia).
  unfold nearest_signed in Os.
  destruct (Z.ltb_spec (ord (of_Z a) + ord x) 0) as [|_]; [lia|].
  pose proof (nearest_mono (a * 2 ^ 1074) (ord (of_Z a) + ord x) ltac:(lia)) as M1.
  pose proof (nearest_mono (ord (of_Z a) + ord x) ((a + 16) * 2 ^ 1074) ltac:(lia)) as M2.
  rewrite (nearest_exact a 1074) in M1
    by (try apply small_below_overflow; lia).
  rewrite (nearest_exact (a + 16) 1074) in M2
    by (try apply small_below_overflow; lia).
  pose proof (small_below_overflow (a + 16) ltac:(lia)) as Hov.
  pose proof overflow_below_infinity as Hoi.
  assert (Fs : isFinite (add (of_Z a) x) = true)
    by (apply finite_by_ord; [exact Bs|exact Ns|lia]).
  apply (Math_round_range a _ Ha Hu Bs Fs). lia.
Qed.

Lemma sizes_within a count lo hi :
  a = 8 \/ a = 12 ->
  binary64 count -> binary64 lo -> binary64 hi ->
  isFinite count = true -> isFinite lo = true -> isFinite hi = true ->
  ord lo <= ord count <= ord hi ->
  isFinite (sub hi lo) = true ->
  exists n, a <= n <= a + 16 /\
    computeFontSize count lo hi (Some (of_Z a)) (Some (of_Z (a + 16))) = of_Z n.
Proof.
  intros Hsz Bc Bl Bh Fc Fl Fh Ho Fd. unfold computeFontSize.
  destruct (leb hi lo) eqn:E.
  - exists (a + 8). split; [lia|]. destruct Hsz as [->| ->]; reflexivity.
  - assert (Hlt : ord lo < ord hi).
    { destruct (Z.lt_ge_cases (ord lo) (ord hi)) as [|Hge]; [assumption|exfalso].
      apply (leb_ord hi lo (finite_comparable hi Bh Fh) (finite_comparable lo Bl Fl)) in Hge.
      congruence. }
    assert (Es : sub (of_Z (a + 16)) (of_Z a) = sixteen)
      by (destruct Hsz as [->| ->]; reflexivity).
    rewrite Es.
    apply interpolated; try assumption; destruct Hsz as [->| ->]; lia.
Qed.

(** X22.  For finite [min <= count <= max] whose difference [max - min]
    does not overflow, [computeFontSize] returns a whole number of
    pixels within the two sizes: from 8 to 24 as the word cloud calls
    it, from 12 to 28 with the default sizes. *)
Theorem computeFontSize_within (count lo hi : num) :
  binary64 count -> binary64 lo -> binary64 hi ->
  isFinite count = true -> isFinite lo = true -> isFinite hi = true ->
  leb lo count = true -> leb count hi = true ->
  isFinite (sub hi lo) = true ->
  (exists n, 8 <= n <= 24 /\
     computeFontSize count lo hi (Some (of_Z 8)) (Some (of_Z 24)) = of_Z n) /\
  (exists n, 12 <= n <= 28 /\
     computeFontSize count lo hi None None = of_Z n).
Proof.
  intros Bc Bl Bh Fc Fl Fh Hlc Hch Fd.
  pose proof (finite_comparable _ Bc Fc) as Cc.
  pose proof (finite_comparable _ Bl Fl) as Cl.
  pose proof (finite_comparable _ Bh Fh) as Ch.
  apply (leb_ord lo count Cl Cc) in Hlc.
  apply (leb_ord count hi Cc Ch) in Hch.
  split.
  - apply (sizes_within 8); auto.
  - change (computeFontSize count lo hi None None)
      with (computeFontSize count lo hi (Some (of_Z 12)) (Some (of_Z (12 + 16)))).
    apply (sizes_within 12); auto.
Qed.

(** X23.  A word cloud whose counts are finite and not negative draws
    every word at a whole number of pixels from 8 to 24. *)
Theorem wordcloud_sizes (genres : list GenreCount) :
  (forall g, In g genres ->
     binary64 (count g) /\ isFinite (count g) = true /\
     leb zero (count g) = true) ->
  forall g, In g genres ->
    exists n, 8 <= n <= 24 /\ fontSize genres g = of_Z n.
Proof.
  intros Hc g Hg.
  assert (Hne : genres <> []) by (intros ->; destruct Hg).
  assert (Hcmp : forall g, In g genres -> comparable (count g)).
  { intros g' Hg'. destruct (Hc g' Hg') as (Hb & Hf & _).
    apply finite_comparable; assumption. }
  destruct (stats_sound genres Hne Hcmp) as (_ & _ & Imin & Imax & Hbetween).
  cbv zeta in *.
  apply in_map_iff in Imin as (gl & El & Hgl).
  apply in_map_iff in Imax as (gh & Eh & Hgh).
  destruct (Hc gl Hgl) as (Bl & Fl & Zl). destruct (Hc gh Hgh) as (Bh & Fh & _).
  destruct (Hc g Hg) as (Bc & Fc & _).
  rewrite El in Bl, Fl, Zl. rewrite Eh in Bh, Fh.
  apply (leb_ord zero _ comparable_zero (finite_comparable _ Bl Fl)) in Zl.
  change (ord zero) with 0 in Zl.
  pose proof (Hbetween g Hg) as Hb. pose proof (Hbetween gh Hgh) as Hb'.
  rewrite Eh in Hb'.
  assert (Fd : isFinite (sub (max (stats genres)) (min (stats genres))) = true).
  { destruct (sub_value _ _ Bh Bl Fh Fl) as (Bd & Nd & Od).
    apply finite_by_ord; [exact Bd|exact Nd|]. rewrite Od.
    unfold nearest_signed.
    destruct (Z.ltb_spec (ord (max (stats genres)) - ord (min (stats genres))) 0)
      as [|_]; [lia|].
    pose proof (nearest_nonneg (ord (max (stats genres)) - ord (min (stats genres)))
                  ltac:(lia)) as H0.
    pose proof (nearest_mono (ord (max (stats genres)) - ord (min (stats genres)))
                  (ord (max (stats genres))) ltac:(lia)) as H1.
    pose proof (nearest_signed_ord _ Bh Fh) as H2. unfold nearest_signed in H2.
    destruct (Z.ltb_spec (ord (max (stats genres))) 0) as [|_]; [lia|].
    pose proof (ord_finite _ Bh Fh) as H3.
    assert (0 < infinity_rank) by (apply Z.pow_pos_nonneg; lia). lia. }
  unfold fontSize. apply (sizes_within 8); auto.
Qed.

End FontSizeRange.
(** * The further statements at sample inputs *)

Module MoreWitnesses.

Import Trakt AggregationSpec DisplaySpec MaxSpec TallySpec LoaderSpec Samples.
Import HashHueFacts RuntimeFacts YearHeatmapFacts TraktRuntimeFacts.
Import BucketFacts LoaderFacts DayKeyRoundTrip StatsFacts FontSizeFacts.
Import FontSizeRange.

Ltac members :=
  repeat match goal with
         | H : In _ (_ :: _) |- _ => destruct H as [<-|H]
         | H : In _ [] |- _ => destruct H
         | H : False |- _ => destruct H
         end.

Lemma hashHue_range_witness :
  code_unit_string (code_units "Drama") /\
  0 <= TraktGenreDisplay.hashHue (code_units "Drama") < 360.
Proof.
  assert (H : code_unit_string (code_units "Drama"))
    by (repeat constructor; cbn; lia).
  split; [exact H|]. apply (proj2 (hashHue_range (code_units "Drama") H)).
Defined.

Lemma january_runtimes_binary64 :
  forall e, In e january_entries -> binary64 (total_runtime e).
Proof.
  intros e He. unfold january_entries in He. members; reflexivity.
Defined.

Lemma getMaxRuntime_greatest_witness :
  (forall e, In e january_entries -> binary64 (total_runtime e)) /\
  leb zero (TraktRuntimeData.getMaxRuntime january_entries) = true.
Proof.
  split; [exact january_runtimes_binary64|].
  apply (proj1 (proj2 (getMaxRuntime_greatest january_entries
                         january_runtimes_binary64))).
Defined.

Lemma object_values_binary64 :
  forall e, In e object_entries ->
            binary64 (ToNumber (or_zero (object_value e "count"))).
Proof.
  intros e He. unfold object_entries in He. members; reflexivity.
Defined.

Lemma maxValue_scale_witness :
  (forall e, In e object_entries ->
             binary64 (ToNumber (or_zero (object_value e "count")))) /\
  leb one (YearHeatmap.maxValue object_date object_value object_entries
             (Some 2020) (Some "count")) = true.
Proof.
  split; [exact object_values_binary64|].
  apply (proj1 (proj2 (maxValue_scale object_date object_value object_entries
                         (Some 2020) (Some "count") object_values_binary64))).
Defined.

Lemma january_dates_valid :
  forall e, In e january_entries -> of_iso_day (date e) <> None.
Proof.
  intros e He. unfold january_entries in He. members; vm_compute; discriminate.
Defined.

Lemma years_shown_witness :
  (forall e, In e january_entries -> of_iso_day (date e) <> None) /\
  exists ns,
    Heatmaps.years TraktRuntimeData.groupYears january_entries = map Some ns /\
    StronglySorted Z.lt ns.
Proof.
  split; [exact january_dates_valid|].
  apply (proj2 (proj2 (years_shown january_entries)) january_dates_valid).
Defined.

Lemma buckets_chronological_witness :
  (forall e, In e january_entries -> of_iso_day (date e) <> None) /\
  StronglySorted BucketSpec.earlier_month
    (TraktGenreAggregation.aggregateGenresByMonth january_entries).
Proof.
  split; [exact january_dates_valid|].
  apply (proj1 (buckets_chronological january_entries None january_dates_valid)).
Defined.


Lemma day_key_reads_back_witness :
  ms_year_1000 <= local_afternoon < ms_year_10000 /\
  of_iso_day (FrequencyCounter.day_key (of_ms local_afternoon))
  = of_ms local_afternoon.
Proof.
  assert (H : ms_year_1000 <= local_afternoon < ms_year_10000)
    by (vm_compute; split; [discriminate|reflexivity]).
  split; [exact H|].
  apply (proj1 (proj2 (day_key_reads_back local_afternoon H))).
Defined.

Lemma two_genres_comparable :
  forall g, In g two_genres -> comparable (count g).
Proof.
  intros g Hg. unfold two_genres in Hg. members; split; reflexivity.
Defined.

Lemma stats_bounds_witness :
  two_genres <> [] /\
  (forall g, In g two_genres -> comparable (count g)) /\
  exists g, In g two_genres /\
            count g = MonthlyWordcloud.min (MonthlyWordcloud.stats two_genres).
Proof.
  assert (Hne : two_genres <> []) by discriminate.
  split; [exact Hne|]. split; [exact two_genres_comparable|].
  apply (proj1 (proj1 (proj2 (stats_bounds two_genres))
                      Hne two_genres_comparable)).
Defined.

Lemma wordcloud_uniform_witness :
  (forall g, In g even_genres -> count g = of_Z 2) /\
  isNaN (of_Z 2) = false /\
  In (genre "Crime" 2) even_genres /\
  MonthlyWordcloud.fontSize even_genres (genre "Crime" 2) = of_Z 16.
Proof.
  assert (H : forall g, In g even_genres -> count g = of_Z 2)
    by (intros g Hg; unfold even_genres in Hg; members; reflexivity).
  assert (Hin : In (genre "Crime" 2) even_genres) by (right; left; reflexivity).
  split; [exact H|]. split; [reflexivity|]. split; [exact Hin|].
  apply (wordcloud_uniform even_genres (of_Z 2) H eq_refl _ Hin).
Defined.

Lemma two_genres_finite :
  forall g, In g two_genres -> binary64 (count g) /\ isFinite (count g) = true.
Proof.
  intros g Hg. unfold two_genres in Hg. members; split; reflexivity.
Defined.

Lemma wordcloud_extremes_witness :
  (forall g, In g two_genres -> binary64 (count g) /\ isFinite (count g) = true) /\
  ltb (MonthlyWordcloud.min (MonthlyWordcloud.stats two_genres))
      (MonthlyWordcloud.max (MonthlyWordcloud.stats two_genres)) = true /\
  In (genre "Drama" 2) two_genres /\
  MonthlyWordcloud.fontSize two_genres (genre "Drama" 2) = of_Z 8.
Proof.
  assert (Hin : In (genre "Drama" 2) two_genres) by (left; reflexivity).
  split; [exact two_genres_finite|]. split; [reflexivity|]. split; [exact Hin|].
  apply (proj1 (wordcloud_extremes two_genres two_genres_finite eq_refl _ Hin)).
  reflexivity.
Defined.

Lemma computeFontSize_nan_witness :
  leb (of_Z 3) (of_Z 2) = false /\
  (isNaN NaN = true \/ isNaN (of_Z 2) = true \/ isNaN (of_Z 3) = true) /\
  TraktGenreDisplay.computeFontSize NaN (of_Z 2) (of_Z 3) None None = NaN.
Proof.
  split; [reflexivity|]. split; [left; reflexivity|].
  apply (proj1 (proj2 computeFontSize_nan) NaN (of_Z 2) (of_Z 3) None None);
    [reflexivity|left; reflexivity].
Defined.

Lemma computeFontSize_within_witness :
  leb (of_Z 2) (of_Z 3) = true /\ leb (of_Z 3) (of_Z 6) = true /\
  isFinite (sub (of_Z 6) (of_Z 2)) = true /\
  exists n, 8 <= n <= 24 /\
    TraktGenreDisplay.computeFontSize (of_Z 3) (of_Z 2) (of_Z 6)
                                      (Some (of_Z 8)) (Some (of_Z 24)) = of_Z n.
Proof.
  split; [reflexivity|]. split; [reflexivity|]. split; [reflexivity|].
  apply (proj1 (computeFontSize_within (of_Z 3) (of_Z 2) (of_Z 6)
                  eq_refl eq_refl eq_refl eq_refl eq_refl eq_refl
                  eq_refl eq_refl eq_refl)).
Defined.

Lemma two_genres_counted :
  forall g, In g two_genres ->
    binary64 (count g) /\ isFinite (count g) = true /\
    leb zero (count g) = true.
Proof.
  intros g Hg. unfold two_genres in Hg.
  members; (split; [|split]); reflexivity.
Defined.

Lemma wordcloud_sizes_witness :
  (forall g, In g two_genres ->
     binary64 (count g) /\ isFinite (count g) = true /\
     leb zero (count g) = true) /\
  In (genre "Comedy" 3) two_genres /\
  exists n, 8 <= n <= 24 /\
    MonthlyWordcloud.fontSize two_genres (genre "Comedy" 3) = of_Z n.
Proof.
  assert (Hin : In (genre "Comedy" 3) two_genres) by (right; left; reflexivity).
  split; [exact two_genres_counted|]. split; [exact Hin|].
  apply (wordcloud_sizes two_genres two_genres_counted _ Hin).
Defined.

End MoreWitnesses.
